(** * Unify for VS Code: the diagnostics engine and its path resolvers

    A shallow embedding of [src/diagnostics/diagnostics.ts] and of the
    resolution helpers of [src/providers/definitionProvider.ts] and
    [src/providers/completionProvider.ts], with the properties of the
    include / template / slot analysis stated over it.

    JavaScript strings are modelled as [string] (one [ascii] per code unit,
    so documents range over the Latin-1 alphabet), the file system as a
    lookup function from path strings, and every loop that JavaScript leaves
    unbounded ([while (re.exec ...)], the recursion of
    [checkCircularIncludes]) as an [option]-valued function in which [None]
    stands for a run that does not return. *)

From Stdlib Require Import Bool Arith Lia List Ascii String.
From Stdlib Require Import Sorted DecimalString.
Import ListNotations.

Local Open Scope string_scope.
Local Open Scope list_scope.

Infix "+++" := String.append (right associativity, at level 60).

Set Implicit Arguments.

(** ** Runs that may not return *)

Module Run.

Definition bind {A B : Type} (x : option A) (f : A -> option B) : option B :=
  match x with
  | Some a => f a
  | None => None
  end.

End Run.

Notation "x <- e ;; k" := (Run.bind e (fun x => k))
  (at level 61, e at next level, right associativity).
Notation "' p <- e ;; k" := (Run.bind e (fun p => k))
  (at level 61, p pattern, e at next level, right associativity).

(** ** JavaScript string primitives *)

Module JS.

Definition dq : string := String "034"%char EmptyString.
Definition nl : string := String "010"%char EmptyString.

(** ["x"] written between double quotes, as it appears inside a document. *)
Definition quoted (s : string) : string := dq +++ s +++ dq.

(** [s.slice(n)] for [0 <= n]. *)
Fixpoint drop (n : nat) (s : string) : string :=
  match n, s with
  | O, _ => s
  | S n', String _ s' => drop n' s'
  | S _, EmptyString => EmptyString
  end.

(** [s.slice(0, n)] for [0 <= n]. *)
Fixpoint take (n : nat) (s : string) : string :=
  match n, s with
  | O, _ => EmptyString
  | S n', String a s' => String a (take n' s')
  | S _, EmptyString => EmptyString
  end.

(** [s.slice(a, b)] for [0 <= a <= b]. *)
Definition slice (a b : nat) (s : string) : string := take (b - a) (drop a s).

(** [s.split(sep)] for a one-character separator. *)
Fixpoint splitOn (sep : ascii) (s : string) : list string :=
  match s with
  | EmptyString => [EmptyString]
  | String a s' =>
      if Ascii.eqb a sep then EmptyString :: splitOn sep s'
      else match splitOn sep s' with
           | [] => [String a EmptyString]
           | p :: ps => String a p :: ps
           end
  end.

(** [xs.join(sep)]. *)
Fixpoint join (sep : string) (xs : list string) : string :=
  match xs with
  | [] => EmptyString
  | [x] => x
  | x :: rest => x +++ sep +++ join sep rest
  end.

(** [xs.includes(x)] on an array of strings: strict equality. *)
Definition includes (xs : list string) (x : string) : bool :=
  existsb (String.eqb x) xs.

(** [[...new Set(xs)]]: duplicates removed, first occurrences kept in
    insertion order. *)
Fixpoint dedupe (seen : list string) (xs : list string) : list string :=
  match xs with
  | [] => []
  | x :: rest =>
      if includes seen x then dedupe seen rest
      else x :: dedupe (seen ++ [x]) rest
  end.

(** [String(n)] for a non-negative integer. *)
Definition ofNat (n : nat) : string := NilEmpty.string_of_uint (Nat.to_uint n).

(** A [Set<string>] with its insertion order. *)
Definition StrSet := list string.
Definition setHas (s : StrSet) (x : string) : bool := includes s x.
Definition setAdd (s : StrSet) (x : string) : StrSet :=
  if setHas s x then s else s ++ [x].

End JS.

(** ** Node's [path] module, POSIX flavour *)

Module path.

Definition slash : ascii := "/"%char.
Definition dot : ascii := "."%char.

Definition isSlash (o : option ascii) : bool :=
  match o with
  | Some a => Ascii.eqb a slash
  | None => false
  end.

Definition lastChar (s : string) : option ascii := String.get (String.length s - 1) s.

(** [normalizeString]: the segments of a path with [.] and empty segments
    dropped and [..] resolved against the segments kept so far ([acc] is the
    kept prefix, last segment first). *)
Fixpoint normalizeSegments (allowAboveRoot : bool) (segs acc : list string) : list string :=
  match segs with
  | [] => rev acc
  | seg :: rest =>
      if (seg =? "") || (seg =? ".") then normalizeSegments allowAboveRoot rest acc
      else if seg =? ".." then
        match acc with
        | top :: acc' =>
            if top =? ".." then normalizeSegments allowAboveRoot rest (".." :: acc)
            else normalizeSegments allowAboveRoot rest acc'
        | [] =>
            if allowAboveRoot then normalizeSegments allowAboveRoot rest [".."]
            else normalizeSegments allowAboveRoot rest []
        end
      else normalizeSegments allowAboveRoot rest (seg :: acc)
  end.

Definition normalizeString (p : string) (allowAboveRoot : bool) : string :=
  JS.join "/" (normalizeSegments allowAboveRoot (JS.splitOn slash p) []).

Definition normalize (p : string) : string :=
  if p =? "" then "."
  else
    let isAbsolute := isSlash (String.get 0 p) in
    let trailingSeparator := isSlash (lastChar p) in
    let n := normalizeString p (negb isAbsolute) in
    if n =? "" then
      (if isAbsolute then "/" else if trailingSeparator then "./" else ".")
    else
      let n' := if trailingSeparator then n +++ "/" else n in
      if isAbsolute then "/" +++ n' else n'.

(** [path.join(...args)]. *)
Definition join (args : list string) : string :=
  match filter (fun a => negb (a =? "")) args with
  | [] => "."
  | parts => normalize (JS.join "/" parts)
  end.

(** The right-to-left loop of [path.resolve]: arguments are prepended until
    an absolute one has been seen. *)
Fixpoint resolveLoop (revArgs : list string) (resolvedPath : string) : string * bool :=
  match revArgs with
  | [] => (resolvedPath, false)
  | p :: rest =>
      if p =? "" then resolveLoop rest resolvedPath
      else
        let resolvedPath' := p +++ "/" +++ resolvedPath in
        if isSlash (String.get 0 p) then (resolvedPath', true)
        else resolveLoop rest resolvedPath'
  end.

(** [path.resolve(...args)], with [process.cwd()] given as [cwd]. *)
Definition resolve (cwd : string) (args : list string) : string :=
  let '(resolvedPath, resolvedAbsolute) := resolveLoop (rev (cwd :: args)) "" in
  let n := normalizeString resolvedPath (negb resolvedAbsolute) in
  if resolvedAbsolute then "/" +++ n
  else if n =? "" then "." else n.

(** The scan of [path.dirname]: [i] is the index under examination, going
    down to 1; the result is [end]. *)
Fixpoint dirnameEnd (p : string) (i : nat) (matchedSlash : bool) : option nat :=
  match i with
  | O => None
  | S i' =>
      if isSlash (String.get i p) then
        (if matchedSlash then dirnameEnd p i' matchedSlash else Some i)
      else dirnameEnd p i' false
  end.

Definition dirname (p : string) : string :=
  if p =? "" then "."
  else
    let hasRoot := isSlash (String.get 0 p) in
    match dirnameEnd p (String.length p - 1) true with
    | None => if hasRoot then "/" else "."
    | Some e => if hasRoot && (e =? 1)%nat then "//" else JS.slice 0 e p
    end.

(** The scan of [path.basename] without a suffix: [n] indices remain, the
    one under examination is [n - 1]. *)
Fixpoint basenameScan (p : string) (n : nat) (endp : option nat) : nat * option nat :=
  match n with
  | O => (O, endp)
  | S i =>
      if isSlash (String.get i p) then
        match endp with
        | Some _ => (S i, endp)
        | None => basenameScan p i endp
        end
      else
        match endp with
        | Some _ => basenameScan p i endp
        | None => basenameScan p i (Some (S i))
        end
  end.

Definition basename (p : string) : string :=
  match basenameScan p (String.length p) None with
  | (_, None) => ""
  | (start, Some e) => JS.slice start e p
  end.

(** The state of the scan of [path.extname]; [preDotState] is kept as the
    source's [-1], [0], [1] shifted by one. *)
Record ExtState : Type := mkExtState {
  startDot : option nat;
  startPart : nat;
  extEnd : option nat;
  preDotState : nat
}.

Fixpoint extnameScan (p : string) (n : nat) (st : ExtState) : ExtState :=
  match n with
  | O => st
  | S i =>
      match String.get i p with
      | None => extnameScan p i st
      | Some code =>
          if Ascii.eqb code slash then
            match extEnd st with
            | Some _ => mkExtState (startDot st) (S i) (extEnd st) (preDotState st)
            | None => extnameScan p i st
            end
          else
            let st1 :=
              match extEnd st with
              | None => mkExtState (startDot st) (startPart st) (Some (S i)) (preDotState st)
              | Some _ => st
              end in
            let st2 :=
              if Ascii.eqb code dot then
                match startDot st1 with
                | None => mkExtState (Some i) (startPart st1) (extEnd st1) (preDotState st1)
                | Some _ => mkExtState (startDot st1) (startPart st1) (extEnd st1) 2
                end
              else
                match startDot st1 with
                | Some _ => mkExtState (startDot st1) (startPart st1) (extEnd st1) 0
                | None => st1
                end in
            extnameScan p i st2
      end
  end.

Definition extname (p : string) : string :=
  let st := extnameScan p (String.length p) (mkExtState None 0 None 1) in
  match startDot st, extEnd st with
  | Some sd, Some e =>
      if (preDotState st =? 1)%nat
         || ((preDotState st =? 2)%nat && (sd =? e - 1)%nat && (sd =? startPart st + 1)%nat)
      then ""
      else JS.slice sd e p
  | _, _ => ""
  end.

End path.

(** ** Regular expressions

    The fragment of JavaScript's regular expressions that the sources use,
    with the backtracking semantics of the language: alternatives are tried
    left to right, quantifiers are greedy and give characters back one at a
    time, a negative lookahead consumes nothing. Quantifiers are only ever
    applied to character classes in the sources, and are modelled for them. *)

Module RegExp.

Inductive cclass : Type :=
| CSpace                   (* \s *)
| CAny                     (* .  *)
| COneOf (cs : string)     (* [abc]  *)
| CNoneOf (cs : string).   (* [^abc] *)

Fixpoint inString (a : ascii) (cs : string) : bool :=
  match cs with
  | EmptyString => false
  | String c cs' => Ascii.eqb a c || inString a cs'
  end.

(** White space among the code units below 256: TAB, LF, VT, FF, CR, SP and
    NBSP. *)
Definition isSpace (a : ascii) : bool :=
  let n := nat_of_ascii a in
  (((9 <=? n) && (n <=? 13)) || (n =? 32) || (n =? 160))%nat.

Definition isLineTerminator (a : ascii) : bool :=
  let n := nat_of_ascii a in ((n =? 10) || (n =? 13))%nat.

Definition cmatch (c : cclass) (a : ascii) : bool :=
  match c with
  | CSpace => isSpace a
  | CAny => negb (isLineTerminator a)
  | COneOf cs => inString a cs
  | CNoneOf cs => negb (inString a cs)
  end.

Inductive regex : Type :=
| Lit (l : string)
| Class (c : cclass)
| Star (c : cclass)
| Plus (c : cclass)
| Alt (r1 r2 : regex)
| Seq (r1 r2 : regex)
| Group (n : nat) (r : regex)
| NotAhead (r : regex).

(** Capture groups: the most recent binding of a group number first. *)
Definition captures := list (nat * string).

Fixpoint capture (n : nat) (cs : captures) : string :=
  match cs with
  | [] => ""
  | (k, v) :: rest => if (k =? n)%nat then v else capture n rest
  end.

(** What is left of [s] after the literal [l], when [s] starts with it. *)
Fixpoint matchLit (l s : string) : option string :=
  match l, s with
  | EmptyString, _ => Some s
  | String a l', String b s' => if Ascii.eqb a b then matchLit l' s' else None
  | String _ _, EmptyString => None
  end.

Definition cont := string -> captures -> option (string * captures).

(** Greedy repetition of a class: take as many characters as possible, then
    give them back one by one until the continuation succeeds. *)
Fixpoint star (c : cclass) (s : string) (k : string -> option (string * captures))
  : option (string * captures) :=
  match s with
  | String a s' =>
      if cmatch c a then
        match star c s' k with
        | Some r => Some r
        | None => k s
        end
      else k s
  | EmptyString => k s
  end.

Definition accept : cont := fun s cs => Some (s, cs).

(** [rmatch r s cs k]: match [r] at the start of [s], then continue with [k]
    on the rest; the result is the rest of the input after the whole match
    and the captures. *)
Fixpoint rmatch (r : regex) (s : string) (cs : captures) (k : cont)
  : option (string * captures) :=
  match r with
  | Lit l =>
      match matchLit l s with
      | Some s' => k s' cs
      | None => None
      end
  | Class c =>
      match s with
      | String a s' => if cmatch c a then k s' cs else None
      | EmptyString => None
      end
  | Star c => star c s (fun s' => k s' cs)
  | Plus c =>
      match s with
      | String a s' => if cmatch c a then star c s' (fun s'' => k s'' cs) else None
      | EmptyString => None
      end
  | Alt r1 r2 =>
      match rmatch r1 s cs k with
      | Some res => Some res
      | None => rmatch r2 s cs k
      end
  | Seq r1 r2 => rmatch r1 s cs (fun s' cs' => rmatch r2 s' cs' k)
  | Group n r1 =>
      rmatch r1 s cs
        (fun s' cs' => k s' ((n, JS.take (String.length s - String.length s') s) :: cs'))
  | NotAhead r1 =>
      match rmatch r1 s cs accept with
      | Some _ => None
      | None => k s cs
      end
  end.

(** The array that [exec] returns: [index], [match[0]] and the groups. *)
Record Match : Type := mkMatch {
  index : nat;
  matched : string;
  groups : captures
}.

Definition matchEnd (m : Match) : nat := index m + String.length (matched m).

(** Does [r] match at the very start of [s]? *)
Definition matchHere (r : regex) (s : string) (i : nat) : option Match :=
  match rmatch r s [] accept with
  | Some (rest, cs) => Some (mkMatch i (JS.take (String.length s - String.length rest) s) cs)
  | None => None
  end.

(** The leftmost match in [s], whose first character has index [i] in the
    subject. *)
Fixpoint search (r : regex) (s : string) (i : nat) : option Match :=
  match matchHere r s i with
  | Some m => Some m
  | None =>
      match s with
      | String _ s' => search r s' (S i)
      | EmptyString => None
      end
  end.

(** [re.exec(s)] with [re.lastIndex = lastIndex]. *)
Definition exec (r : regex) (s : string) (lastIndex : nat) : option Match :=
  if (String.length s <? lastIndex)%nat then None
  else search r (JS.drop lastIndex s) lastIndex.

(** [s.match(re)] for a regular expression without the [g] flag. *)
Definition matchFirst (r : regex) (s : string) : option Match := exec r s 0.

(** [while ((m = re.exec(s)) !== null) { ... }] for a fresh [re] with the
    [g] flag: the matches in the order the loop sees them. [exec] leaves
    [lastIndex] at the end of the match, so a regular expression that matches
    the empty string would be found again at the same place for ever. *)
Fixpoint execLoop (fuel : nat) (r : regex) (s : string) (lastIndex : nat)
  : option (list Match) :=
  match fuel with
  | O => None
  | S fuel' =>
      match exec r s lastIndex with
      | None => Some []
      | Some m =>
          ms <- execLoop fuel' r s (matchEnd m) ;;
          Some (m :: ms)
      end
  end.

Definition execAll (r : regex) (s : string) : option (list Match) :=
  execLoop (S (String.length s)) r s 0.

End RegExp.

Import RegExp.

(** The regular expressions of the sources; in the comments the double quote
    is written [\x22] and the single quote [\x27]. *)

(** [/<!--#include\s+(virtual|file)=\x22([^\x22]+)\x22\s*-->/g] *)
Definition includeRegex : regex :=
  Seq (Lit "<!--#include")
  (Seq (Plus CSpace)
  (Seq (Group 1 (Alt (Lit "virtual") (Lit "file")))
  (Seq (Lit ("=" +++ JS.dq))
  (Seq (Group 2 (Plus (CNoneOf JS.dq)))
  (Seq (Lit JS.dq)
  (Seq (Star CSpace) (Lit "-->"))))))).

Definition quotes : string := JS.dq +++ "'".

(** [/<template[^>]+extends=[\x22\x27]([^\x22\x27]+)[\x22\x27][^>]*>/] *)
Definition templateRegex : regex :=
  Seq (Lit "<template")
  (Seq (Plus (CNoneOf ">"))
  (Seq (Lit "extends=")
  (Seq (Class (COneOf quotes))
  (Seq (Group 1 (Plus (CNoneOf quotes)))
  (Seq (Class (COneOf quotes))
  (Seq (Star (CNoneOf ">")) (Lit ">"))))))).

(** [/<template[^>]+slot=[\x22\x27]([^\x22\x27]+)[\x22\x27][^>]*>/g] *)
Definition slotRegex : regex :=
  Seq (Lit "<template")
  (Seq (Plus (CNoneOf ">"))
  (Seq (Lit "slot=")
  (Seq (Class (COneOf quotes))
  (Seq (Group 1 (Plus (CNoneOf quotes)))
  (Seq (Class (COneOf quotes))
  (Seq (Star (CNoneOf ">")) (Lit ">"))))))).

(** [/<slot[^>]+name=[\x22\x27]([^\x22\x27]+)[\x22\x27][^>]*>/g] *)
Definition slotDeclRegex : regex :=
  Seq (Lit "<slot")
  (Seq (Plus (CNoneOf ">"))
  (Seq (Lit "name=")
  (Seq (Class (COneOf quotes))
  (Seq (Group 1 (Plus (CNoneOf quotes)))
  (Seq (Class (COneOf quotes))
  (Seq (Star (CNoneOf ">")) (Lit ">"))))))).

(** [/<!--#include\s+(?!virtual=|file=)/g] *)
Definition malformedInclude : regex :=
  Seq (Lit "<!--#include")
  (Seq (Plus CSpace)
       (NotAhead (Alt (Lit "virtual=") (Lit "file=")))).

(** [/<template[^>]*>(?!.*<\/template>)/g] *)
Definition openTemplate : regex :=
  Seq (Lit "<template")
  (Seq (Star (CNoneOf ">"))
  (Seq (Lit ">")
       (NotAhead (Seq (Star CAny) (Lit "</template>"))))).

(** [/<!--#include\s+(virtual|file)=\x22(G)\x22/g], where the group [G] is
    [[^\x22]*] then [[<>|*?]+] then [[^\x22]*]. *)
Definition includeWithInvalidChars : regex :=
  Seq (Lit "<!--#include")
  (Seq (Plus CSpace)
  (Seq (Group 1 (Alt (Lit "virtual") (Lit "file")))
  (Seq (Lit ("=" +++ JS.dq))
  (Seq (Group 2 (Seq (Star (CNoneOf JS.dq))
                (Seq (Plus (COneOf "<>|*?")) (Star (CNoneOf JS.dq)))))
       (Lit JS.dq))))).

(** [/<template[^>]+extends=\x22([^\x22]+)\x22/] of the completion provider. *)
Definition completionTemplateRegex : regex :=
  Seq (Lit "<template")
  (Seq (Plus (CNoneOf ">"))
  (Seq (Lit ("extends=" +++ JS.dq))
  (Seq (Group 1 (Plus (CNoneOf JS.dq)))
       (Lit JS.dq)))).

(** ** The editor, the configuration and the file system *)

Inductive FsNode : Type :=
| File (content : string)
| Directory.

(** What an analysis reads from its surroundings: the file system behind
    [fs.existsSync] and [fs.readFileSync], [process.cwd()], the
    [unify.sourceDirectory] setting, the workspace folder of a document (by
    uri) and the first workspace folder. *)
Record Workspace : Type := mkWorkspace {
  lookup : string -> option FsNode;
  cwd : string;
  sourceDirectory : string;
  getWorkspaceFolder : string -> option string;
  firstWorkspaceFolder : option string
}.

Record TextDocument : Type := mkTextDocument {
  uri : string;
  fileName : string;
  getText : string
}.

Definition existsSync (w : Workspace) (p : string) : bool :=
  match lookup w p with
  | Some _ => true
  | None => false
  end.

(** [fs.readFileSync(p, 'utf-8')]; [None] when it throws. *)
Definition readFileSync (w : Workspace) (p : string) : option string :=
  match lookup w p with
  | Some (File content) => Some content
  | _ => None
  end.

(** A possibly undefined string used as a condition: undefined and the empty
    string are falsy. *)
Definition truthy (o : option string) : option string :=
  match o with
  | Some s => if s =? "" then None else Some s
  | None => None
  end.

Inductive DiagnosticSeverity : Type := Error | Warning | Information | Hint.

Record Position : Type := mkPosition { line : nat; character : nat }.

Record Range : Type := mkRange { rangeStart : Position; rangeEnd : Position }.

Record RelatedInformation : Type := mkRelated {
  locationUri : string;
  locationRange : Range;
  relatedMessage : string
}.

Record Diagnostic : Type := mkDiagnostic {
  range : Range;
  message : string;
  severity : DiagnosticSeverity;
  code : string;
  source : string;
  relatedInformation : list RelatedInformation
}.

(** The range of a match found on line [i]. *)
Definition matchRange (i : nat) (m : Match) : Range :=
  mkRange (mkPosition i (index m)) (mkPosition i (matchEnd m)).

(** Loops over the lines of a document and over the matches of a line, with
    the diagnostics pushed in the order the loops run. *)
Fixpoint forLines {A : Type} (body : nat -> string -> option (list A))
    (i : nat) (lines : list string) : option (list A) :=
  match lines with
  | [] => Some []
  | l :: rest =>
      ds <- body i l ;;
      ds' <- forLines body (S i) rest ;;
      Some (ds ++ ds')
  end.

(** The line loop of a stage whose body always returns. *)
Fixpoint eachLine {A : Type} (body : nat -> string -> list A)
    (i : nat) (lines : list string) : list A :=
  match lines with
  | [] => []
  | l :: rest => body i l ++ eachLine body (S i) rest
  end.

Fixpoint forMatches {A : Type} (body : Match -> option (list A))
    (ms : list Match) : option (list A) :=
  match ms with
  | [] => Some []
  | m :: rest =>
      ds <- body m ;;
      ds' <- forMatches body rest ;;
      Some (ds ++ ds')
  end.

(** ** [src/diagnostics/diagnostics.ts] *)

Module Diagnostics.

Definition workspaceRootOf (w : Workspace) (document : TextDocument) : option string :=
  truthy (getWorkspaceFolder w (uri document)).

(** The path an include directive found in [targetFile] is resolved to
    inside [checkCircularIncludes]. *)
Definition nextPathOf (w : Workspace) (targetFile : string) (m : Match) : string :=
  let type := capture 1 (groups m) in
  let includePath := capture 2 (groups m) in
  if type =? "virtual" then
    let workspaceRoot :=
      match truthy (firstWorkspaceFolder w) with
      | Some r => r
      | None => ""
      end in
    path.join [workspaceRoot; sourceDirectory w; includePath]
  else path.resolve (cwd w) [path.dirname targetFile; includePath].

(** The [while] loop of [checkCircularIncludes] over the directives of the
    target file; [descend] is the recursive call. Beside the answer, the
    files the calls were made on are collected. *)
Fixpoint includeLoop (w : Workspace) (targetFile : string)
    (descend : string -> option (bool * list string)) (ms : list Match)
  : option (bool * list string) :=
  match ms with
  | [] => Some (false, [])
  | m :: rest =>
      let nextPath := nextPathOf w targetFile m in
      if existsSync w nextPath then
        '(hasCircular, tr) <- descend nextPath ;;
        if (hasCircular : bool) then Some (true, tr)
        else
          '(res, tr') <- includeLoop w targetFile descend rest ;;
          Some (res, tr ++ tr')
      else includeLoop w targetFile descend rest
  end.

(** [checkCircularIncludes(currentFile, targetFile, visited)]. The second
    component of the result lists the [targetFile] of every invocation, in
    call order: the files the traversal descended into. [fuel] bounds the
    nesting of the invocations. *)
Fixpoint checkCircularIncludes (fuel : nat) (w : Workspace)
    (currentFile targetFile : string) (visited : JS.StrSet)
  : option (bool * list string) :=
  match fuel with
  | O => None
  | S fuel' =>
      if JS.setHas visited currentFile then Some (true, [targetFile])
      else if currentFile =? targetFile then Some (true, [targetFile])
      else
        let visited' := JS.setAdd visited currentFile in
        match readFileSync w targetFile with
        | None => Some (false, [targetFile])
        | Some content =>
            ms <- execAll includeRegex content ;;
            '(res, tr) <- includeLoop w targetFile
                            (fun nextPath =>
                               checkCircularIncludes fuel' w currentFile nextPath visited')
                            ms ;;
            Some (res, targetFile :: tr)
        end
  end.

Record ResolvedInclude : Type := mkResolved {
  exists_ : bool;
  expectedPath : string;
  circular : bool
}.

Definition extensions : list string := [".html"; ".htm"; ".md"].

(** The [for (const ext of extensions)] loop with its [break]. *)
Fixpoint tryExtensions (w : Workspace) (resolvedPath : string) (exts : list string)
  : option string :=
  match exts with
  | [] => None
  | ext :: rest =>
      let pathWithExt := resolvedPath +++ ext in
      if existsSync w pathWithExt then Some pathWithExt
      else tryExtensions w resolvedPath rest
  end.

(** The path a directive of [document] names, before any extension is tried. *)
Definition includeTarget (w : Workspace) (document : TextDocument)
    (type includePath workspaceRoot : string) : string :=
  if type =? "virtual" then path.join [workspaceRoot; sourceDirectory w; includePath]
  else path.resolve (cwd w) [path.dirname (fileName document); includePath].

Definition resolveIncludePath (fuel : nat) (w : Workspace) (document : TextDocument)
    (type includePath workspaceRoot : string) : option ResolvedInclude :=
  let resolvedPath := includeTarget w document type includePath workspaceRoot in
  let '(exists0, finalPath) :=
    if existsSync w resolvedPath then (true, resolvedPath)
    else match tryExtensions w resolvedPath extensions with
         | Some pathWithExt => (true, pathWithExt)
         | None => (false, resolvedPath)
         end in
  circular0 <- (if (exists0 : bool)
                then option_map fst
                       (checkCircularIncludes fuel w (fileName document) finalPath [])
                else Some false) ;;
  Some (mkResolved exists0 finalPath circular0).

Definition createIncludeFileSuggestion (w : Workspace) (expectedPath : string) : string :=
  let dir := path.dirname expectedPath in
  let fileName := path.basename expectedPath in
  if existsSync w dir then "Create missing include file: " +++ fileName
  else "Create directory and include file: " +++ expectedPath.

(** The body of the inner loop of [analyzeIncludes] once the directive [m]
    of line [i] has been resolved. *)
Definition includeDiagnostics (w : Workspace) (document : TextDocument)
    (i : nat) (m : Match) (resolvedPath : ResolvedInclude) : list Diagnostic :=
  let includePath := capture 2 (groups m) in
  let range := matchRange i m in
  if negb (exists_ resolvedPath) then
    [ mkDiagnostic range ("Include file not found: " +++ includePath) Error
        "include-not-found" "Unify"
        (if expectedPath resolvedPath =? "" then []
         else [ mkRelated (uri document) range
                  (createIncludeFileSuggestion w (expectedPath resolvedPath)) ]) ]
  else if circular resolvedPath then
    [ mkDiagnostic range ("Circular include dependency detected: " +++ includePath) Error
        "circular-include" "Unify" [] ]
  else [].

Definition analyzeIncludes (fuel : nat) (w : Workspace) (document : TextDocument)
    (lines : list string) : option (list Diagnostic) :=
  match workspaceRootOf w document with
  | None => Some []
  | Some workspaceRoot =>
      forLines
        (fun i line =>
           ms <- execAll includeRegex line ;;
           forMatches
             (fun m =>
                resolvedPath <- resolveIncludePath fuel w document
                                  (capture 1 (groups m)) (capture 2 (groups m))
                                  workspaceRoot ;;
                Some (includeDiagnostics w document i m resolvedPath))
             ms)
        0 lines
  end.

(** [.html] is appended to a candidate that has no extension. *)
Definition withHtml (possiblePath : string) : string :=
  if path.extname possiblePath =? "" then possiblePath +++ ".html" else possiblePath.

(** The [for (const possiblePath of possiblePaths)] loop with its [return]. *)
Fixpoint firstTemplate (w : Workspace) (possiblePaths : list string) : option string :=
  match possiblePaths with
  | [] => None
  | possiblePath :: rest =>
      let testPath := withHtml possiblePath in
      if existsSync w testPath then Some testPath else firstTemplate w rest
  end.

Definition possiblePaths (w : Workspace) (extendsPath workspaceRoot : string) : list string :=
  [ path.join [workspaceRoot; sourceDirectory w; "layouts"; extendsPath];
    path.join [workspaceRoot; sourceDirectory w; "components"; extendsPath];
    path.join [workspaceRoot; sourceDirectory w; extendsPath] ].

Definition resolveTemplatePath (w : Workspace) (document : TextDocument)
    (extendsPath workspaceRoot : string) : option string :=
  firstTemplate w (possiblePaths w extendsPath workspaceRoot).

Definition templateDiagnostics (w : Workspace) (document : TextDocument)
    (workspaceRoot : string) (i : nat) (m : Match) : list Diagnostic :=
  let extendsPath := capture 1 (groups m) in
  match truthy (resolveTemplatePath w document extendsPath workspaceRoot) with
  | Some _ => []
  | None =>
      [ mkDiagnostic (matchRange i m) ("Template not found: " +++ extendsPath) Error
          "template-not-found" "Unify" [] ]
  end.

Definition analyzeTemplates (w : Workspace) (document : TextDocument)
    (lines : list string) : option (list Diagnostic) :=
  match workspaceRootOf w document with
  | None => Some []
  | Some workspaceRoot =>
      forLines
        (fun i line =>
           ms <- execAll templateRegex line ;;
           Some (flat_map (templateDiagnostics w document workspaceRoot i) ms))
        0 lines
  end.

Definition findExtendedTemplate (w : Workspace) (document : TextDocument) : option string :=
  match matchFirst templateRegex (getText document) with
  | Some templateMatch =>
      let extendsPath := capture 1 (groups templateMatch) in
      match workspaceRootOf w document with
      | Some workspaceRoot => resolveTemplatePath w document extendsPath workspaceRoot
      | None => None
      end
  | None => None
  end.

Definition extractSlots (content : string) : option (list string) :=
  ms <- execAll slotDeclRegex content ;;
  Some (JS.dedupe [] (map (fun m => capture 1 (groups m)) ms)).

Definition slotDiagnostics (document : TextDocument) (availableSlots : list string)
    (i : nat) (m : Match) : list Diagnostic :=
  let slotName := capture 1 (groups m) in
  let range := matchRange i m in
  if negb (JS.includes availableSlots slotName) then
    [ mkDiagnostic range
        ("Slot '" +++ slotName +++ "' is not defined in the extended template") Warning
        "undefined-slot" "Unify"
        (match availableSlots with
         | [] => []
         | _ :: _ =>
             [ mkRelated (uri document) range
                 ("Available slots: " +++ JS.join ", " availableSlots) ]
         end) ]
  else [].

Definition analyzeSlots (w : Workspace) (document : TextDocument)
    (lines : list string) : option (list Diagnostic) :=
  match truthy (findExtendedTemplate w document) with
  | None => Some []
  | Some extendedTemplate =>
      match readFileSync w extendedTemplate with
      | None => Some []
      | Some templateContent =>
          availableSlots <- extractSlots templateContent ;;
          forLines
            (fun i line =>
               ms <- execAll slotRegex line ;;
               Some (flat_map (slotDiagnostics document availableSlots i) ms))
            0 lines
      end
  end.

(** One [exec] of a fresh regular expression on a line, turned into a
    diagnostic when it matches. *)
Definition syntaxCheck (r : regex) (i : nat) (l : string)
    (msg : string) (sev : DiagnosticSeverity) (c : string) : list Diagnostic :=
  match exec r l 0 with
  | Some m => [ mkDiagnostic (matchRange i m) msg sev c "Unify" [] ]
  | None => []
  end.

Definition malformedMessage : string :=
  "Malformed include directive. Use virtual=" +++ JS.quoted "path" +++ " or file="
    +++ JS.quoted "path".

Definition syntaxLine (i : nat) (l : string) : list Diagnostic :=
  syntaxCheck malformedInclude i l malformedMessage Error "malformed-include"
  ++ syntaxCheck openTemplate i l "Template tag may not be properly closed" Information
       "unclosed-template"
  ++ syntaxCheck includeWithInvalidChars i l "Include path contains invalid characters"
       Error "invalid-path-chars".

Definition analyzeSyntax (document : TextDocument) (lines : list string) : list Diagnostic :=
  eachLine syntaxLine 0 lines.

Definition analyzeDocument (fuel : nat) (w : Workspace) (document : TextDocument)
  : option (list Diagnostic) :=
  let text := getText document in
  let lines := JS.splitOn "010"%char text in
  includeIssues <- analyzeIncludes fuel w document lines ;;
  templateIssues <- analyzeTemplates w document lines ;;
  slotIssues <- analyzeSlots w document lines ;;
  let syntaxIssues := analyzeSyntax document lines in
  Some (includeIssues ++ templateIssues ++ slotIssues ++ syntaxIssues).

(** The state [updateDiagnostics] acts on: the surroundings it reads, the
    diagnostic collection of the extension context and the lines of the
    output channel. *)
Record World : Type := mkWorld {
  workspace : Workspace;
  diagnostics : list (string * list Diagnostic);
  outputChannel : list string
}.

Fixpoint collectionGet (c : list (string * list Diagnostic)) (u : string)
  : option (list Diagnostic) :=
  match c with
  | [] => None
  | (k, v) :: rest => if k =? u then Some v else collectionGet rest u
  end.

Definition collectionSet (c : list (string * list Diagnostic)) (u : string)
    (ds : list Diagnostic) : list (string * list Diagnostic) :=
  (u, ds) :: filter (fun kv => negb (fst kv =? u)) c.

(** [updateDiagnostics(document)]; nothing in [analyzeDocument] throws, so
    the [catch] branch is never taken. *)
Definition updateDiagnostics (fuel : nat) (st : World) (document : TextDocument)
  : option World :=
  ds <- analyzeDocument fuel (workspace st) document ;;
  Some (mkWorld (workspace st)
          (collectionSet (diagnostics st) (uri document) ds)
          (outputChannel st
             ++ [ "Updated diagnostics for " +++ fileName document +++ ": "
                    +++ JS.ofNat (List.length ds) +++ " issues found" ])).

End Diagnostics.

(** ** [src/providers/definitionProvider.ts] *)

Module DefinitionProvider.

(** [resolveIncludeDefinition]: the file of the returned location. *)
Definition resolveIncludeDefinition (w : Workspace) (document : TextDocument)
    (type includePath : string) : option string :=
  match truthy (getWorkspaceFolder w (uri document)) with
  | None => None
  | Some workspaceRoot =>
      let resolvedPath :=
        Diagnostics.includeTarget w document type includePath workspaceRoot in
      if existsSync w resolvedPath then Some resolvedPath
      else Diagnostics.tryExtensions w resolvedPath [".html"; ".htm"; ".md"]
  end.

Definition possiblePaths (w : Workspace) (document : TextDocument)
    (extendsPath workspaceRoot : string) : list string :=
  [ path.join [workspaceRoot; sourceDirectory w; "layouts"; extendsPath];
    path.join [workspaceRoot; sourceDirectory w; "components"; extendsPath];
    path.join [workspaceRoot; sourceDirectory w; extendsPath];
    path.resolve (cwd w) [path.dirname (fileName document); extendsPath] ].

(** [resolveTemplateDefinition]: the file of the returned location. *)
Definition resolveTemplateDefinition (w : Workspace) (document : TextDocument)
    (extendsPath : string) : option string :=
  match truthy (getWorkspaceFolder w (uri document)) with
  | None => None
  | Some workspaceRoot =>
      Diagnostics.firstTemplate w (possiblePaths w document extendsPath workspaceRoot)
  end.

End DefinitionProvider.

(** ** [src/providers/completionProvider.ts] *)

Module CompletionProvider.

Fixpoint firstExisting (w : Workspace) (possiblePaths : list string) : option string :=
  match possiblePaths with
  | [] => None
  | possiblePath :: rest =>
      if existsSync w possiblePath then Some possiblePath else firstExisting w rest
  end.

Definition findExtendedTemplate (w : Workspace) (document : TextDocument) : option string :=
  match matchFirst completionTemplateRegex (getText document) with
  | Some templateMatch =>
      let extendsPath := capture 1 (groups templateMatch) in
      match truthy (getWorkspaceFolder w (uri document)) with
      | None => None
      | Some workspaceRoot =>
          firstExisting w (Diagnostics.possiblePaths w extendsPath workspaceRoot)
      end
  | None => None
  end.

End CompletionProvider.

Import Diagnostics.

(** ** The stages in closed form

    What the stages return once the loops are known to end: the matches of a
    regular expression as a list, the outcome of the cycle check, and the
    findings of each stage as plain lists. *)

(** A regular expression all of whose matches are non-empty. *)
Definition advancing (r : regex) : Prop :=
  forall s rest cs, rmatch r s [] accept = Some (rest, cs) ->
                    String.length rest < String.length s.

(** The matches of a regular expression all of whose matches are non-empty. *)
Definition matchesOf (r : regex) (s : string) : list Match :=
  match execAll r s with
  | Some ms => ms
  | None => []
  end.

(** The first directive of the target whose path exists as written. *)
Definition firstExistingInclude (w : Workspace) (targetFile : string) (ms : list Match)
  : option Match :=
  find (fun m => existsSync w (nextPathOf w targetFile m)) ms.

(** What [checkCircularIncludes] returns, and on which files it was invoked. *)
Definition circularOutcome (w : Workspace) (currentFile targetFile : string)
    (visited : JS.StrSet) : bool * list string :=
  if JS.setHas visited currentFile then (true, [targetFile])
  else if currentFile =? targetFile then (true, [targetFile])
  else
    match readFileSync w targetFile with
    | None => (false, [targetFile])
    | Some content =>
        match firstExistingInclude w targetFile (matchesOf includeRegex content) with
        | Some m => (true, [targetFile; nextPathOf w targetFile m])
        | None => (false, [targetFile])
        end
    end.

(** The candidates of an include reference, in the order they are probed. *)
Definition candidatePaths (resolvedPath : string) : list string :=
  resolvedPath :: map (fun ext => resolvedPath +++ ext) extensions.

(** The outcome of the existence probe of [resolveIncludePath]. *)
Definition probe (w : Workspace) (resolvedPath : string) : bool * string :=
  if existsSync w resolvedPath then (true, resolvedPath)
  else match tryExtensions w resolvedPath extensions with
       | Some pathWithExt => (true, pathWithExt)
       | None => (false, resolvedPath)
       end.

(** The resolution of the directive [m] of [document]. *)
Definition resolvedInclude (w : Workspace) (document : TextDocument)
    (workspaceRoot : string) (m : Match) : ResolvedInclude :=
  let p := probe w (includeTarget w document (capture 1 (groups m))
                      (capture 2 (groups m)) workspaceRoot) in
  mkResolved (fst p) (snd p)
    (if fst p then fst (circularOutcome w (fileName document) (snd p) []) else false).

Definition includeLine (w : Workspace) (document : TextDocument) (workspaceRoot : string)
    (i : nat) (l : string) : list Diagnostic :=
  flat_map (fun m => includeDiagnostics w document i m
                       (resolvedInclude w document workspaceRoot m))
           (matchesOf includeRegex l).

Definition includeStage (w : Workspace) (document : TextDocument) (lines : list string)
  : list Diagnostic :=
  match workspaceRootOf w document with
  | None => []
  | Some workspaceRoot => eachLine (includeLine w document workspaceRoot) 0 lines
  end.

Definition templateLine (w : Workspace) (document : TextDocument) (workspaceRoot : string)
    (i : nat) (l : string) : list Diagnostic :=
  flat_map (templateDiagnostics w document workspaceRoot i) (matchesOf templateRegex l).

Definition templateStage (w : Workspace) (document : TextDocument) (lines : list string)
  : list Diagnostic :=
  match workspaceRootOf w document with
  | None => []
  | Some workspaceRoot => eachLine (templateLine w document workspaceRoot) 0 lines
  end.

(** The names the parent declares, in declaration order without repeats. *)
Definition declaredSlots (content : string) : list string :=
  JS.dedupe [] (map (fun m => capture 1 (groups m)) (matchesOf slotDeclRegex content)).

Definition slotLine (document : TextDocument) (availableSlots : list string)
    (i : nat) (l : string) : list Diagnostic :=
  flat_map (slotDiagnostics document availableSlots i) (matchesOf slotRegex l).

Definition slotStage (w : Workspace) (document : TextDocument) (lines : list string)
  : list Diagnostic :=
  match truthy (findExtendedTemplate w document) with
  | None => []
  | Some extendedTemplate =>
      match readFileSync w extendedTemplate with
      | None => []
      | Some templateContent =>
          eachLine (slotLine document (declaredSlots templateContent)) 0 lines
      end
  end.

Definition documentLines (document : TextDocument) : list string :=
  JS.splitOn "010"%char (getText document).

(** The report of a document: the stages one after the other. *)
Definition report (w : Workspace) (document : TextDocument) : list Diagnostic :=
  let lines := documentLines document in
  includeStage w document lines ++ templateStage w document lines
    ++ slotStage w document lines ++ analyzeSyntax document lines.

(** The world after a successful update. *)
Definition updated (st : World) (document : TextDocument) : World :=
  let ds := report (workspace st) document in
  mkWorld (workspace st)
    (collectionSet (diagnostics st) (uri document) ds)
    (outputChannel st
       ++ [ "Updated diagnostics for " +++ fileName document +++ ": "
              +++ JS.ofNat (List.length ds) +++ " issues found" ]).

(** ** Notions the properties are stated with *)

Definition startLine (d : Diagnostic) : nat := line (rangeStart (range d)).
Definition startColumn (d : Diagnostic) : nat := character (rangeStart (range d)).

(** Strictly earlier in the document. *)
Definition before (d1 d2 : Diagnostic) : Prop :=
  startLine d1 < startLine d2
  \/ (startLine d1 = startLine d2 /\ startColumn d1 < startColumn d2).

(** The place of a syntax finding among the checks made on one line:
    malformed include, then unclosed template, then invalid path characters. *)
Definition syntaxRank (d : Diagnostic) : nat :=
  if code d =? "malformed-include" then 0
  else if code d =? "unclosed-template" then 1
  else 2.

(** Earlier line, or same line and earlier check. *)
Definition syntaxBefore (d1 d2 : Diagnostic) : Prop :=
  startLine d1 < startLine d2
  \/ (startLine d1 = startLine d2 /\ syntaxRank d1 < syntaxRank d2).

Definition syntaxCodes : list string :=
  ["malformed-include"; "unclosed-template"; "invalid-path-chars"].


Definition notFoundAt (i : nat) (m : Match) : Diagnostic :=
  mkDiagnostic (matchRange i m) ("Template not found: " +++ capture 1 (groups m)) Error
    "template-not-found" "Unify" [].


Definition circularAt (i : nat) (len : nat) (includePath : string) : Diagnostic :=
  mkDiagnostic (mkRange (mkPosition i 0) (mkPosition i len))
    ("Circular include dependency detected: " +++ includePath) Error
    "circular-include" "Unify" [].




(** ** Sample workspaces *)

Fixpoint assocFs (files : list (string * FsNode)) (p : string) : option FsNode :=
  match files with
  | [] => None
  | (k, v) :: rest => if k =? p then Some v else assocFs rest p
  end.

(** A single-folder workspace rooted at [/ws] with the default source
    directory [src]. *)
Definition site (files : list (string * FsNode)) : Workspace :=
  mkWorkspace
    (assocFs (("/ws", Directory) :: ("/ws/src", Directory) :: files))
    "/" "src" (fun _ => Some "/ws") (Some "/ws").

Definition includeDirective (type p : string) : string :=
  "<!--#include " +++ type +++ "=" +++ JS.quoted p +++ " -->".

(** The document the editor shows for the file [p] of [w]. *)
Definition openDocument (w : Workspace) (p : string) : TextDocument :=
  mkTextDocument ("file://" +++ p) p
    (match readFileSync w p with
     | Some content => content
     | None => ""
     end).

(** A includes B and C, B and C include D. *)
Definition diamond : Workspace :=
  site [ ("/ws/src/a.html",
          File (includeDirective "file" "b.html" +++ JS.nl
                  +++ includeDirective "file" "c.html"));
         ("/ws/src/b.html", File (includeDirective "file" "d.html"));
         ("/ws/src/c.html", File (includeDirective "file" "d.html"));
         ("/ws/src/d.html", File "<p>shared</p>") ].

(** A chain of sixty files, each including the next; the last includes
    nothing. *)
Definition chainFile (k : nat) : string := "/ws/src/f" +++ JS.ofNat k +++ ".html".

Definition chainEntry (k : nat) : string * FsNode :=
  (chainFile k,
   File (if (k <? 59)%nat then includeDirective "file" ("f" +++ JS.ofNat (S k) +++ ".html")
         else "<p>end</p>")).

Definition chain : Workspace := site (map chainEntry (seq 0 60)).

Definition twoExtensions : Workspace :=
  site [ ("/ws/src/a.html", File "<p>html</p>"); ("/ws/src/a.md", File "# md");
         ("/ws/src/page.html", File (includeDirective "file" "a")) ].

Definition missingTarget : Workspace :=
  site [ ("/ws/src/page.html", File (includeDirective "file" "gone.html")) ].

Definition besideDocument : Workspace :=
  site [ ("/ws/src/pages", Directory);
         ("/ws/src/pages/index.html",
          File ("<template extends=" +++ JS.quoted "base.html" +++ "></template>"));
         ("/ws/src/pages/base.html", File "<slot name='content'></slot>") ].


Definition layoutSite : Workspace :=
  site [ ("/ws/src/layouts", Directory);
         ("/ws/src/layouts/base.html",
          File ("<html><title><slot name=" +++ JS.quoted "title" +++ "></slot></title>"
                  +++ JS.nl +++ "<body><slot name=" +++ JS.quoted "content"
                  +++ "></slot></body></html>"));
         ("/ws/src/index.html",
          File ("<template extends=" +++ JS.quoted "base.html" +++ "></template>"
                  +++ JS.nl +++ "<template slot=" +++ JS.quoted "content"
                  +++ ">Hello</template>"
                  +++ JS.nl +++ "<template slot=" +++ JS.quoted "sidebar"
                  +++ ">Links</template>")) ].


Definition unresolvedPage : Workspace :=
  site [ ("/ws/src/page.html",
          File ("<template extends=" +++ JS.quoted "nope" +++ ">x</template>"
                  +++ JS.nl +++ includeDirective "file" "nope")) ].

Definition twoParents : Workspace :=
  site [ ("/ws/src/layouts", Directory);
         ("/ws/src/layouts/base.html", File "<slot name='content'></slot>");
         ("/ws/src/layouts/other.html", File "<slot name='main'></slot>");
         ("/ws/src/index.html",
          File ("<template extends=" +++ JS.quoted "base.html" +++ "></template>"
                  +++ JS.nl
                  +++ "<template extends=" +++ JS.quoted "other.html" +++ "></template>")) ].

(** A child that names its layout without the extension. *)
Definition extensionlessParent : Workspace :=
  site [ ("/ws/src/layouts", Directory);
         ("/ws/src/layouts/base.html", File "<slot name='content'></slot>");
         ("/ws/src/index.html",
          File ("<template extends=" +++ JS.quoted "base" +++ "></template>")) ].

Definition singleQuotedTwoSpaces : string := "<!--#include  virtual='x.html' -->".

(** ** What a match looks like

    A reading of the regular expressions by the text they consume: [sem r x
    cin cout] says that [r] can consume exactly [x], turning the captures
    [cin] into [cout]. A lookahead consumes nothing. *)

Fixpoint allIn (c : cclass) (s : string) : Prop :=
  match s with
  | EmptyString => True
  | String a s' => cmatch c a = true /\ allIn c s'
  end.

Fixpoint sem (r : regex) (x : string) (cin cout : captures) : Prop :=
  match r with
  | Lit l => x = l /\ cout = cin
  | Class c => (exists a, x = String a EmptyString /\ cmatch c a = true) /\ cout = cin
  | Star c => allIn c x /\ cout = cin
  | Plus c => x <> EmptyString /\ allIn c x /\ cout = cin
  | Alt r1 r2 => sem r1 x cin cout \/ sem r2 x cin cout
  | Seq r1 r2 =>
      exists x1 x2 cm, x = x1 +++ x2 /\ sem r1 x1 cin cm /\ sem r2 x2 cm cout
  | Group n r1 => exists cm, sem r1 x cin cm /\ cout = (n, x) :: cm
  | NotAhead _ => x = EmptyString /\ cout = cin
  end.

(** A string without the double quote. *)
Definition quoteFree (s : string) : Prop := allIn (CNoneOf JS.dq) s.

(** A string with neither quote character. *)
Definition quotesFree (s : string) : Prop := allIn (CNoneOf quotes) s.

Definition blank (s : string) : Prop := allIn CSpace s.

(** The line of the end of a finding, and its end column. *)
Definition endLine (d : Diagnostic) : nat := line (rangeEnd (range d)).
Definition endColumn (d : Diagnostic) : nat := character (rangeEnd (range d)).

Definition includeSample : string :=
  "see " +++ includeDirective "virtual" "includes/nav.html" +++ " here".

(** The tag expressions of the sources share one shape: an opening literal,
    at least one character other than [>], an attribute literal, a quote, a
    captured name without quotes, a quote, anything but [>], and [>]. *)
Definition tagRegex (opening attribute : string) : regex :=
  Seq (Lit opening)
  (Seq (Plus (CNoneOf ">"))
  (Seq (Lit attribute)
  (Seq (Class (COneOf quotes))
  (Seq (Group 1 (Plus (CNoneOf quotes)))
  (Seq (Class (COneOf quotes))
  (Seq (Star (CNoneOf ">")) (Lit ">"))))))).

Definition isQuote (a : ascii) : Prop := inString a quotes = true.

Definition layoutSample : string :=
  "<slot name='title'>T</slot><slot id=" +++ JS.quoted "x" +++ " name="
    +++ JS.quoted "content" +++ "></slot><slot name='title'></slot>".

(** The texts a finding can start on. *)
Definition startsDirective (s : string) : Prop :=
  exists tail, s = "<!--#include" +++ tail \/ s = "<template" +++ tail.

Definition mixedPage : Workspace :=
  site [ ("/ws/src/page.html",
          File ("<h1>Title</h1>" +++ JS.nl
                  +++ "  " +++ includeDirective "file" "gone.html" +++ JS.nl
                  +++ "<p><template extends='nowhere'>")) ].

(** The suggestion attached to a missing include whose raw target is
    [target]. *)
Definition missingIncludeAt (w : Workspace) (document : TextDocument) (i : nat)
    (m : Match) (target : string) : Diagnostic :=
  mkDiagnostic (matchRange i m) ("Include file not found: " +++ capture 2 (groups m)) Error
    "include-not-found" "Unify"
    [ mkRelated (uri document) (matchRange i m)
        (if existsSync w (path.dirname target)
         then "Create missing include file: " +++ path.basename target
         else "Create directory and include file: " +++ target) ].

(** A workspace in which no document belongs to a folder. *)
Definition looseFiles : Workspace :=
  mkWorkspace
    (assocFs [ ("/tmp", Directory);
               ("/tmp/note.html", File (includeDirective "file" "gone.html")) ])
    "/" "src" (fun _ => None) None.

Definition selfInclude : Workspace :=
  site [ ("/ws/src/loop.html", File (includeDirective "file" "loop.html")) ].

(** Expressions without lookahead. *)
Fixpoint plain (r : regex) : bool :=
  match r with
  | Lit _ | Class _ | Star _ | Plus _ => true
  | Alt r1 r2 | Seq r1 r2 => plain r1 && plain r2
  | Group _ r1 => plain r1
  | NotAhead _ => false
  end.

(** The characters a path must not hold, for the syntax stage. *)
Definition invalidChars : string := "<>|*?".

(** The rest of a line holds a closing template tag that [.*] can reach. *)
Definition closedLater (rest : string) : Prop :=
  exists a b, rest = a +++ "</template>" +++ b /\ allIn CAny a.

(** ** More of [src/providers/definitionProvider.ts] *)

Module Navigation.

(** [s.indexOf(c)] for a one-character [c]; [None] stands for [-1]. *)
Fixpoint indexOfChar (c : ascii) (s : string) : option nat :=
  match s with
  | EmptyString => None
  | String a s' => if Ascii.eqb a c then Some 0 else option_map S (indexOfChar c s')
  end.

(** [s.indexOf(c, from)]. *)
Definition indexOf (c : ascii) (from : nat) (s : string) : option nat :=
  option_map (Nat.add from) (indexOfChar c (JS.drop from s)).

Record IncludeInfo : Type := mkIncludeInfo {
  infoType : string;
  infoPath : string;
  infoRange : Range
}.

Definition dqChar : ascii := "034"%char.

(** The [while] loop of [findIncludeAtPosition] with its [return]. *)
Fixpoint includeAtLoop (lineText : string) (character : nat) (ms : list Match)
  : option IncludeInfo :=
  match ms with
  | [] => None
  | m :: rest =>
      let startPos := index m in
      let endPos := startPos + String.length (matched m) in
      if (startPos <=? character)%nat && (character <=? endPos)%nat then
        let pathStart :=
          match indexOf dqChar startPos lineText with
          | Some k => k + 1
          | None => 0
          end in
        match indexOf dqChar pathStart lineText with
        | Some pathEnd =>
            if (pathStart <=? character)%nat && (character <=? pathEnd)%nat then
              Some (mkIncludeInfo (capture 1 (groups m)) (capture 2 (groups m))
                      (mkRange (mkPosition 0 pathStart) (mkPosition 0 pathEnd)))
            else includeAtLoop lineText character rest
        | None => includeAtLoop lineText character rest
        end
      else includeAtLoop lineText character rest
  end.

Definition findIncludeAtPosition (lineText : string) (character : nat)
  : option (option IncludeInfo) :=
  ms <- execAll includeRegex lineText ;;
  Some (includeAtLoop lineText character ms).

(** The [while] loop of [findSlotAtPosition] with its [return]. *)
Fixpoint slotAtLoop (character : nat) (ms : list Match) : option string :=
  match ms with
  | [] => None
  | m :: rest =>
      let startPos := index m in
      let endPos := startPos + String.length (matched m) in
      if (startPos <=? character)%nat && (character <=? endPos)%nat
      then Some (capture 1 (groups m))
      else slotAtLoop character rest
  end.

Definition findSlotAtPosition (lineText : string) (character : nat)
  : option (option string) :=
  ms <- execAll slotDeclRegex lineText ;;
  Some (slotAtLoop character ms).

(** [findExtendedTemplate] of the definition provider: the file of the
    location [resolveTemplateDefinition] returns for the first tag. *)
Definition findExtendedTemplate (w : Workspace) (document : TextDocument) : option string :=
  match matchFirst templateRegex (getText document) with
  | Some templateMatch =>
      DefinitionProvider.resolveTemplateDefinition w document
        (capture 1 (groups templateMatch))
  | None => None
  end.

End Navigation.

(** ** More of [src/providers/completionProvider.ts] *)

Module Completion.

(** [/<slot[^>]+name=\x22([^\x22]+)\x22/g] *)
Definition slotNameRegex : regex :=
  Seq (Lit "<slot")
  (Seq (Plus (CNoneOf ">"))
  (Seq (Lit ("name=" +++ JS.dq))
  (Seq (Group 1 (Plus (CNoneOf JS.dq)))
       (Lit JS.dq)))).

Definition extractSlotsFromDocument (text : string) : option (list string) :=
  ms <- execAll slotNameRegex text ;;
  Some (JS.dedupe [] (map (fun m => capture 1 (groups m)) ms)).

Inductive CompletionItemKind : Type := Property | Keyword.

Record CompletionItem : Type := mkItem {
  label : string;
  kind : CompletionItemKind;
  detail : string;
  documentation : option string;
  sortText : option string
}.

(** [s.startsWith(prefix)]. *)
Definition startsWith (s prefix : string) : bool := String.prefix prefix s.

Definition commonSlots : list string :=
  ["content"; "title"; "header"; "footer"; "sidebar"; "main"; "navigation"].

(** The loop over the slots of the extended template. *)
Fixpoint templateItems (prefix extendedTemplate : string) (templateSlots : list string)
  : list CompletionItem :=
  match templateSlots with
  | [] => []
  | slot :: rest =>
      if startsWith slot prefix then
        mkItem slot Property "Template slot"
          (Some ("Slot defined in " +++ path.basename extendedTemplate)) None
          :: templateItems prefix extendedTemplate rest
      else templateItems prefix extendedTemplate rest
  end.

(** The loop over the common slot names; [completions] is the array being
    filled. *)
Fixpoint addCommon (prefix : string) (completions : list CompletionItem)
    (slots : list string) : list CompletionItem :=
  match slots with
  | [] => completions
  | slot :: rest =>
      if startsWith slot prefix
         && negb (existsb (fun c => label c =? slot) completions)
      then addCommon prefix
             (completions ++ [mkItem slot Keyword "Common slot name" None
                                (Some ("1_" +++ slot))])
             rest
      else addCommon prefix completions rest
  end.

(** How an asynchronous call ends. *)
Inductive Outcome (A : Type) : Type :=
| Returned (a : A)
| Rejected.

Arguments Returned {A} a.
Arguments Rejected {A}.

(** [provideSlotNameCompletions(document, context)] with [context.prefix]
    given as [prefix]; [openTextDocument] gives the text of the document the
    editor opens for a path, or nothing when the editor cannot open it. *)
Definition provideSlotNameCompletions (w : Workspace)
    (openTextDocument : string -> option string)
    (document : TextDocument) (prefix : string)
  : option (Outcome (list CompletionItem)) :=
  match truthy (CompletionProvider.findExtendedTemplate w document) with
  | Some extendedTemplate =>
      match openTextDocument extendedTemplate with
      | None => Some Rejected
      | Some text =>
          templateSlots <- extractSlotsFromDocument text ;;
          Some (Returned
                  (addCommon prefix (templateItems prefix extendedTemplate templateSlots)
                     commonSlots))
      end
  | None => Some (Returned (addCommon prefix [] commonSlots))
  end.

End Completion.

Definition completionSite : Workspace :=
  site [ ("/ws/src/layouts", Directory);
         ("/ws/src/layouts/base.html",
          File ("<slot name=" +++ JS.quoted "content" +++ "></slot><slot name="
                  +++ JS.quoted "card" +++ "></slot><slot name=" +++ JS.quoted "content"
                  +++ ">"));
         ("/ws/src/index.html",
          File ("<template extends=" +++ JS.quoted "base.html" +++ "></template>")) ].

(** ** The debounced updates of [src/diagnostics/diagnostics.ts]

    [scheduleUpdate] and [dispose] act on the map [updateTimeout] of the
    class and on the timers of the runtime. A timer is a handle with the
    document its callback updates; [setTimeout] hands out a fresh handle,
    [clearTimeout] drops a timer, and a timer that is still pending may fire
    at any moment. The map is kept as an association list, newest entry
    first; documents are named by their uri. *)

Module Debounce.

Record State : Type := mkState {
  updateTimeout : list (string * nat);
  pending : list (nat * string);
  nextHandle : nat;
  updates : list string
}.

Definition initial : State := mkState [] [] 0 [].

Fixpoint mapGet (m : list (string * nat)) (k : string) : option nat :=
  match m with
  | [] => None
  | (k', v) :: rest => if k' =? k then Some v else mapGet rest k
  end.

Definition mapDelete (m : list (string * nat)) (k : string) : list (string * nat) :=
  filter (fun e => negb (fst e =? k)) m.

Definition mapSet (m : list (string * nat)) (k : string) (v : nat) : list (string * nat) :=
  (k, v) :: mapDelete m k.

Definition clearTimeout (timers : list (nat * string)) (h : nat) : list (nat * string) :=
  filter (fun t => negb (fst t =? h)%nat) timers.

(** [scheduleUpdate(document)] for the document of uri [u]. *)
Definition scheduleUpdate (st : State) (u : string) : State :=
  let timers :=
    match mapGet (updateTimeout st) u with
    | Some existingTimeout => clearTimeout (pending st) existingTimeout
    | None => pending st
    end in
  let timeout := nextHandle st in
  mkState (mapSet (updateTimeout st) u timeout)
          (timers ++ [(timeout, u)])
          (S timeout)
          (updates st).

(** The callback of the timer [h] runs: the document is updated and its
    entry leaves the map. A handle that is not pending does nothing. *)
Definition fire (st : State) (h : nat) : State :=
  match find (fun t => (fst t =? h)%nat) (pending st) with
  | Some (_, u) =>
      mkState (mapDelete (updateTimeout st) u)
              (clearTimeout (pending st) h)
              (nextHandle st)
              (updates st ++ [u])
  | None => st
  end.

(** [dispose()]: every timer of the map is cleared, then the map. *)
Definition dispose (st : State) : State :=
  mkState []
          (fold_left clearTimeout (map snd (updateTimeout st)) (pending st))
          (nextHandle st)
          (updates st).

(** [updateDiagnostics(document)] called directly: the update runs at
    once, and neither the timers nor the map are touched. *)
Definition updateDiagnostics (st : State) (u : string) : State :=
  mkState (updateTimeout st) (pending st) (nextHandle st) (updates st ++ [u]).

(** What reaches the diagnostics of an html document: a change or a save of
    the document, a change of its file reported by the file watcher while the
    document is open, the callback of a timer, and [dispose]. *)
Inductive Event : Type :=
| Change (u : string)
| Save (u : string)
| Watch (u : string)
| Fire (h : nat)
| Dispose.

(** A change reaches two listeners: that of the class ([setupEventListeners]),
    which schedules an update, and that of [extension.ts], which runs one at
    once. A save reaches two listeners as well, and both run an update. The
    file watcher runs one. *)
Definition step (st : State) (e : Event) : State :=
  match e with
  | Change u => updateDiagnostics (scheduleUpdate st u) u
  | Save u => updateDiagnostics (updateDiagnostics st u) u
  | Watch u => updateDiagnostics st u
  | Fire h => fire st h
  | Dispose => dispose st
  end.

Definition run (events : list Event) : State := fold_left step events initial.

(** The timers pending for a document. *)
Definition pendingFor (st : State) (u : string) : list (nat * string) :=
  filter (fun t => snd t =? u) (pending st).

(** What the transitions keep: the keys of the map and the handles of the
    pending timers are distinct, handles are below the next one, and the map
    holds exactly the pending timers. *)
Definition consistent (st : State) : Prop :=
  NoDup (map fst (updateTimeout st))
  /\ NoDup (map fst (pending st))
  /\ (forall h u, In (h, u) (pending st) -> h < nextHandle st)
  /\ (forall h u, In (h, u) (pending st) <-> In (u, h) (updateTimeout st)).

(** [k] changes of the document [u] in a row. *)
Fixpoint changes (k : nat) (st : State) (u : string) : State :=
  match k with
  | O => st
  | S k' => changes k' (step st (Change u)) u
  end.

End Debounce.

(** * Properties *)

(** ** The library models on examples *)

Example path_join_ex1 :
  path.join ["/ws"; "src"; "layouts"; "base"] = "/ws/src/layouts/base".
Proof. reflexivity. Qed.

Example path_join_ex2 : path.join ["/ws"; "src"; "../x//y/./z/"] = "/ws/x/y/z/".
Proof. reflexivity. Qed.

Example path_resolve_ex1 :
  path.resolve "/cwd" [path.dirname "/ws/src/a.html"; "../b.html"] = "/ws/b.html".
Proof. reflexivity. Qed.

Example path_resolve_ex2 : path.resolve "/cwd" ["x"; "y/.."] = "/cwd/x".
Proof. reflexivity. Qed.

Example path_dirname_ex :
  map path.dirname ["/a/b/c.html"; "/a"; "a"; "/a/b/"; "//a"; "a/b"]
  = ["/a/b"; "/"; "."; "/a"; "//"; "a"].
Proof. reflexivity. Qed.

Example path_extname_ex :
  map path.extname ["index.html"; "index."; "index"; ".index"; "a.b/c"; ".."; "a/x.md/"; "a.b.c"; "..x"]
  = [".html"; "."; ""; ""; ""; ""; ".md"; ".c"; ".x"].
Proof. reflexivity. Qed.

Example path_extname_ex2 :
  map path.extname ["index.coffee.md"; ".index.md"; "/ws/src/layouts/base"; "/w/my.proj"]
  = [".md"; ".md"; ""; ".proj"].
Proof. reflexivity. Qed.

Example ofNat_ex : map JS.ofNat [0; 7; 59; 120] = ["0"; "7"; "59"; "120"].
Proof. reflexivity. Qed.

Example split_ex :
  JS.splitOn "010"%char ("a" +++ JS.nl +++ JS.nl +++ "b" +++ JS.nl) = ["a"; ""; "b"; ""].
Proof. reflexivity. Qed.

Example dedupe_ex :
  JS.dedupe [] ["title"; "content"; "title"; "Title"] = ["title"; "content"; "Title"].
Proof. reflexivity. Qed.

Example path_basename_ex :
  map path.basename ["/a/b/c.html"; "/a/b/"; "c"; "/"; ""]
  = ["c.html"; "b"; "c"; ""; ""].
Proof. reflexivity. Qed.

Example includeRegex_ex :
  execAll includeRegex
    ("a <!--#include virtual=" +++ JS.quoted "x.html" +++ " --> b <!--#include   file="
       +++ JS.quoted "y" +++ "-->")
  = Some [ mkMatch 2 ("<!--#include virtual=" +++ JS.quoted "x.html" +++ " -->")
             [(2, "x.html"); (1, "virtual")];
           mkMatch 38 ("<!--#include   file=" +++ JS.quoted "y" +++ "-->")
             [(2, "y"); (1, "file")] ].
Proof. reflexivity. Qed.

Example templateRegex_greedy_ex :
  option_map (fun m => capture 1 (groups m))
    (matchFirst templateRegex "<template extends='a.html' data-extends='b.html'>")
  = Some "b.html".
Proof. reflexivity. Qed.

(** ** Strings *)

Lemma length_drop (n : nat) (s : string) :
  String.length (JS.drop n s) = String.length s - n.
Proof.
  revert s; induction n as [|n IH]; intros s; simpl.
  - lia.
  - destruct s as [|a s]; simpl; [reflexivity | apply IH].
Qed.

Lemma length_take (n : nat) (s : string) :
  String.length (JS.take n s) = Nat.min n (String.length s).
Proof.
  revert s; induction n as [|n IH]; intros s; simpl.
  - reflexivity.
  - destruct s as [|a s]; simpl; [reflexivity | now rewrite IH].
Qed.

Lemma matchLit_length (l s s' : string) :
  matchLit l s = Some s' -> String.length s = String.length l + String.length s'.
Proof.
  revert s; induction l as [|a l IH]; intros s H; simpl in *.
  - now inversion H.
  - destruct s as [|b s]; [discriminate|].
    destruct (Ascii.eqb a b); [|discriminate].
    simpl. now rewrite (IH _ H).
Qed.

(** ** The matcher only moves forward *)

Lemma star_shrinks (c : cclass) (s : string) (k : string -> option (string * captures))
    (res : string * captures) :
  star c s k = Some res ->
  exists s', k s' = Some res /\ String.length s' <= String.length s.
Proof.
  induction s as [|a s IH]; simpl; intros H.
  - exists EmptyString; auto.
  - destruct (cmatch c a).
    + destruct (star c s k) as [r|] eqn:E.
      * inversion H; subst r.
        destruct (IH eq_refl) as (s' & Hk & Hl).
        exists s'; split; [assumption | lia].
      * exists (String a s); auto.
    + exists (String a s); auto.
Qed.

Lemma rmatch_shrinks (r : regex) :
  forall (s : string) (cs : captures) (k : cont) (res : string * captures),
    rmatch r s cs k = Some res ->
    exists s' cs', k s' cs' = Some res /\ String.length s' <= String.length s.
Proof.
  induction r as [l|c|c|c|r1 IH1 r2 IH2|r1 IH1 r2 IH2|n r1 IH1|r1 IH1];
    intros s cs k res H; simpl in H.
  - destruct (matchLit l s) as [s'|] eqn:E; [|discriminate].
    exists s', cs; split; [assumption|].
    apply matchLit_length in E; lia.
  - destruct s as [|a s]; [discriminate|].
    destruct (cmatch c a); [|discriminate].
    exists s, cs; split; [assumption | simpl; lia].
  - destruct (star_shrinks _ _ _ H) as (s' & Hk & Hl).
    exists s', cs; auto.
  - destruct s as [|a s]; [discriminate|].
    destruct (cmatch c a); [|discriminate].
    destruct (star_shrinks _ _ _ H) as (s' & Hk & Hl).
    exists s', cs; split; [assumption | simpl; lia].
  - destruct (rmatch r1 s cs k) as [x|] eqn:E.
    + inversion H; subst x. eauto.
    + eauto.
  - destruct (IH1 _ _ _ _ H) as (s1 & cs1 & H1 & L1).
    destruct (IH2 _ _ _ _ H1) as (s2 & cs2 & H2 & L2).
    exists s2, cs2; split; [assumption | lia].
  - destruct (IH1 _ _ _ _ H) as (s1 & cs1 & H1 & L1).
    eexists _, _; split; [exact H1 | assumption].
  - destruct (rmatch r1 s cs accept); [discriminate|].
    exists s, cs; auto.
Qed.

Lemma lit_seq_advancing (a : ascii) (l : string) (r : regex) :
  advancing (Seq (Lit (String a l)) r).
Proof.
  intros s rest cs H; simpl in H.
  destruct s as [|b s]; [discriminate|].
  destruct (Ascii.eqb a b); [|discriminate].
  destruct (matchLit l s) as [s1|] eqn:E; [|discriminate].
  apply matchLit_length in E.
  destruct (rmatch_shrinks _ _ _ _ H) as (s' & cs' & Hk & Hl).
  inversion Hk; subst. simpl. lia.
Qed.

Lemma includeRegex_advancing : advancing includeRegex.
Proof. apply lit_seq_advancing. Qed.

Lemma templateRegex_advancing : advancing templateRegex.
Proof. apply lit_seq_advancing. Qed.

Lemma slotRegex_advancing : advancing slotRegex.
Proof. apply lit_seq_advancing. Qed.

Lemma slotDeclRegex_advancing : advancing slotDeclRegex.
Proof. apply lit_seq_advancing. Qed.

(** ** [exec] finds the leftmost match, inside the subject *)

Lemma matchHere_spec (r : regex) (s : string) (i : nat) (m : Match) :
  matchHere r s i = Some m ->
  index m = i /\ matchEnd m <= i + String.length s
  /\ (advancing r -> index m < matchEnd m).
Proof.
  unfold matchHere. destruct (rmatch r s [] accept) as [[rest cs]|] eqn:E; [|discriminate].
  intros H; inversion H; subst m; clear H. unfold matchEnd; simpl.
  rewrite length_take.
  destruct (rmatch_shrinks _ _ _ _ E) as (s' & cs' & Hk & Hl).
  inversion Hk; subst s' cs'.
  split; [reflexivity|]. split; [lia|].
  intros Hadv. specialize (Hadv _ _ _ E). lia.
Qed.

Lemma search_spec (r : regex) (s : string) :
  forall (i : nat) (m : Match),
    search r s i = Some m ->
    exists j, j <= String.length s /\ index m = i + j
              /\ matchHere r (JS.drop j s) (i + j) = Some m
              /\ forall j', j' < j -> matchHere r (JS.drop j' s) (i + j') = None.
Proof.
  induction s as [|a s IH]; intros i m H; simpl in H.
  - destruct (matchHere r "" i) as [m'|] eqn:E; [|discriminate].
    inversion H; subst m'. exists 0. rewrite Nat.add_0_r. simpl.
    destruct (matchHere_spec _ _ _ E) as (Hi & _).
    split; [lia|]. split; [assumption|]. split; [assumption|]. intros; lia.
  - destruct (matchHere r (String a s) i) as [m'|] eqn:E.
    + inversion H; subst m'. exists 0. rewrite Nat.add_0_r. simpl.
      destruct (matchHere_spec _ _ _ E) as (Hi & _).
      split; [lia|]. split; [assumption|]. split; [assumption|]. intros; lia.
    + destruct (IH _ _ H) as (j & Hj & Hidx & Hm & Hleft).
      exists (S j). simpl.
      replace (i + S j) with (S i + j) by lia.
      split; [lia|]. split; [assumption|]. split; [assumption|].
      intros [|j'] Hlt.
      * simpl. rewrite Nat.add_0_r. exact E.
      * simpl. replace (i + S j') with (S i + j') by lia. apply Hleft. lia.
Qed.

Lemma exec_bounds (r : regex) (s : string) (lastIndex : nat) (m : Match) :
  exec r s lastIndex = Some m ->
  lastIndex <= index m /\ matchEnd m <= String.length s
  /\ (advancing r -> index m < matchEnd m).
Proof.
  unfold exec. destruct (Nat.ltb_spec (String.length s) lastIndex) as [Hlt|Hle];
    [discriminate|].
  intros H. destruct (search_spec _ _ _ H) as (j & Hj & Hidx & Hm & _).
  destruct (matchHere_spec _ _ _ Hm) as (_ & Hend & Hadv).
  rewrite length_drop in Hj, Hend.
  rewrite length_drop in Hend.
  repeat split; auto; lia.
Qed.


(** ** The [exec] loops of the sources terminate *)

Lemma execLoop_S (fuel : nat) (r : regex) (s : string) (lastIndex : nat) :
  execLoop (S fuel) r s lastIndex
  = match exec r s lastIndex with
    | None => Some []
    | Some m => ms <- execLoop fuel r s (matchEnd m) ;; Some (m :: ms)
    end.
Proof. reflexivity. Qed.

Lemma execLoop_total (r : regex) (Hadv : advancing r) (s : string) :
  forall (fuel lastIndex : nat),
    String.length s <= fuel + lastIndex ->
    exists ms, execLoop (S fuel) r s lastIndex = Some ms.
Proof.
  induction fuel as [|fuel IH]; intros lastIndex Hle;
    rewrite execLoop_S; destruct (exec r s lastIndex) as [m|] eqn:E; eauto.
  - destruct (exec_bounds _ _ _ E) as (H1 & H2 & H3). specialize (H3 Hadv). lia.
  - destruct (exec_bounds _ _ _ E) as (H1 & H2 & H3). specialize (H3 Hadv).
    destruct (IH (matchEnd m)) as (ms & Hms); [lia|].
    rewrite Hms. simpl. eauto.
Qed.

Lemma execAll_total (r : regex) (s : string) :
  advancing r -> exists ms, execAll r s = Some ms.
Proof.
  intros Hadv. unfold execAll. apply execLoop_total; [assumption | lia].
Qed.

(** Successive matches do not overlap and come in increasing order. *)
Lemma execLoop_ordered (r : regex) (Hadv : advancing r) (s : string) :
  forall (fuel lastIndex : nat) (ms : list Match),
    execLoop fuel r s lastIndex = Some ms ->
    Forall (fun m => lastIndex <= index m) ms
    /\ StronglySorted (fun m1 m2 => index m1 < index m2) ms.
Proof.
  induction fuel as [|fuel IH]; intros lastIndex ms H; simpl in H; [discriminate|].
  destruct (exec r s lastIndex) as [m|] eqn:E.
  - destruct (execLoop fuel r s (matchEnd m)) as [ms'|] eqn:E'; [|discriminate].
    simpl in H. inversion H; subst ms; clear H.
    destruct (exec_bounds _ _ _ E) as (H1 & H2 & H3). specialize (H3 Hadv).
    destruct (IH _ _ E') as (Hall & Hsorted).
    split.
    + constructor; [assumption|].
      eapply Forall_impl; [|exact Hall]. simpl; intros; lia.
    + constructor; [assumption|].
      eapply Forall_impl; [|exact Hall]. simpl; intros; lia.
  - inversion H; subst. split; constructor.
Qed.

(** ** The cycle check *)

Lemma includes_app (xs ys : list string) (x : string) :
  JS.includes (xs ++ ys) x = JS.includes xs x || JS.includes ys x.
Proof. unfold JS.includes. apply existsb_app. Qed.

Lemma setHas_setAdd (v : JS.StrSet) (x : string) : JS.setHas (JS.setAdd v x) x = true.
Proof.
  unfold JS.setAdd. destruct (JS.setHas v x) eqn:E; [assumption|].
  unfold JS.setHas. rewrite includes_app. simpl. rewrite String.eqb_refl.
  now rewrite orb_true_r.
Qed.

Lemma checkCircularIncludes_S (fuel : nat) (w : Workspace)
    (currentFile targetFile : string) (visited : JS.StrSet) :
  checkCircularIncludes (S fuel) w currentFile targetFile visited
  = if JS.setHas visited currentFile then Some (true, [targetFile])
    else if currentFile =? targetFile then Some (true, [targetFile])
    else
      match readFileSync w targetFile with
      | None => Some (false, [targetFile])
      | Some content =>
          ms <- execAll includeRegex content ;;
          '(res, tr) <- includeLoop w targetFile
                          (fun nextPath =>
                             checkCircularIncludes fuel w currentFile nextPath
                               (JS.setAdd visited currentFile))
                          ms ;;
          Some (res, targetFile :: tr)
      end.
Proof. reflexivity. Qed.

(** Once the document under analysis is in [visited], an invocation returns
    [true] before it looks at its target. *)
Lemma checkCircularIncludes_revisit (fuel : nat) (w : Workspace)
    (currentFile targetFile : string) (visited : JS.StrSet) :
  JS.setHas visited currentFile = true ->
  checkCircularIncludes (S fuel) w currentFile targetFile visited
  = Some (true, [targetFile]).
Proof. intros H. rewrite checkCircularIncludes_S. now rewrite H. Qed.

Lemma includeLoop_revisit (w : Workspace) (targetFile : string)
    (descend : string -> option (bool * list string)) :
  (forall p, descend p = Some (true, [p])) ->
  forall ms,
    includeLoop w targetFile descend ms
    = Some (match firstExistingInclude w targetFile ms with
            | Some m => (true, [nextPathOf w targetFile m])
            | None => (false, [])
            end).
Proof.
  intros Hd ms; induction ms as [|m rest IH]; simpl.
  - reflexivity.
  - destruct (existsSync w (nextPathOf w targetFile m)) eqn:E.
    + rewrite Hd. reflexivity.
    + exact IH.
Qed.

Lemma execAll_matchesOf (r : regex) (s : string) :
  advancing r -> execAll r s = Some (matchesOf r s).
Proof.
  intros Hadv. unfold matchesOf. now destruct (execAll_total s Hadv) as (ms & ->).
Qed.

(** Two nested invocations are all the check ever needs. *)
Lemma checkCircularIncludes_closed (n : nat) (w : Workspace)
    (currentFile targetFile : string) (visited : JS.StrSet) :
  checkCircularIncludes (S (S n)) w currentFile targetFile visited
  = Some (circularOutcome w currentFile targetFile visited).
Proof.
  rewrite checkCircularIncludes_S. unfold circularOutcome.
  destruct (JS.setHas visited currentFile); [reflexivity|].
  destruct (currentFile =? targetFile); [reflexivity|].
  destruct (readFileSync w targetFile) as [content|]; [|reflexivity].
  rewrite (execAll_matchesOf content includeRegex_advancing). simpl.
  rewrite includeLoop_revisit.
  - simpl. now destruct (firstExistingInclude w targetFile (matchesOf includeRegex content)).
  - intros p. apply checkCircularIncludes_revisit, setHas_setAdd.
Qed.

Lemma firstExistingInclude_exists (w : Workspace) (targetFile : string)
    (ms : list Match) (m : Match) :
  firstExistingInclude w targetFile ms = Some m ->
  existsSync w (nextPathOf w targetFile m) = true.
Proof. intros H. now apply find_some in H. Qed.

(** The files the check is invoked on all exist, provided the first one does. *)
Lemma circularOutcome_descends_existing (w : Workspace)
    (currentFile targetFile : string) (visited : JS.StrSet) :
  existsSync w targetFile = true ->
  Forall (fun f => existsSync w f = true)
         (snd (circularOutcome w currentFile targetFile visited)).
Proof.
  intros Ht. unfold circularOutcome.
  destruct (JS.setHas visited currentFile); [repeat constructor; assumption|].
  destruct (currentFile =? targetFile); [repeat constructor; assumption|].
  destruct (readFileSync w targetFile) as [content|];
    [|repeat constructor; assumption].
  destruct (firstExistingInclude w targetFile (matchesOf includeRegex content))
    as [m|] eqn:E; simpl.
  - apply firstExistingInclude_exists in E. repeat constructor; assumption.
  - repeat constructor; assumption.
Qed.

(** ** Include resolution *)

Lemma tryExtensions_find (w : Workspace) (resolvedPath : string) (exts : list string) :
  tryExtensions w resolvedPath exts
  = find (existsSync w) (map (fun ext => resolvedPath +++ ext) exts).
Proof.
  induction exts as [|ext rest IH]; simpl.
  - reflexivity.
  - destruct (existsSync w (resolvedPath +++ ext)); [reflexivity | exact IH].
Qed.

Lemma probe_find (w : Workspace) (resolvedPath : string) :
  find (existsSync w) (candidatePaths resolvedPath)
  = if fst (probe w resolvedPath) then Some (snd (probe w resolvedPath)) else None.
Proof.
  unfold probe, candidatePaths. cbn [find].
  destruct (existsSync w resolvedPath); [reflexivity|].
  rewrite tryExtensions_find.
  now destruct (find (existsSync w) (map (fun ext => resolvedPath +++ ext) extensions)).
Qed.

Lemma probe_exists (w : Workspace) (resolvedPath : string) :
  fst (probe w resolvedPath) = true -> existsSync w (snd (probe w resolvedPath)) = true.
Proof.
  intros H. pose proof (probe_find w resolvedPath) as F. rewrite H in F.
  now apply find_some in F.
Qed.

Lemma resolveIncludePath_closed (n : nat) (w : Workspace) (document : TextDocument)
    (type includePath workspaceRoot : string) :
  resolveIncludePath (S (S n)) w document type includePath workspaceRoot
  = let p := probe w (includeTarget w document type includePath workspaceRoot) in
    Some (mkResolved (fst p) (snd p)
            (if fst p
             then fst (circularOutcome w (fileName document) (snd p) [])
             else false)).
Proof.
  unfold resolveIncludePath, probe.
  destruct (existsSync w (includeTarget w document type includePath workspaceRoot)).
  - rewrite checkCircularIncludes_closed. reflexivity.
  - destruct (tryExtensions w _ extensions) as [pathWithExt|].
    + rewrite checkCircularIncludes_closed. reflexivity.
    + reflexivity.
Qed.

(** ** The stages in closed form

    With two nested invocations allowed to the cycle check, every stage
    returns, and what it returns is a plain list. *)

Lemma forLines_pure {A : Type} (f : nat -> string -> option (list A))
    (g : nat -> string -> list A) :
  (forall i l, f i l = Some (g i l)) ->
  forall lines i, forLines f i lines = Some (eachLine g i lines).
Proof.
  intros H lines; induction lines as [|l rest IH]; intros i; simpl.
  - reflexivity.
  - now rewrite H, IH.
Qed.

Lemma forMatches_pure {A : Type} (f : Match -> option (list A)) (g : Match -> list A) :
  (forall m, f m = Some (g m)) ->
  forall ms, forMatches f ms = Some (flat_map g ms).
Proof.
  intros H ms; induction ms as [|m rest IH]; simpl.
  - reflexivity.
  - now rewrite H, IH.
Qed.

Lemma analyzeIncludes_closed (n : nat) (w : Workspace) (document : TextDocument)
    (lines : list string) :
  analyzeIncludes (S (S n)) w document lines = Some (includeStage w document lines).
Proof.
  unfold analyzeIncludes, includeStage.
  destruct (workspaceRootOf w document) as [workspaceRoot|]; [|reflexivity].
  apply forLines_pure. intros i l.
  rewrite (execAll_matchesOf l includeRegex_advancing). simpl.
  apply forMatches_pure. intros m.
  now rewrite resolveIncludePath_closed.
Qed.

Lemma analyzeTemplates_closed (w : Workspace) (document : TextDocument)
    (lines : list string) :
  analyzeTemplates w document lines = Some (templateStage w document lines).
Proof.
  unfold analyzeTemplates, templateStage.
  destruct (workspaceRootOf w document) as [workspaceRoot|]; [|reflexivity].
  apply forLines_pure. intros i l.
  now rewrite (execAll_matchesOf l templateRegex_advancing).
Qed.

Lemma extractSlots_closed (content : string) :
  extractSlots content = Some (declaredSlots content).
Proof.
  unfold extractSlots, declaredSlots.
  now rewrite (execAll_matchesOf content slotDeclRegex_advancing).
Qed.

Lemma analyzeSlots_closed (w : Workspace) (document : TextDocument) (lines : list string) :
  analyzeSlots w document lines = Some (slotStage w document lines).
Proof.
  unfold analyzeSlots, slotStage.
  destruct (truthy (findExtendedTemplate w document)) as [extendedTemplate|];
    [|reflexivity].
  destruct (readFileSync w extendedTemplate) as [templateContent|]; [|reflexivity].
  rewrite extractSlots_closed. simpl.
  apply forLines_pure. intros i l.
  now rewrite (execAll_matchesOf l slotRegex_advancing).
Qed.

Lemma analyzeDocument_closed (n : nat) (w : Workspace) (document : TextDocument) :
  analyzeDocument (S (S n)) w document = Some (report w document).
Proof.
  unfold analyzeDocument, report, documentLines.
  rewrite analyzeIncludes_closed, analyzeTemplates_closed, analyzeSlots_closed.
  reflexivity.
Qed.

(** ** Includes and cycles *)

(** Whenever the included file can be read and names, in one of its own
    directives, a path that exists, the check answers [true], cycle or not. *)
Lemma nested_include_reported_circular (n : nat) (w : Workspace)
    (currentFile targetFile content : string) (m : Match) :
  currentFile <> targetFile ->
  readFileSync w targetFile = Some content ->
  In m (matchesOf includeRegex content) ->
  existsSync w (nextPathOf w targetFile m) = true ->
  option_map fst (checkCircularIncludes (S (S n)) w currentFile targetFile [])
  = Some true.
Proof.
  intros Hneq Hread Hin Hex. rewrite checkCircularIncludes_closed.
  unfold circularOutcome. cbn [JS.setHas JS.includes existsb].
  destruct (String.eqb_spec currentFile targetFile) as [E|_]; [contradiction|].
  rewrite Hread.
  destruct (firstExistingInclude w targetFile (matchesOf includeRegex content))
    as [m'|] eqn:E; [reflexivity|].
  unfold firstExistingInclude in E.
  apply (find_none _ _ E) in Hin. congruence.
Qed.

(** C1. On the diamond A -> B, A -> C, B -> D, C -> D, with all four files
    present, the analysis of A does report circular includes, one at each of
    A's two directives: the first nested invocation finds the document under
    analysis already in [visited] and answers [true]. *)
Theorem diamond_reported_circular :
  forall n,
    analyzeDocument (S (S n)) diamond (openDocument diamond "/ws/src/a.html")
    = Some [ circularAt 0 30 "b.html"; circularAt 1 30 "c.html" ].
Proof.
  intros n. rewrite analyzeDocument_closed. vm_compute. reflexivity.
Qed.

(** C2. The include resolver probes the raw path, then the raw path with
    [.html], [.htm] and [.md] appended, in that order, and reports the first
    of these candidates that exists; the definition provider resolves the
    same way. In particular, when the raw path is absent and [raw.html]
    exists, [raw.html] is the reported path whatever else exists. *)
Theorem include_first_existing_candidate :
  forall (n : nat) (w : Workspace) (document : TextDocument)
         (type includePath workspaceRoot : string),
    let raw := includeTarget w document type includePath workspaceRoot in
    candidatePaths raw = [raw; raw +++ ".html"; raw +++ ".htm"; raw +++ ".md"]
    /\ exists r,
        resolveIncludePath (S (S n)) w document type includePath workspaceRoot = Some r
        /\ find (existsSync w) (candidatePaths raw)
           = (if exists_ r then Some (expectedPath r) else None)
        /\ (truthy (getWorkspaceFolder w (uri document)) = Some workspaceRoot ->
            DefinitionProvider.resolveIncludeDefinition w document type includePath
            = find (existsSync w) (candidatePaths raw))
        /\ (existsSync w raw = false -> existsSync w (raw +++ ".html") = true ->
            exists_ r = true /\ expectedPath r = raw +++ ".html").
Proof.
  intros n w document type includePath workspaceRoot raw.
  split; [reflexivity|].
  eexists. split; [apply resolveIncludePath_closed|].
  fold raw. cbn [exists_ expectedPath].
  split; [apply probe_find|]. split.
  - intros Hroot. unfold DefinitionProvider.resolveIncludeDefinition.
    rewrite Hroot. fold raw. unfold candidatePaths. cbn [find].
    destruct (existsSync w raw); [reflexivity|].
    apply tryExtensions_find.
  - intros Hraw Hhtml. unfold probe. rewrite Hraw. cbn [extensions tryExtensions].
    rewrite Hhtml. auto.
Qed.

Lemma include_first_existing_candidate_witness :
  exists r,
    resolveIncludePath 2 twoExtensions (openDocument twoExtensions "/ws/src/page.html")
      "file" "a" "/ws" = Some r
    /\ exists_ r = true /\ expectedPath r = "/ws/src/a.html".
Proof.
  destruct (include_first_existing_candidate 0 twoExtensions
              (openDocument twoExtensions "/ws/src/page.html") "file" "a" "/ws")
    as (_ & r & Hr & _ & _ & Hhtml).
  exists r. split; [exact Hr|]. apply Hhtml; reflexivity.
Defined.

Lemma eachLine_In {A : Type} (f : nat -> string -> list A) :
  forall lines i x,
    In x (eachLine f i lines) ->
    exists j l, i <= j /\ nth_error lines (j - i) = Some l /\ In x (f j l).
Proof.
  induction lines as [|l rest IH]; intros i x Hin; simpl in Hin.
  - contradiction.
  - apply in_app_or in Hin. destruct Hin as [Hin|Hin].
    + exists i, l. rewrite Nat.sub_diag. simpl. auto.
    + destruct (IH _ _ Hin) as (j & l' & Hj & Hn & Hx).
      exists j, l'. split; [lia|]. split; [|assumption].
      replace (j - i) with (S (j - S i)) by lia. exact Hn.
Qed.

Lemma includeDiagnostics_code (w : Workspace) (document : TextDocument) (i : nat)
    (m : Match) (r : ResolvedInclude) (d : Diagnostic) :
  In d (includeDiagnostics w document i m r) ->
  range d = matchRange i m
  /\ ((code d = "include-not-found" /\ exists_ r = false)
      \/ (code d = "circular-include" /\ exists_ r = true /\ circular r = true)).
Proof.
  unfold includeDiagnostics. destruct (exists_ r); simpl.
  - destruct (circular r); simpl; [|contradiction].
    intros [<-|[]]. simpl. auto.
  - intros [<-|[]]. simpl. auto.
Qed.

Lemma includeStage_In (w : Workspace) (document : TextDocument) (lines : list string)
    (d : Diagnostic) :
  In d (includeStage w document lines) ->
  exists workspaceRoot i l m,
    workspaceRootOf w document = Some workspaceRoot
    /\ nth_error lines i = Some l /\ In m (matchesOf includeRegex l)
    /\ In d (includeDiagnostics w document i m (resolvedInclude w document workspaceRoot m)).
Proof.
  unfold includeStage. destruct (workspaceRootOf w document) as [workspaceRoot|];
    [|contradiction].
  intros Hin. apply eachLine_In in Hin. destruct Hin as (j & l & _ & Hn & Hin).
  rewrite Nat.sub_0_r in Hn. unfold includeLine in Hin.
  apply in_flat_map in Hin. destruct Hin as (m & Hm & Hd).
  exists workspaceRoot, j, l, m. auto.
Qed.

(** C3 (as the code has it). The cycle check takes no depth bound and the
    include stage knows two kinds of finding only, [include-not-found] and
    [circular-include]: whatever the nesting allowed to the check, the stage
    returns, and it never reports that a resolution went too deep. *)
Theorem include_stage_kinds :
  forall (n : nat) (w : Workspace) (document : TextDocument) (lines : list string),
    exists ds,
      analyzeIncludes (S (S n)) w document lines = Some ds
      /\ Forall (fun d => code d = "include-not-found" \/ code d = "circular-include") ds.
Proof.
  intros n w document lines. eexists. split; [apply analyzeIncludes_closed|].
  apply Forall_forall. intros d Hin.
  apply includeStage_In in Hin.
  destruct Hin as (workspaceRoot & i & l & m & _ & _ & _ & Hd).
  apply includeDiagnostics_code in Hd. tauto.
Qed.

(** C3, refuted as stated: on a chain of sixty files, deeper than the bound
    of fifty the claim speaks of, the only finding is a circular include. *)
Lemma deep_chain_reported_circular :
  option_map (map code)
    (analyzeDocument 100 chain (openDocument chain (chainFile 0)))
  = Some ["circular-include"].
Proof. vm_compute. reflexivity. Qed.

(** ** Template resolution *)

Lemma firstTemplate_find (w : Workspace) (ps : list string) :
  firstTemplate w ps = find (existsSync w) (map withHtml ps).
Proof.
  induction ps as [|p rest IH]; simpl.
  - reflexivity.
  - destruct (existsSync w (withHtml p)); [reflexivity | exact IH].
Qed.

Lemma append_nonempty (s t : string) : t <> "" -> s +++ t <> "".
Proof. destruct s; simpl; [auto | discriminate]. Qed.

Lemma withHtml_nonempty (p : string) : withHtml p <> "".
Proof.
  unfold withHtml. destruct (path.extname p =? "") eqn:E.
  - apply append_nonempty. discriminate.
  - intros ->. vm_compute in E. discriminate.
Qed.

Lemma truthy_nonempty (s : string) : s <> "" -> truthy (Some s) = Some s.
Proof.
  intros H. unfold truthy. destruct (String.eqb_spec s ""); [contradiction | reflexivity].
Qed.

Lemma truthy_firstTemplate (w : Workspace) (ps : list string) :
  truthy (firstTemplate w ps) = firstTemplate w ps.
Proof.
  induction ps as [|p rest IH]; simpl.
  - reflexivity.
  - destruct (existsSync w (withHtml p)); [|exact IH].
    apply truthy_nonempty, withHtml_nonempty.
Qed.



(** The completion provider probes the three locations as they are: a
    reference without extension that the diagnostics resolve is not found. *)
Example completion_lookup_without_html :
  CompletionProvider.findExtendedTemplate extensionlessParent
    (openDocument extensionlessParent "/ws/src/index.html") = None
  /\ Diagnostics.findExtendedTemplate extensionlessParent
       (openDocument extensionlessParent "/ws/src/index.html")
     = Some "/ws/src/layouts/base.html".
Proof. vm_compute. split; reflexivity. Qed.


(** ** Slots *)




Lemma includes_In (xs : list string) (x : string) :
  JS.includes xs x = true <-> In x xs.
Proof.
  unfold JS.includes. rewrite existsb_exists. split.
  - intros (y & Hy & E). apply String.eqb_eq in E. now subst.
  - intros H. exists x. split; [assumption | apply String.eqb_refl].
Qed.


(** ** The order of the findings *)

Lemma StronglySorted_app {A : Type} (R : A -> A -> Prop) (l1 l2 : list A) :
  StronglySorted R l1 -> StronglySorted R l2 ->
  (forall x y, In x l1 -> In y l2 -> R x y) ->
  StronglySorted R (l1 ++ l2).
Proof.
  intros H1 H2 H12. induction H1 as [|a l Hl IH Ha]; simpl.
  - assumption.
  - constructor.
    + apply IH. intros x y Hx Hy. apply H12; simpl; auto.
    + apply Forall_app. split; [assumption|].
      apply Forall_forall. intros y Hy. apply H12; simpl; auto.
Qed.

Lemma eachLine_sorted (R : Diagnostic -> Diagnostic -> Prop)
    (f : nat -> string -> list Diagnostic) :
  (forall i l, Forall (fun d => startLine d = i) (f i l)) ->
  (forall i l, StronglySorted R (f i l)) ->
  (forall x y, startLine x < startLine y -> R x y) ->
  forall lines i,
    StronglySorted R (eachLine f i lines)
    /\ Forall (fun d => i <= startLine d) (eachLine f i lines).
Proof.
  intros Hline Hsorted Hlt lines.
  induction lines as [|l rest IH]; intros i; simpl.
  - split; constructor.
  - destruct (IH (S i)) as (IHs & IHl). split.
    + apply StronglySorted_app; [apply Hsorted | exact IHs |].
      intros x y Hx Hy. apply Hlt.
      pose proof (Hline i l) as Hi. rewrite Forall_forall in Hi, IHl.
      rewrite (Hi _ Hx). specialize (IHl _ Hy). lia.
    + apply Forall_app. split.
      * eapply Forall_impl; [|apply Hline]. simpl. intros d ->. lia.
      * eapply Forall_impl; [|exact IHl]. simpl. intros; lia.
Qed.

(** The findings that a loop over the matches of line [i] pushes, at most
    one per match and each on the range of its match. *)
Lemma matches_sorted (i : nat) (g : Match -> list Diagnostic) (ms : list Match) :
  (forall m d, In d (g m) -> range d = matchRange i m) ->
  (forall m, List.length (g m) <= 1) ->
  StronglySorted (fun m1 m2 => index m1 < index m2) ms ->
  StronglySorted before (flat_map g ms)
  /\ Forall (fun d => startLine d = i) (flat_map g ms).
Proof.
  intros Hrange Hone Hms. induction Hms as [|m rest Hrest IH Hm]; simpl.
  - split; constructor.
  - destruct IH as (IHs & IHl). split.
    + apply StronglySorted_app; [| exact IHs |].
      * specialize (Hone m). destruct (g m) as [|d [|d' tl]]; simpl in Hone; try lia;
          repeat constructor.
      * intros x y Hx Hy. right.
        apply in_flat_map in Hy. destruct Hy as (m' & Hm' & Hy).
        unfold startLine, startColumn.
        rewrite (Hrange _ _ Hx), (Hrange _ _ Hy). simpl.
        rewrite Forall_forall in Hm. split; [reflexivity | now apply Hm].
    + apply Forall_app. split; [|exact IHl].
      apply Forall_forall. intros d Hd. unfold startLine.
      now rewrite (Hrange _ _ Hd).
Qed.

Lemma matchesOf_sorted (r : regex) (s : string) :
  advancing r -> StronglySorted (fun m1 m2 => index m1 < index m2) (matchesOf r s).
Proof.
  intros Hadv. unfold matchesOf, execAll.
  destruct (execLoop (S (String.length s)) r s 0) as [ms|] eqn:E; [|constructor].
  now destruct (execLoop_ordered Hadv _ _ _ E).
Qed.

Lemma templateDiagnostics_code (w : Workspace) (document : TextDocument)
    (workspaceRoot : string) (i : nat) (m : Match) (d : Diagnostic) :
  In d (templateDiagnostics w document workspaceRoot i m) ->
  d = notFoundAt i m
  /\ resolveTemplatePath w document (capture 1 (groups m)) workspaceRoot = None.
Proof.
  unfold templateDiagnostics, resolveTemplatePath. rewrite truthy_firstTemplate.
  destruct (firstTemplate w _); simpl; [contradiction|].
  intros [<-|[]]. split; reflexivity.
Qed.

Lemma slotDiagnostics_code (document : TextDocument) (availableSlots : list string)
    (i : nat) (m : Match) (d : Diagnostic) :
  In d (slotDiagnostics document availableSlots i m) ->
  range d = matchRange i m /\ code d = "undefined-slot" /\ severity d = Warning.
Proof.
  unfold slotDiagnostics. destruct (JS.includes availableSlots _); simpl; [contradiction|].
  intros [<-|[]]. simpl. auto.
Qed.

Lemma includeDiagnostics_length (w : Workspace) (document : TextDocument) (i : nat)
    (m : Match) (r : ResolvedInclude) :
  List.length (includeDiagnostics w document i m r) <= 1.
Proof.
  unfold includeDiagnostics.
  destruct (exists_ r); simpl; [destruct (circular r); simpl; lia | lia].
Qed.

Lemma includeLine_sorted (w : Workspace) (document : TextDocument) (workspaceRoot : string)
    (i : nat) (l : string) :
  StronglySorted before (includeLine w document workspaceRoot i l)
  /\ Forall (fun d => startLine d = i) (includeLine w document workspaceRoot i l).
Proof.
  apply matches_sorted.
  - intros m d Hd. now apply includeDiagnostics_code in Hd.
  - intros m. apply includeDiagnostics_length.
  - apply matchesOf_sorted, includeRegex_advancing.
Qed.

Lemma templateLine_sorted (w : Workspace) (document : TextDocument) (workspaceRoot : string)
    (i : nat) (l : string) :
  StronglySorted before (templateLine w document workspaceRoot i l)
  /\ Forall (fun d => startLine d = i) (templateLine w document workspaceRoot i l).
Proof.
  apply matches_sorted.
  - intros m d Hd. apply templateDiagnostics_code in Hd. now destruct Hd as (-> & _).
  - intros m. unfold templateDiagnostics. destruct (truthy _); simpl; lia.
  - apply matchesOf_sorted, templateRegex_advancing.
Qed.

Lemma slotLine_sorted (document : TextDocument) (availableSlots : list string)
    (i : nat) (l : string) :
  StronglySorted before (slotLine document availableSlots i l)
  /\ Forall (fun d => startLine d = i) (slotLine document availableSlots i l).
Proof.
  apply matches_sorted.
  - intros m d Hd. now apply slotDiagnostics_code in Hd.
  - intros m. unfold slotDiagnostics. destruct (JS.includes _ _); simpl; lia.
  - apply matchesOf_sorted, slotRegex_advancing.
Qed.

Lemma before_of_line (x y : Diagnostic) : startLine x < startLine y -> before x y.
Proof. intros H; left; exact H. Qed.

Lemma syntaxCheck_line (r : regex) (i : nat) (l msg : string) (sev : DiagnosticSeverity)
    (c : string) :
  Forall (fun d => startLine d = i /\ code d = c) (syntaxCheck r i l msg sev c).
Proof.
  unfold syntaxCheck. destruct (exec r l 0); repeat constructor.
Qed.

Lemma syntaxLine_line (i : nat) (l : string) :
  Forall (fun d => startLine d = i /\ In (code d) syntaxCodes) (syntaxLine i l).
Proof.
  unfold syntaxLine. repeat (apply Forall_app; split);
    (eapply Forall_impl; [|apply syntaxCheck_line]);
    simpl; intros d (-> & ->); split; auto.
Qed.

Lemma syntaxLine_sorted (i : nat) (l : string) :
  StronglySorted syntaxBefore (syntaxLine i l).
Proof.
  unfold syntaxLine, syntaxCheck.
  destruct (exec malformedInclude l 0), (exec openTemplate l 0),
    (exec includeWithInvalidChars l 0); simpl;
    repeat constructor; right; split; try reflexivity; simpl; lia.
Qed.

(** C7 (as the code has it). The report is the concatenation of the four
    stages in the order include, template, slot, syntax. Inside each of the
    first three stages the findings are in strictly increasing source
    position (line, then column); inside the syntax stage they are in
    increasing line order and, on one line, in the order of the checks:
    malformed include, unclosed template, invalid path characters. *)
Theorem findings_grouped_by_stage :
  forall (n : nat) (w : Workspace) (document : TextDocument),
    exists includeIssues templateIssues slotIssues,
      analyzeIncludes (S (S n)) w document (documentLines document) = Some includeIssues
      /\ analyzeTemplates w document (documentLines document) = Some templateIssues
      /\ analyzeSlots w document (documentLines document) = Some slotIssues
      /\ analyzeDocument (S (S n)) w document
         = Some (includeIssues ++ templateIssues ++ slotIssues
                   ++ analyzeSyntax document (documentLines document))
      /\ StronglySorted before includeIssues
      /\ StronglySorted before templateIssues
      /\ StronglySorted before slotIssues
      /\ StronglySorted syntaxBefore (analyzeSyntax document (documentLines document)).
Proof.
  intros n w document.
  exists (includeStage w document (documentLines document)),
         (templateStage w document (documentLines document)),
         (slotStage w document (documentLines document)).
  split; [apply analyzeIncludes_closed|].
  split; [apply analyzeTemplates_closed|].
  split; [apply analyzeSlots_closed|].
  split; [apply analyzeDocument_closed|].
  split; [|split; [|split]].
  - unfold includeStage. destruct (workspaceRootOf w document); [|constructor].
    apply eachLine_sorted; try (intros; apply includeLine_sorted).
    apply before_of_line.
  - unfold templateStage. destruct (workspaceRootOf w document); [|constructor].
    apply eachLine_sorted; try (intros; apply templateLine_sorted).
    apply before_of_line.
  - unfold slotStage. destruct (truthy _); [|constructor].
    destruct (readFileSync w _); [|constructor].
    apply eachLine_sorted; try (intros; apply slotLine_sorted).
    apply before_of_line.
  - unfold analyzeSyntax. apply eachLine_sorted.
    + intros i l. eapply Forall_impl; [|apply syntaxLine_line]. simpl. tauto.
    + intros i l. apply syntaxLine_sorted.
    + intros x y Hlt. left. exact Hlt.
Qed.

(** C7, refuted as stated: a missing include on the second line is listed
    before a missing template on the first. *)
Lemma findings_not_in_position_order :
  option_map (map (fun d => (startLine d, code d)))
    (analyzeDocument 2 unresolvedPage (openDocument unresolvedPage "/ws/src/page.html"))
  = Some [ (1, "include-not-found"); (0, "template-not-found") ].
Proof. vm_compute. reflexivity. Qed.

(** ** The kinds of finding *)

Lemma templateStage_In (w : Workspace) (document : TextDocument) (lines : list string)
    (d : Diagnostic) :
  In d (templateStage w document lines) ->
  exists workspaceRoot i l m,
    workspaceRootOf w document = Some workspaceRoot
    /\ nth_error lines i = Some l /\ In m (matchesOf templateRegex l)
    /\ d = notFoundAt i m
    /\ resolveTemplatePath w document (capture 1 (groups m)) workspaceRoot = None.
Proof.
  unfold templateStage. destruct (workspaceRootOf w document) as [workspaceRoot|];
    [|contradiction].
  intros Hin. apply eachLine_In in Hin. destruct Hin as (j & l & _ & Hn & Hin).
  rewrite Nat.sub_0_r in Hn. unfold templateLine in Hin.
  apply in_flat_map in Hin. destruct Hin as (m & Hm & Hd).
  apply templateDiagnostics_code in Hd. destruct Hd as (Hd & Hnone).
  exists workspaceRoot, j, l, m. auto.
Qed.

Lemma slotStage_codes (w : Workspace) (document : TextDocument) (lines : list string) :
  Forall (fun d => code d = "undefined-slot") (slotStage w document lines).
Proof.
  unfold slotStage. destruct (truthy _); [|constructor].
  destruct (readFileSync w _); [|constructor].
  apply Forall_forall. intros d Hin.
  apply eachLine_In in Hin. destruct Hin as (j & l & _ & _ & Hin).
  unfold slotLine in Hin. apply in_flat_map in Hin. destruct Hin as (m & _ & Hd).
  now apply slotDiagnostics_code in Hd.
Qed.

Lemma analyzeSyntax_codes (document : TextDocument) (lines : list string) :
  Forall (fun d => In (code d) syntaxCodes) (analyzeSyntax document lines).
Proof.
  apply Forall_forall. intros d Hin. unfold analyzeSyntax in Hin.
  apply eachLine_In in Hin. destruct Hin as (j & l & _ & _ & Hin).
  pose proof (syntaxLine_line j l) as H. rewrite Forall_forall in H.
  now apply H in Hin.
Qed.


Lemma filter_none {A : Type} (f : A -> bool) (l : list A) :
  Forall (fun x => f x = false) l -> filter f l = [].
Proof.
  induction 1 as [|x rest Hx Hrest IH]; simpl; [reflexivity|]. now rewrite Hx.
Qed.








(** Names that differ in case only are different names. *)
Example slot_names_case_sensitive :
  map code
    (slotDiagnostics (openDocument layoutSite "/ws/src/index.html") ["title"; "content"] 0
       (mkMatch 0 "" [(1, "Content")]))
  = ["undefined-slot"].
Proof. reflexivity. Qed.

(** ** Every directive of a line is checked *)

Lemma eachLine_intro {A : Type} (body : nat -> string -> list A) :
  forall (lines : list string) (i j : nat) (l : string) (x : A),
    nth_error lines j = Some l -> In x (body (i + j) l) -> In x (eachLine body i lines).
Proof.
  induction lines as [|l0 rest IH]; intros i j l x Hl Hx.
  - destruct j; discriminate.
  - cbn [eachLine]. apply in_or_app. destruct j as [|j]; cbn [nth_error] in Hl.
    + injection Hl as ->. left. now rewrite Nat.add_0_r in Hx.
    + right. apply (IH (S i) j l); [assumption|].
      replace (S i + j) with (i + S j) by lia. exact Hx.
Qed.

Lemma sorted_index_unique (ms : list Match) (m m' : Match) :
  StronglySorted (fun m1 m2 => index m1 < index m2) ms ->
  In m ms -> In m' ms -> index m = index m' -> m = m'.
Proof.
  induction 1 as [|m0 rest Hs IH Hall]; simpl; [contradiction|].
  rewrite Forall_forall in Hall.
  intros [<-|H1] [<-|H2] E; auto.
  - apply Hall in H2. lia.
  - apply Hall in H1. lia.
Qed.

(** Two directives found by the same scanner that have the same range are
    the same directive of the same line. *)
Lemma scanned_once (r : regex) (lines : list string) (i i' : nat) (l l' : string)
    (m m' : Match) :
  advancing r ->
  nth_error lines i = Some l -> In m (matchesOf r l) ->
  nth_error lines i' = Some l' -> In m' (matchesOf r l') ->
  matchRange i m = matchRange i' m' -> i = i' /\ m = m'.
Proof.
  intros Hadv Hl Hm Hl' Hm' E. unfold matchRange in E.
  injection E as Hi Hidx _ _. subst i'.
  rewrite Hl in Hl'. injection Hl' as <-.
  split; [reflexivity|].
  eapply sorted_index_unique; eauto using matchesOf_sorted.
Qed.





(** ** Running the analysis twice *)

Lemma filter_filter_same {A : Type} (f : A -> bool) (l : list A) :
  filter f (filter f l) = filter f l.
Proof.
  induction l as [|a l IH]; simpl; [reflexivity|].
  destruct (f a) eqn:E; simpl; [rewrite E, IH; reflexivity | exact IH].
Qed.

Lemma collectionGet_set (c : list (string * list Diagnostic)) (u : string)
    (ds : list Diagnostic) :
  collectionGet (collectionSet c u ds) u = Some ds.
Proof. unfold collectionSet. simpl. now rewrite String.eqb_refl. Qed.

Lemma collectionSet_twice (c : list (string * list Diagnostic)) (u : string)
    (ds : list Diagnostic) :
  collectionSet (collectionSet c u ds) u ds = collectionSet c u ds.
Proof.
  unfold collectionSet. simpl. rewrite String.eqb_refl. simpl.
  now rewrite filter_filter_same.
Qed.

Lemma updateDiagnostics_closed (n : nat) (st : World) (document : TextDocument) :
  updateDiagnostics (S (S n)) st document = Some (updated st document).
Proof. unfold updateDiagnostics. now rewrite analyzeDocument_closed. Qed.

(** C9. Analysing the same document twice over an unchanged workspace gives
    the same list of findings, in the same order, whatever nesting the cycle
    check is allowed in either run: the first run leaves the workspace as it
    was, the second run computes the report of the first, and the diagnostic
    collection is the same after the second update as after the first. *)
Theorem analysis_idempotent :
  forall (n k : nat) (st : World) (document : TextDocument),
    exists st1 st2 ds,
      updateDiagnostics (S (S n)) st document = Some st1
      /\ updateDiagnostics (S (S k)) st1 document = Some st2
      /\ workspace st1 = workspace st
      /\ workspace st2 = workspace st
      /\ analyzeDocument (S (S n)) (workspace st) document = Some ds
      /\ analyzeDocument (S (S k)) (workspace st1) document = Some ds
      /\ collectionGet (diagnostics st1) (uri document) = Some ds
      /\ diagnostics st2 = diagnostics st1.
Proof.
  intros n k st document.
  exists (updated st document), (updated (updated st document) document),
         (report (workspace st) document).
  split; [apply updateDiagnostics_closed|].
  split; [apply updateDiagnostics_closed|].
  split; [reflexivity|]. split; [reflexivity|].
  split; [apply analyzeDocument_closed|].
  split; [apply analyzeDocument_closed|].
  split; [apply collectionGet_set | apply collectionSet_twice].
Qed.

(** ** Single-quoted include directives *)

(** C10. A single-quoted directive with two spaces after [#include] is not
    ignored: the syntax stage reports it as a malformed include, on the
    thirteen characters up to and including the first space, because the
    [\s+] before the lookahead gives one space back and the lookahead then
    sees a space instead of [virtual=]. *)
Theorem single_quoted_two_spaces_reported :
  forall (n : nat) (w : Workspace) (u f : string),
    analyzeDocument (S (S n)) w (mkTextDocument u f singleQuotedTwoSpaces)
    = Some [ mkDiagnostic (mkRange (mkPosition 0 0) (mkPosition 0 13))
               malformedMessage Error "malformed-include" "Unify" [] ].
Proof.
  intros n w u f. rewrite analyzeDocument_closed.
  unfold report, includeStage, templateStage, slotStage, findExtendedTemplate.
  replace (matchFirst templateRegex (getText (mkTextDocument u f singleQuotedTwoSpaces)))
    with (@None Match) by (vm_compute; reflexivity).
  cbn [truthy].
  destruct (workspaceRootOf w (mkTextDocument u f singleQuotedTwoSpaces));
    vm_compute; reflexivity.
Qed.

(** With a single space, as in the usual spelling, the directive yields
    nothing. *)
Lemma single_quoted_one_space_ignored :
  forall (n : nat) (w : Workspace) (u f : string),
    analyzeDocument (S (S n)) w (mkTextDocument u f "<!--#include virtual='x.html' -->")
    = Some [].
Proof.
  intros n w u f. rewrite analyzeDocument_closed.
  unfold report, includeStage, templateStage, slotStage, findExtendedTemplate.
  replace (matchFirst templateRegex
             (getText (mkTextDocument u f "<!--#include virtual='x.html' -->")))
    with (@None Match) by (vm_compute; reflexivity).
  cbn [truthy].
  destruct (workspaceRootOf w (mkTextDocument u f "<!--#include virtual='x.html' -->"));
    vm_compute; reflexivity.
Qed.

(** ** The matcher against the reading of the expressions *)

Lemma append_assoc (a b c : string) : (a +++ b) +++ c = a +++ b +++ c.
Proof. induction a as [|x a IH]; simpl; [reflexivity | now rewrite IH]. Qed.

Lemma append_empty_r (a : string) : a +++ "" = a.
Proof. induction a as [|x a IH]; simpl; [reflexivity | now rewrite IH]. Qed.

Lemma length_app (a b : string) :
  String.length (a +++ b) = String.length a + String.length b.
Proof. induction a as [|x a IH]; simpl; [reflexivity | now rewrite IH]. Qed.

Lemma take_app_exact (a b : string) : JS.take (String.length a) (a +++ b) = a.
Proof. induction a as [|x a IH]; simpl; [now destruct b | now rewrite IH]. Qed.

Lemma drop_app_exact (a b : string) : JS.drop (String.length a) (a +++ b) = b.
Proof. induction a as [|x a IH]; simpl; [reflexivity | exact IH]. Qed.

Lemma take_drop (n : nat) (s : string) : JS.take n s +++ JS.drop n s = s.
Proof.
  revert s; induction n as [|n IH]; intros s; simpl.
  - reflexivity.
  - destruct s as [|a s]; simpl; [reflexivity | now rewrite IH].
Qed.

Lemma take_consumed (x rest : string) :
  JS.take (String.length (x +++ rest) - String.length rest) (x +++ rest) = x.
Proof.
  rewrite length_app. replace (String.length x + String.length rest - String.length rest)
    with (String.length x) by lia.
  apply take_app_exact.
Qed.

Lemma matchLit_app (l s s' : string) : matchLit l s = Some s' -> s = l +++ s'.
Proof.
  revert s; induction l as [|a l IH]; intros s H; simpl in *.
  - now inversion H.
  - destruct s as [|b s]; [discriminate|].
    destruct (Ascii.eqb_spec a b) as [->|_]; [|discriminate].
    now rewrite (IH _ H).
Qed.

Lemma star_sound (c : cclass) (s : string) (k : string -> option (string * captures))
    (res : string * captures) :
  star c s k = Some res ->
  exists x s', s = x +++ s' /\ allIn c x /\ k s' = Some res.
Proof.
  induction s as [|a s IH]; simpl; intros H.
  - exists EmptyString, EmptyString. simpl. auto.
  - destruct (cmatch c a) eqn:Ec.
    + destruct (star c s k) as [r|] eqn:E.
      * inversion H; subst r.
        destruct (IH eq_refl) as (x & s' & -> & Hall & Hk).
        exists (String a x), s'. simpl. auto.
      * exists EmptyString, (String a s). simpl. auto.
    + exists EmptyString, (String a s). simpl. auto.
Qed.

(** Whatever the matcher accepts, the expression can consume. *)
Lemma rmatch_sound (r : regex) :
  forall (s : string) (cs : captures) (k : cont) (res : string * captures),
    rmatch r s cs k = Some res ->
    exists x s' cs', s = x +++ s' /\ sem r x cs cs' /\ k s' cs' = Some res.
Proof.
  induction r as [l|c|c|c|r1 IH1 r2 IH2|r1 IH1 r2 IH2|n r1 IH1|r1 IH1];
    intros s cs k res H; simpl in H.
  - destruct (matchLit l s) as [s'|] eqn:E; [|discriminate].
    apply matchLit_app in E. exists l, s', cs. simpl. auto.
  - destruct s as [|a s]; [discriminate|].
    destruct (cmatch c a) eqn:Ec; [|discriminate].
    exists (String a EmptyString), s, cs. simpl. eauto 6.
  - destruct (star_sound _ _ _ H) as (x & s' & -> & Hall & Hk).
    exists x, s', cs. simpl. auto.
  - destruct s as [|a s]; [discriminate|].
    destruct (cmatch c a) eqn:Ec; [|discriminate].
    destruct (star_sound _ _ _ H) as (x & s' & -> & Hall & Hk).
    exists (String a x), s', cs. simpl. repeat split; auto. discriminate.
  - destruct (rmatch r1 s cs k) as [y|] eqn:E.
    + inversion H; subst y.
      destruct (IH1 _ _ _ _ E) as (x & s' & cs' & -> & Hs & Hk).
      exists x, s', cs'. simpl. auto.
    + destruct (IH2 _ _ _ _ H) as (x & s' & cs' & -> & Hs & Hk).
      exists x, s', cs'. simpl. auto.
  - destruct (IH1 _ _ _ _ H) as (x1 & s1 & cs1 & -> & Hs1 & H1).
    destruct (IH2 _ _ _ _ H1) as (x2 & s2 & cs2 & -> & Hs2 & H2).
    exists (x1 +++ x2), s2, cs2. rewrite append_assoc. simpl.
    split; [reflexivity|]. split; [|assumption].
    exists x1, x2, cs1. auto.
  - destruct (IH1 _ _ _ _ H) as (x & s' & cm & -> & Hs & Hk).
    rewrite take_consumed in Hk.
    exists x, s', ((n, x) :: cm). simpl. split; [reflexivity|].
    split; [|assumption]. exists cm. auto.
  - destruct (rmatch r1 s cs accept); [discriminate|].
    exists EmptyString, s, cs. simpl. auto.
Qed.

Lemma matchHere_sound (r : regex) (s : string) (i : nat) (m : Match) :
  matchHere r s i = Some m ->
  index m = i /\ exists rest, s = matched m +++ rest /\ sem r (matched m) [] (groups m).
Proof.
  unfold matchHere. destruct (rmatch r s [] accept) as [[rest cs]|] eqn:E; [|discriminate].
  intros H; inversion H; subst m; clear H. simpl.
  destruct (rmatch_sound _ _ _ _ E) as (x & s' & cs' & -> & Hs & Hk).
  inversion Hk; subst s' cs'. rewrite take_consumed.
  split; [reflexivity|]. exists rest. auto.
Qed.

(** The match [exec] returns is the text of the subject between [index] and
    the end of the match, and the expression can consume it. *)
Lemma exec_sound (r : regex) (s : string) (lastIndex : nat) (m : Match) :
  exec r s lastIndex = Some m ->
  exists pre rest,
    s = pre +++ matched m +++ rest /\ String.length pre = index m
    /\ sem r (matched m) [] (groups m).
Proof.
  unfold exec. destruct (Nat.ltb_spec (String.length s) lastIndex) as [Hlt|Hle];
    [discriminate|].
  intros H. destruct (search_spec _ _ _ H) as (j & Hj & Hidx & Hm & _).
  destruct (matchHere_sound _ _ _ Hm) as (_ & rest & Hs & Hsem).
  rewrite length_drop in Hj.
  exists (JS.take (index m) s), rest.
  rewrite <- Hs. rewrite Hidx at 2.
  assert (Hd : JS.drop j (JS.drop lastIndex s) = JS.drop (index m) s).
  { rewrite Hidx. clear. revert s. induction lastIndex as [|n IH]; intros s; simpl.
    - reflexivity.
    - destruct s as [|a s]; simpl; [now destruct j | apply IH]. }
  rewrite Hd, <- Hidx, take_drop.
  split; [reflexivity|]. split; [|assumption].
  rewrite length_take. lia.
Qed.

Lemma execLoop_In (r : regex) (s : string) :
  forall (fuel lastIndex : nat) (ms : list Match) (m : Match),
    execLoop fuel r s lastIndex = Some ms -> In m ms ->
    exists li, exec r s li = Some m.
Proof.
  induction fuel as [|fuel IH]; intros lastIndex ms m H Hin; simpl in H; [discriminate|].
  destruct (exec r s lastIndex) as [m0|] eqn:E.
  - destruct (execLoop fuel r s (matchEnd m0)) as [ms'|] eqn:E'; [|discriminate].
    simpl in H. inversion H; subst ms; clear H.
    destruct Hin as [<-|Hin]; [eauto|].
    eapply IH; eauto.
  - inversion H; subst. contradiction.
Qed.

Lemma matchesOf_sound (r : regex) (s : string) (m : Match) :
  In m (matchesOf r s) ->
  exists pre rest,
    s = pre +++ matched m +++ rest /\ String.length pre = index m
    /\ sem r (matched m) [] (groups m).
Proof.
  unfold matchesOf, execAll.
  destruct (execLoop (S (String.length s)) r s 0) as [ms|] eqn:E; [|contradiction].
  intros Hin. destruct (@execLoop_In r s _ _ _ _ E Hin) as (li & Hli).
  eapply exec_sound; eauto.
Qed.

(** ** The shape of what the scanners find *)

Lemma includeRegex_shape (x : string) (cs : captures) :
  sem includeRegex x [] cs ->
  exists ws type p ws',
    x = "<!--#include" +++ ws +++ type +++ "=" +++ JS.quoted p +++ ws' +++ "-->"
    /\ cs = [(2, p); (1, type)]
    /\ ws <> "" /\ blank ws /\ (type = "virtual" \/ type = "file")
    /\ p <> "" /\ quoteFree p /\ blank ws'.
Proof.
  unfold includeRegex. cbn [sem].
  intros (x1 & r1 & c1 & -> & (-> & ->) & x2 & r2 & c2 & -> & (Hne & Hws & ->)
          & x3 & r3 & c3 & -> & (c3' & Htype & ->)
          & x4 & r4 & c4 & -> & (-> & ->)
          & x5 & r5 & c5 & -> & (c5' & (Hp & Hq & ->) & ->)
          & x6 & r6 & c6 & -> & (-> & ->)
          & x7 & x8 & c7 & -> & (Hws' & ->) & (-> & ->)).
  exists x2, x3, x5, x7.
  assert (Hc : c3' = [] /\ (x3 = "virtual" \/ x3 = "file"))
    by (destruct Htype as [(-> & ->)|(-> & ->)]; auto).
  destruct Hc as (-> & Hty).
  unfold JS.quoted. rewrite !append_assoc. simpl.
  repeat split; auto.
Qed.

(** X1. Every directive the include scanner finds on a line is, in the line
    at the reported index, the text [<!--#include], some white space, the
    attribute name [virtual] or [file], [=], a non-empty path between double
    quotes that itself holds no double quote, optional white space and
    [-->]; the two groups are that attribute name and that path. *)
Theorem include_directive_shape :
  forall (l : string) (ms : list Match) (m : Match),
    execAll includeRegex l = Some ms -> In m ms ->
    exists pre ws type p ws' rest,
      l = pre +++ matched m +++ rest
      /\ String.length pre = index m
      /\ matched m
         = "<!--#include" +++ ws +++ type +++ "=" +++ JS.quoted p +++ ws' +++ "-->"
      /\ capture 1 (groups m) = type /\ capture 2 (groups m) = p
      /\ (type = "virtual" \/ type = "file")
      /\ p <> "" /\ quoteFree p
      /\ ws <> "" /\ blank ws /\ blank ws'.
Proof.
  intros l ms m Hrun Hin.
  assert (Hm : In m (matchesOf includeRegex l)) by (unfold matchesOf; now rewrite Hrun).
  destruct (matchesOf_sound _ _ _ Hm) as (pre & rest & Hl & Hpre & Hsem).
  destruct (includeRegex_shape Hsem)
    as (ws & type & p & ws' & Hx & Hcs & Hne & Hws & Hty & Hp & Hq & Hws').
  exists pre, ws, type, p, ws', rest. rewrite Hcs. simpl.
  repeat split; auto.
Qed.

Lemma include_directive_shape_witness :
  exists pre ws type p ws' rest,
    includeSample = pre +++ ("<!--#include" +++ ws +++ type +++ "=" +++ JS.quoted p
                               +++ ws' +++ "-->") +++ rest
    /\ String.length pre = 4 /\ (type = "virtual" \/ type = "file") /\ quoteFree p.
Proof.
  destruct (@include_directive_shape includeSample
              [mkMatch 4 (includeDirective "virtual" "includes/nav.html")
                 [(2, "includes/nav.html"); (1, "virtual")]]
              (mkMatch 4 (includeDirective "virtual" "includes/nav.html")
                 [(2, "includes/nav.html"); (1, "virtual")]))
    as (pre & ws & type & p & ws' & rest & Hl & Hpre & Hx & _ & _ & Hty & _ & Hq & _).
  - vm_compute. reflexivity.
  - simpl. auto.
  - exists pre, ws, type, p, ws', rest. rewrite <- Hx. simpl in Hpre. auto.
Defined.

Lemma tagRegex_shape (opening attribute x : string) (cs : captures) :
  sem (tagRegex opening attribute) x [] cs ->
  exists before q1 name q2 after,
    x = opening +++ before +++ attribute
          +++ String q1 (name +++ String q2 (after +++ ">"))
    /\ cs = [(1, name)]
    /\ before <> "" /\ allIn (CNoneOf ">") before
    /\ isQuote q1 /\ isQuote q2
    /\ name <> "" /\ quotesFree name
    /\ allIn (CNoneOf ">") after.
Proof.
  unfold tagRegex. cbn [sem].
  intros (x1 & r1 & c1 & -> & (-> & ->) & x2 & r2 & c2 & -> & (Hne & Hb & ->)
          & x3 & r3 & c3 & -> & (-> & ->)
          & x4 & r4 & c4 & -> & ((q1 & -> & Hq1) & ->)
          & x5 & r5 & c5 & -> & (c5' & (Hn & Hnq & ->) & ->)
          & x6 & r6 & c6 & -> & ((q2 & -> & Hq2) & ->)
          & x7 & x8 & c7 & -> & (Ha & ->) & (-> & ->)).
  exists x2, q1, x5, q2, x7. simpl. rewrite ?append_assoc. simpl.
  repeat split; auto.
Qed.

Lemma slotDeclRegex_tag : slotDeclRegex = tagRegex "<slot" "name=".
Proof. reflexivity. Qed.

Lemma templateRegex_tag : templateRegex = tagRegex "<template" "extends=".
Proof. reflexivity. Qed.

Lemma slotRegex_tag : slotRegex = tagRegex "<template" "slot=".
Proof. reflexivity. Qed.

(** ** Sets of names *)

Lemma dedupe_In (xs : list string) :
  forall (seen : list string) (x : string),
    In x (JS.dedupe seen xs) <-> In x xs /\ ~ In x seen.
Proof.
  induction xs as [|y rest IH]; intros seen x; simpl.
  - tauto.
  - destruct (JS.includes seen y) eqn:E.
    + apply includes_In in E. rewrite IH. split.
      * tauto.
      * intros ([<-|H] & Hn); [contradiction | tauto].
    + assert (Hy : ~ In y seen)
        by (intros H; apply includes_In in H; congruence).
      simpl. rewrite IH, in_app_iff. simpl. split.
      * intros [<-|(H & Hn)]; [auto | tauto].
      * intros ([<-|H] & Hn); [auto|].
        destruct (String.eqb_spec y x) as [->|Hneq]; [auto|].
        right. split; [assumption|]. intros [H'|[H'|[]]]; auto.
Qed.

Lemma dedupe_NoDup (xs : list string) :
  forall seen : list string, NoDup (JS.dedupe seen xs).
Proof.
  induction xs as [|y rest IH]; intros seen; simpl.
  - constructor.
  - destruct (JS.includes seen y); [apply IH|].
    constructor; [|apply IH].
    rewrite dedupe_In, in_app_iff. simpl. tauto.
Qed.

(** A list without repeats comes back as it is. *)
Lemma dedupe_NoDup_id (xs : list string) :
  forall seen : list string,
    NoDup xs -> (forall x, In x xs -> ~ In x seen) -> JS.dedupe seen xs = xs.
Proof.
  induction xs as [|y rest IH]; intros seen Hnd Hdisj; simpl.
  - reflexivity.
  - inversion Hnd as [|? ? Hy Hrest]; subst.
    destruct (JS.includes seen y) eqn:E.
    + apply includes_In in E. exfalso. apply (Hdisj y); simpl; auto.
    + f_equal. apply IH; [assumption|].
      intros x Hx Hin. apply in_app_iff in Hin. destruct Hin as [Hin|[<-|[]]].
      * apply (Hdisj x); simpl; auto.
      * contradiction.
Qed.

(** X2. [extractSlots] always returns, and what it returns is a list of
    names without repeats that holds exactly the names of the slot tags of
    the content: each listed name is written in the content, non-empty and
    free of quotes, between two quote characters after [<slot ... name=],
    and the name of every slot tag the scanner finds is listed. *)
Theorem extractSlots_names :
  forall content : string,
    exists names,
      extractSlots content = Some names
      /\ NoDup names
      /\ (forall n, In n names ->
            n <> "" /\ quotesFree n
            /\ exists pre before q1 q2 after rest,
                 content = pre +++ ("<slot" +++ before +++ "name="
                                      +++ String q1 (n +++ String q2 (after +++ ">")))
                             +++ rest
                 /\ allIn (CNoneOf ">") before /\ isQuote q1 /\ isQuote q2)
      /\ (forall ms m, execAll slotDeclRegex content = Some ms -> In m ms ->
            In (capture 1 (groups m)) names).
Proof.
  intros content. exists (declaredSlots content).
  split; [apply extractSlots_closed|]. split; [apply dedupe_NoDup|]. split.
  - intros n Hin. unfold declaredSlots in Hin. apply dedupe_In in Hin.
    destruct Hin as (Hin & _). apply in_map_iff in Hin.
    destruct Hin as (m & <- & Hm).
    apply matchesOf_sound in Hm. destruct Hm as (pre & rest & Hc & _ & Hsem).
    rewrite slotDeclRegex_tag in Hsem. apply tagRegex_shape in Hsem.
    destruct Hsem as (before & q1 & name & q2 & after & Hx & -> & _ & Hb & Hq1 & Hq2
                      & Hn & Hnq & _).
    cbn [groups capture Nat.eqb]. split; [assumption|]. split; [assumption|].
    exists pre, before, q1, q2, after, rest.
    split; [rewrite Hc, Hx; reflexivity | auto].
  - intros ms m Hrun Hin. unfold declaredSlots. apply dedupe_In.
    split; [|auto]. apply in_map_iff. exists m. split; [reflexivity|].
    unfold matchesOf. now rewrite Hrun.
Qed.

Lemma extractSlots_names_witness :
  extractSlots layoutSample = Some ["title"; "content"]
  /\ NoDup ["title"; "content"] /\ quotesFree "content".
Proof.
  destruct (extractSlots_names layoutSample) as (names & Hrun & Hnd & Hsound & _).
  assert (Hnames : names = ["title"; "content"])
    by (vm_compute in Hrun; inversion Hrun; reflexivity).
  subst names. split; [vm_compute; reflexivity|]. split; [exact Hnd|].
  apply (Hsound "content"). simpl. auto.
Defined.

(** ** Where the findings point *)

Lemma exec_literal_start (o : string) (r : regex) (l : string) (lastIndex : nat)
    (m : Match) :
  o <> "" ->
  exec (Seq (Lit o) r) l lastIndex = Some m ->
  index m < matchEnd m /\ matchEnd m <= String.length l
  /\ exists tail, JS.drop (index m) l = o +++ tail.
Proof.
  intros Ho H.
  assert (Hadv : advancing (Seq (Lit o) r))
    by (destruct o as [|a o]; [contradiction | apply lit_seq_advancing]).
  destruct (exec_bounds _ _ _ H) as (_ & Hend & Hlt). specialize (Hlt Hadv).
  split; [assumption|]. split; [assumption|].
  apply exec_sound in H. destruct H as (pre & rest & Hl & Hpre & Hsem).
  cbn [sem] in Hsem. destruct Hsem as (x1 & x2 & cm & Hx & (-> & _) & _).
  exists (x2 +++ rest). rewrite Hl, Hx, <- Hpre, drop_app_exact.
  now rewrite append_assoc.
Qed.

Lemma matchesOf_exec (r : regex) (l : string) (m : Match) :
  In m (matchesOf r l) -> exists lastIndex, exec r l lastIndex = Some m.
Proof.
  unfold matchesOf, execAll.
  destruct (execLoop (S (String.length l)) r l 0) as [ms|] eqn:E; [|contradiction].
  intros Hin. exact (@execLoop_In r l _ _ _ _ E Hin).
Qed.

Lemma slotStage_In (w : Workspace) (document : TextDocument) (lines : list string)
    (d : Diagnostic) :
  In d (slotStage w document lines) ->
  exists availableSlots i l m,
    nth_error lines i = Some l /\ In m (matchesOf slotRegex l)
    /\ In d (slotDiagnostics document availableSlots i m).
Proof.
  unfold slotStage. destruct (truthy _); [|contradiction].
  destruct (readFileSync w _) as [templateContent|]; [|contradiction].
  intros Hin. apply eachLine_In in Hin. destruct Hin as (j & l & _ & Hn & Hin).
  rewrite Nat.sub_0_r in Hn. unfold slotLine in Hin.
  apply in_flat_map in Hin. destruct Hin as (m & Hm & Hd).
  exists (declaredSlots templateContent), j, l, m. auto.
Qed.

Lemma syntaxCheck_In (r : regex) (i : nat) (l msg : string) (sev : DiagnosticSeverity)
    (c : string) (d : Diagnostic) :
  In d (syntaxCheck r i l msg sev c) ->
  exists m, exec r l 0 = Some m /\ range d = matchRange i m.
Proof.
  unfold syntaxCheck. destruct (exec r l 0) as [m|]; [|contradiction].
  intros [<-|[]]. exists m. auto.
Qed.

Lemma range_of_match (o : string) (r : regex) (i : nat) (l : string) (lastIndex : nat)
    (m : Match) (d : Diagnostic) :
  exec (Seq (Lit o) r) l lastIndex = Some m ->
  o = "<!--#include" \/ o = "<template" ->
  range d = matchRange i m ->
  exists l',
    l' = l /\ startLine d = i /\ endLine d = i
    /\ startColumn d < endColumn d
    /\ endColumn d <= String.length l
    /\ startsDirective (JS.drop (startColumn d) l).
Proof.
  intros H Ho Hr. unfold startLine, startColumn, endLine, endColumn. rewrite Hr. simpl.
  apply exec_literal_start in H; [|destruct Ho as [-> | ->]; discriminate].
  destruct H as (Hlt & Hle & tail & Htail).
  exists l. repeat split; try assumption.
  exists tail. rewrite Htail. destruct Ho as [-> | ->]; auto.
Qed.

(** X3. Every finding of a report lies on one line of the document, between
    two columns of that line, the first strictly before the second, and
    starts where the line reads [<!--#include] or [<template]. *)
Theorem findings_point_into_the_document :
  forall (n : nat) (w : Workspace) (document : TextDocument),
    exists ds,
      analyzeDocument (S (S n)) w document = Some ds
      /\ forall d, In d ds ->
           exists l,
             nth_error (documentLines document) (startLine d) = Some l
             /\ endLine d = startLine d
             /\ startColumn d < endColumn d
             /\ endColumn d <= String.length l
             /\ startsDirective (JS.drop (startColumn d) l).
Proof.
  intros n w document. exists (report w document).
  split; [apply analyzeDocument_closed|].
  assert (Hfin : forall d i l l',
             nth_error (documentLines document) i = Some l ->
             l' = l /\ startLine d = i /\ endLine d = i
             /\ startColumn d < endColumn d
             /\ endColumn d <= String.length l
             /\ startsDirective (JS.drop (startColumn d) l) ->
             exists l,
               nth_error (documentLines document) (startLine d) = Some l
               /\ endLine d = startLine d
               /\ startColumn d < endColumn d
               /\ endColumn d <= String.length l
               /\ startsDirective (JS.drop (startColumn d) l)).
  { intros d i l l' Hl (_ & Hi & He & Hlt & Hle & Hs). exists l.
    rewrite Hi, He. auto. }
  intros d Hin. unfold report in Hin.
  repeat (apply in_app_or in Hin; destruct Hin as [Hin|Hin]).
  - apply includeStage_In in Hin.
    destruct Hin as (workspaceRoot & i & l & m & _ & Hl & Hm & Hd).
    apply includeDiagnostics_code in Hd. destruct Hd as (Hr & _).
    apply matchesOf_exec in Hm. destruct Hm as (li & Hm).
    unfold includeRegex in Hm.
    eapply range_of_match in Hm; [|left; reflexivity | exact Hr].
    destruct Hm as (l' & Hm). eapply Hfin; eauto.
  - apply templateStage_In in Hin.
    destruct Hin as (workspaceRoot & i & l & m & _ & Hl & Hm & -> & _).
    apply matchesOf_exec in Hm. destruct Hm as (li & Hm).
    unfold templateRegex in Hm.
    eapply range_of_match with (d := notFoundAt i m) (i := i) in Hm;
      [|right; reflexivity | reflexivity].
    destruct Hm as (l' & Hm). eapply Hfin; eauto.
  - apply slotStage_In in Hin.
    destruct Hin as (availableSlots & i & l & m & Hl & Hm & Hd).
    apply slotDiagnostics_code in Hd. destruct Hd as (Hr & _).
    apply matchesOf_exec in Hm. destruct Hm as (li & Hm).
    unfold slotRegex in Hm.
    eapply range_of_match in Hm; [|right; reflexivity | exact Hr].
    destruct Hm as (l' & Hm). eapply Hfin; eauto.
  - unfold analyzeSyntax in Hin. apply eachLine_In in Hin.
    destruct Hin as (i & l & _ & Hl & Hin). rewrite Nat.sub_0_r in Hl.
    unfold syntaxLine in Hin.
    repeat (apply in_app_or in Hin; destruct Hin as [Hin|Hin]);
      apply syntaxCheck_In in Hin; destruct Hin as (m & Hm & Hr).
    + unfold malformedInclude in Hm.
      eapply range_of_match in Hm; [|left; reflexivity | exact Hr].
      destruct Hm as (l' & Hm). eapply Hfin; eauto.
    + unfold openTemplate in Hm.
      eapply range_of_match in Hm; [|right; reflexivity | exact Hr].
      destruct Hm as (l' & Hm). eapply Hfin; eauto.
    + unfold includeWithInvalidChars in Hm.
      eapply range_of_match in Hm; [|left; reflexivity | exact Hr].
      destruct Hm as (l' & Hm). eapply Hfin; eauto.
Qed.

Lemma findings_point_into_the_document_witness :
  exists d l,
    analyzeDocument 2 mixedPage (openDocument mixedPage "/ws/src/page.html")
    = Some [d; notFoundAt 2 (mkMatch 3 "<template extends='nowhere'>" [(1, "nowhere")]);
            mkDiagnostic (mkRange (mkPosition 2 3) (mkPosition 2 31))
              "Template tag may not be properly closed" Information
              "unclosed-template" "Unify" []]
    /\ nth_error (documentLines (openDocument mixedPage "/ws/src/page.html")) 1 = Some l
    /\ startColumn d = 2 /\ endColumn d <= String.length l.
Proof.
  destruct (findings_point_into_the_document 0 mixedPage
              (openDocument mixedPage "/ws/src/page.html")) as (ds & Hrun & Hall).
  vm_compute in Hrun. inversion Hrun as [Hds]. clear Hrun.
  match type of Hds with (?d0 :: _) = _ =>
    destruct (Hall d0) as (l & Hl & _ & _ & Hle & _);
      [rewrite <- Hds; simpl; auto | exists d0, l] end.
  split; [reflexivity|]. split; [exact Hl|]. split; [reflexivity | exact Hle].
Defined.

(** ** When a cycle is reported *)

Lemma find_some_iff {A : Type} (f : A -> bool) (l : list A) :
  (exists x, find f l = Some x) <-> exists x, In x l /\ f x = true.
Proof.
  split.
  - intros (x & H). apply find_some in H. eauto.
  - intros (x & Hin & Hf). destruct (find f l) as [y|] eqn:E; [eauto|].
    apply (find_none _ _ E) in Hin. congruence.
Qed.

(** X4. The cycle flag of a resolved include is raised exactly when a
    candidate exists and either it is the document itself or it can be read
    and one of its own include directives names, as written, a path that
    exists. *)
Theorem circular_exactly_when :
  forall (n : nat) (w : Workspace) (document : TextDocument)
         (type includePath workspaceRoot : string),
    exists r,
      resolveIncludePath (S (S n)) w document type includePath workspaceRoot = Some r
      /\ (circular r = true <->
          exists_ r = true
          /\ (fileName document = expectedPath r
              \/ exists content ms m,
                   readFileSync w (expectedPath r) = Some content
                   /\ execAll includeRegex content = Some ms
                   /\ In m ms
                   /\ existsSync w (nextPathOf w (expectedPath r) m) = true)).
Proof.
  intros n w document type includePath workspaceRoot.
  eexists. split; [apply resolveIncludePath_closed|].
  cbv zeta. cbn [circular exists_ expectedPath].
  set (p := probe w (includeTarget w document type includePath workspaceRoot)).
  destruct (fst p); [|split; [discriminate | intros (H & _); discriminate]].
  unfold circularOutcome. cbn [JS.setHas JS.includes existsb].
  destruct (String.eqb_spec (fileName document) (snd p)) as [E|E].
  - simpl. split; auto.
  - destruct (readFileSync w (snd p)) as [content|] eqn:Hread.
    + pose proof (execAll_matchesOf content includeRegex_advancing) as Hrun.
      pose proof (find_some_iff (fun m => existsSync w (nextPathOf w (snd p) m))
                    (matchesOf includeRegex content)) as Hfind.
      fold (firstExistingInclude w (snd p) (matchesOf includeRegex content)) in Hfind.
      destruct (firstExistingInclude w (snd p) (matchesOf includeRegex content))
        as [m|] eqn:Ef; simpl.
      * split; [|reflexivity]. intros _. split; [reflexivity|]. right.
        destruct Hfind as (Hfind & _). destruct Hfind as (m' & Hin & Hex); [eauto|].
        exists content, (matchesOf includeRegex content), m'. auto.
      * split; [discriminate|]. intros (_ & [Hself|(c & ms & m & Hc & Hms & Hin & Hex)]);
          [contradiction|].
        inversion Hc; subst c. rewrite Hrun in Hms. inversion Hms; subst ms.
        destruct Hfind as (_ & Hfind). destruct Hfind as (x & Hx); [eauto | discriminate].
    + simpl. split; [discriminate|].
      intros (_ & [Hself|(c & ms & m & Hc & _)]); [contradiction | discriminate].
Qed.

Lemma circular_exactly_when_witness :
  exists r,
    resolveIncludePath 2 selfInclude (openDocument selfInclude "/ws/src/loop.html")
      "file" "loop.html" "/ws" = Some r
    /\ circular r = true.
Proof.
  destruct (circular_exactly_when 0 selfInclude
              (openDocument selfInclude "/ws/src/loop.html") "file" "loop.html" "/ws")
    as (r & Hr & Hiff).
  exists r. split; [exact Hr|]. apply Hiff.
  vm_compute in Hr. inversion Hr. split; [reflexivity | left; reflexivity].
Defined.

(** ** Documents that hold nothing to analyse *)

Lemma matchLit_first (a : ascii) (o s : string) :
  inString a s = false -> matchLit (String a o) s = None.
Proof.
  destruct s as [|b s]; simpl; [reflexivity|].
  rewrite Ascii.eqb_sym. destruct (Ascii.eqb b a); simpl; [discriminate | reflexivity].
Qed.

Lemma inString_tail (a b : ascii) (s : string) :
  inString a (String b s) = false -> inString a s = false.
Proof. simpl. now destruct (Ascii.eqb a b). Qed.

Lemma search_none (a : ascii) (o : string) (r : regex) (s : string) :
  forall i, inString a s = false -> search (Seq (Lit (String a o)) r) s i = None.
Proof.
  induction s as [|b s IH]; intros i H.
  - reflexivity.
  - cbn [search]. unfold matchHere. cbn [rmatch].
    rewrite (@matchLit_first a o _ H).
    apply IH. now apply inString_tail in H.
Qed.

Lemma inString_drop (a : ascii) (n : nat) (s : string) :
  inString a s = false -> inString a (JS.drop n s) = false.
Proof.
  revert s; induction n as [|n IH]; intros s H; simpl; [assumption|].
  destruct s as [|b s]; [reflexivity|]. apply IH. now apply inString_tail in H.
Qed.

Lemma exec_none (a : ascii) (o : string) (r : regex) (s : string) (lastIndex : nat) :
  inString a s = false -> exec (Seq (Lit (String a o)) r) s lastIndex = None.
Proof.
  intros H. unfold exec. destruct (String.length s <? lastIndex)%nat; [reflexivity|].
  apply search_none. now apply inString_drop.
Qed.

Lemma matchesOf_none (a : ascii) (o : string) (r : regex) (s : string) :
  inString a s = false -> matchesOf (Seq (Lit (String a o)) r) s = [].
Proof.
  intros H. unfold matchesOf, execAll. rewrite execLoop_S.
  now rewrite (@exec_none a o r s 0 H).
Qed.

Lemma splitOn_without (a sep : ascii) (s : string) :
  inString a s = false -> Forall (fun l => inString a l = false) (JS.splitOn sep s).
Proof.
  induction s as [|b s IH]; intros H; simpl.
  - repeat constructor.
  - simpl in H. destruct (Ascii.eqb a b) eqn:E; [discriminate|]. simpl in H.
    specialize (IH H). destruct (Ascii.eqb b sep).
    + constructor; [reflexivity | assumption].
    + destruct (JS.splitOn sep s) as [|p ps]; [repeat constructor; simpl; now rewrite E|].
      inversion IH; subst. constructor; [simpl; now rewrite E | assumption].
Qed.

Lemma eachLine_nil {A : Type} (f : nat -> string -> list A) (lines : list string) :
  forall i, Forall (fun l => forall j, f j l = []) lines -> eachLine f i lines = [].
Proof.
  induction lines as [|l rest IH]; intros i H; simpl; [reflexivity|].
  inversion H; subst. now rewrite H2, IH.
Qed.

(** X5. A document whose text holds no [<] gets an empty report, whatever
    the workspace. *)
Theorem no_angle_bracket_no_findings :
  forall (n : nat) (w : Workspace) (document : TextDocument),
    inString "<"%char (getText document) = false ->
    analyzeDocument (S (S n)) w document = Some [].
Proof.
  intros n w document H. rewrite analyzeDocument_closed.
  pose proof (@splitOn_without _ "010"%char _ H) as Hlines.
  fold (documentLines document) in Hlines.
  unfold report, includeStage, templateStage, slotStage, findExtendedTemplate,
    analyzeSyntax, matchFirst.
  replace (exec templateRegex (getText document) 0) with (@None Match)
    by (symmetry; unfold templateRegex; apply exec_none; exact H).
  cbn [truthy].
  assert (Hinc : forall root, eachLine (includeLine w document root) 0
                                (documentLines document) = []).
  { intros root. apply eachLine_nil. eapply Forall_impl; [|exact Hlines].
    intros l Hl j. unfold includeLine, includeRegex. now rewrite matchesOf_none. }
  assert (Htpl : forall root, eachLine (templateLine w document root) 0
                                (documentLines document) = []).
  { intros root. apply eachLine_nil. eapply Forall_impl; [|exact Hlines].
    intros l Hl j. unfold templateLine, templateRegex. now rewrite matchesOf_none. }
  assert (Hsyn : eachLine syntaxLine 0 (documentLines document) = []).
  { apply eachLine_nil. eapply Forall_impl; [|exact Hlines].
    intros l Hl j. unfold syntaxLine, syntaxCheck, malformedInclude, openTemplate,
      includeWithInvalidChars.
    now rewrite !(@exec_none _ _ _ _ 0 Hl). }
  rewrite Hsyn. destruct (workspaceRootOf w document); [rewrite Hinc, Htpl|]; reflexivity.
Qed.

Lemma no_angle_bracket_no_findings_witness :
  analyzeDocument 2 diamond
    (mkTextDocument "file:///ws/src/notes.html" "/ws/src/notes.html"
       ("plain text" +++ JS.nl +++ "include virtual=x.html --> & more"))
  = Some [].
Proof. apply no_angle_bracket_no_findings. vm_compute. reflexivity. Defined.

(** X6. A document that belongs to no workspace folder is only checked for
    syntax: its report is the list of the syntax stage, and neither a missing
    include nor a missing template is reported for it. *)
Theorem outside_workspace_only_syntax :
  forall (n : nat) (w : Workspace) (document : TextDocument),
    truthy (getWorkspaceFolder w (uri document)) = None ->
    analyzeDocument (S (S n)) w document
    = Some (analyzeSyntax document (documentLines document)).
Proof.
  intros n w document H. rewrite analyzeDocument_closed.
  unfold report, includeStage, templateStage, slotStage, findExtendedTemplate,
    workspaceRootOf.
  rewrite H. now destruct (matchFirst templateRegex (getText document)).
Qed.

Lemma outside_workspace_only_syntax_witness :
  analyzeDocument 2 looseFiles (openDocument looseFiles "/tmp/note.html") = Some [].
Proof.
  rewrite outside_workspace_only_syntax; [|reflexivity].
  vm_compute. reflexivity.
Defined.

(** ** What a missing include suggests *)

Lemma normalize_nonempty (p : string) : path.normalize p <> "".
Proof.
  unfold path.normalize. destruct (p =? ""); [discriminate|].
  destruct (String.eqb_spec (path.normalizeString p
                               (negb (path.isSlash (String.get 0 p)))) "") as [E|E].
  - destruct (path.isSlash (String.get 0 p)); [discriminate|].
    destruct (path.isSlash (path.lastChar p)); discriminate.
  - destruct (path.isSlash (String.get 0 p)); [discriminate|].
    destruct (path.isSlash (path.lastChar p)); [|assumption].
    intros H. apply E. destruct (path.normalizeString p _); [reflexivity | discriminate].
Qed.

Lemma join_nonempty (args : list string) : path.join args <> "".
Proof.
  unfold path.join. destruct (filter _ args); [discriminate | apply normalize_nonempty].
Qed.

Lemma resolve_nonempty (c : string) (args : list string) : path.resolve c args <> "".
Proof.
  unfold path.resolve. destruct (path.resolveLoop _ _) as [resolvedPath resolvedAbsolute].
  destruct resolvedAbsolute; [discriminate|].
  destruct (String.eqb_spec (path.normalizeString resolvedPath (negb false)) "");
    [discriminate | assumption].
Qed.

Lemma includeTarget_nonempty (w : Workspace) (document : TextDocument)
    (type includePath workspaceRoot : string) :
  includeTarget w document type includePath workspaceRoot <> "".
Proof.
  unfold includeTarget. destruct (type =? "virtual");
    [apply join_nonempty | apply resolve_nonempty].
Qed.

(** ** When an include directive is called malformed *)

Lemma matchLit_prefix (l t : string) : matchLit l (l +++ t) = Some t.
Proof.
  induction l as [|a l IH]; simpl; [reflexivity|]. now rewrite Ascii.eqb_refl.
Qed.

Lemma matchLit_none (l s : string) :
  matchLit l s = None <-> forall tail, s <> l +++ tail.
Proof.
  split.
  - intros H tail ->. rewrite matchLit_prefix in H. discriminate.
  - intros H. destruct (matchLit l s) as [t|] eqn:E; [|reflexivity].
    apply matchLit_app in E. exfalso. exact (H t E).
Qed.

Lemma star_complete (c : cclass) (x s' : string)
    (k : string -> option (string * captures)) :
  allIn c x -> k s' <> None -> star c (x +++ s') k <> None.
Proof.
  induction x as [|a x IH]; simpl; intros Hall Hk.
  - destruct s' as [|b s']; simpl; [assumption|].
    destruct (cmatch c b); [|assumption].
    destruct (star c s' k); [discriminate | assumption].
  - destruct Hall as (Ha & Hall). rewrite Ha.
    specialize (IH Hall Hk). destruct (star c (x +++ s') k); [discriminate | contradiction].
Qed.

Lemma search_complete (r : regex) (pre : string) :
  forall (tail : string) (i : nat),
    matchHere r tail (i + String.length pre) <> None ->
    search r (pre +++ tail) i <> None.
Proof.
  induction pre as [|a pre IH]; intros tail i H; simpl in *.
  - rewrite Nat.add_0_r in H.
    destruct tail; simpl; destruct (matchHere r _ i); try discriminate; contradiction.
  - destruct (matchHere r (String a (pre +++ tail)) i); [discriminate|].
    apply IH. now replace (S i + String.length pre) with (i + S (String.length pre)) by lia.
Qed.

Lemma matchHere_index_irrelevant (r : regex) (s : string) (i j : nat) :
  matchHere r s i <> None -> matchHere r s j <> None.
Proof. unfold matchHere. now destruct (rmatch r s [] accept) as [[rest cs]|]. Qed.

Lemma exec_complete (r : regex) (pre tail : string) :
  matchHere r tail 0 <> None -> exec r (pre +++ tail) 0 <> None.
Proof.
  intros H. unfold exec. simpl. apply search_complete.
  eapply matchHere_index_irrelevant; eauto.
Qed.

(** The lookahead of the malformed check, as a condition on what follows. *)
Lemma malformed_here (s : string) :
  matchHere malformedInclude s 0 <> None <->
  exists ws rest,
    s = "<!--#include" +++ ws +++ rest /\ ws <> "" /\ blank ws
    /\ (forall tail, rest <> "virtual=" +++ tail)
    /\ (forall tail, rest <> "file=" +++ tail).
Proof.
  unfold matchHere, malformedInclude. cbn [rmatch]. split.
  - destruct (matchLit "<!--#include" s) as [s1|] eqn:E1; [|intros H; contradiction].
    apply matchLit_app in E1. subst s.
    destruct s1 as [|a s2]; [intros H; contradiction|].
    destruct (cmatch CSpace a) eqn:Ea; [|intros H; contradiction].
    destruct (star CSpace s2 _) as [res|] eqn:Es; [|intros H; contradiction].
    intros _. apply star_sound in Es. destruct Es as (x & s3 & -> & Hall & Hk).
    exists (String a x), s3. split; [reflexivity|]. split; [discriminate|].
    split; [unfold blank; simpl; split; assumption|].
    cbv beta in Hk.
    destruct (matchLit "virtual=" s3) eqn:Ev; [discriminate|].
    destruct (matchLit "file=" s3) eqn:Ef; [discriminate|].
    split; now apply matchLit_none.
  - intros (ws & rest & -> & Hne & Hws & Hv & Hf).
    rewrite matchLit_prefix.
    destruct ws as [|a ws]; [contradiction|]. destruct Hws as (Ha & Hws).
    cbn [String.append]. cbn [cmatch] in *. rewrite Ha.
    destruct (star CSpace (ws +++ rest) _) as [[rest0 cs]|] eqn:Es; [discriminate|].
    exfalso. revert Es. apply star_complete; [assumption|].
    apply matchLit_none in Hv, Hf. rewrite Hv, Hf. discriminate.
Qed.

Lemma space_not_letter (b : ascii) :
  isSpace b = true -> Ascii.eqb "v"%char b = false /\ Ascii.eqb "f"%char b = false.
Proof.
  destruct b as [[] [] [] [] [] [] [] []]; simpl; try discriminate; auto.
Qed.

(** X8. The syntax stage calls a line's include malformed exactly when the
    line reads, somewhere, [<!--#include], then white space, then something
    that does not begin with [virtual=] or [file=]. Since the white space can
    be cut anywhere, this holds of every line in which [<!--#include] is
    followed by two white-space characters, whatever the attribute. *)
Theorem malformed_include_exactly_when :
  forall (i : nat) (l : string),
    ((exists d, In d (syntaxLine i l) /\ code d = "malformed-include") <->
     exists pre ws rest,
       l = pre +++ "<!--#include" +++ ws +++ rest /\ ws <> "" /\ blank ws
       /\ (forall tail, rest <> "virtual=" +++ tail)
       /\ (forall tail, rest <> "file=" +++ tail))
    /\ (forall pre a b rest,
          isSpace a = true -> isSpace b = true ->
          l = pre +++ "<!--#include" +++ String a (String b rest) ->
          exists d, In d (syntaxLine i l) /\ code d = "malformed-include").
Proof.
  intros i l.
  assert (Hiff : (exists d, In d (syntaxLine i l) /\ code d = "malformed-include") <->
                 exec malformedInclude l 0 <> None).
  { unfold syntaxLine, syntaxCheck. split.
    - intros (d & Hin & Hc).
      destruct (exec malformedInclude l 0); [discriminate|]. exfalso.
      simpl in Hin. apply in_app_or in Hin. destruct Hin as [Hin|Hin].
      + destruct (exec openTemplate l 0); [|contradiction].
        destruct Hin as [<-|[]]. discriminate.
      + destruct (exec includeWithInvalidChars l 0); [|contradiction].
        destruct Hin as [<-|[]]. discriminate.
    - intros H. destruct (exec malformedInclude l 0) as [m|]; [|contradiction].
      eexists. split; [left; reflexivity | reflexivity]. }
  assert (Hmain : exec malformedInclude l 0 <> None <->
                  exists pre ws rest,
                    l = pre +++ "<!--#include" +++ ws +++ rest /\ ws <> "" /\ blank ws
                    /\ (forall tail, rest <> "virtual=" +++ tail)
                    /\ (forall tail, rest <> "file=" +++ tail)).
  { split.
    - intros H. destruct (exec malformedInclude l 0) as [m|] eqn:E; [|contradiction].
      unfold exec in E. simpl in E.
      destruct (search_spec _ _ _ E) as (j & Hj & Hidx & Hm & _).
      assert (Hhere : matchHere malformedInclude (JS.drop j l) 0 <> None)
        by (eapply matchHere_index_irrelevant; rewrite Hm; discriminate).
      apply malformed_here in Hhere.
      destruct Hhere as (ws & rest & Hs & Hrest).
      exists (JS.take j l), ws, rest. rewrite <- Hs, take_drop. auto.
    - intros (pre & ws & rest & -> & Hrest).
      apply exec_complete. apply malformed_here. exists ws, rest. auto. }
  split; [now rewrite Hiff|].
  intros pre a b rest Ha Hb ->. apply Hiff, Hmain.
  exists pre, (String a EmptyString), (String b rest).
  split; [reflexivity|]. split; [discriminate|].
  split; [unfold blank; simpl; split; [assumption | exact I]|].
  destruct (@space_not_letter b Hb) as (Hv & Hf).
  split; intros tail Ht; simpl in Ht; inversion Ht; subst b; discriminate.
Qed.

Lemma malformed_include_exactly_when_witness :
  exists d,
    In d (syntaxLine 0 ("<p><!--#include path=" +++ JS.quoted "x.html" +++ " --></p>"))
    /\ code d = "malformed-include".
Proof.
  destruct (malformed_include_exactly_when 0
              ("<p><!--#include path=" +++ JS.quoted "x.html" +++ " --></p>"))
    as ((_ & H) & _).
  apply H.
  exists "<p>", " ", ("path=" +++ JS.quoted "x.html" +++ " --></p>").
  split; [reflexivity|]. split; [discriminate|].
  split; [unfold blank; simpl; split; [reflexivity | exact I]|].
  split; intros tail Ht; discriminate.
Defined.

(** ** The matcher finds what the expression can consume *)

Lemma sem_any_captures (r : regex) :
  forall (x : string) (cin cout cin' : captures),
    sem r x cin cout -> exists cout', sem r x cin' cout'.
Proof.
  induction r as [l|c|c|c|r1 IH1 r2 IH2|r1 IH1 r2 IH2|n r1 IH1|r1 IH1];
    intros x cin cout cin' H; simpl in *.
  - destruct H as (-> & _). eauto.
  - destruct H as (H & _). eauto.
  - destruct H as (H & _). eauto.
  - destruct H as (H1 & H2 & _). eauto.
  - destruct H as [H|H].
    + destruct (IH1 _ _ _ cin' H) as (c' & H'). eauto.
    + destruct (IH2 _ _ _ cin' H) as (c' & H'). eauto.
  - destruct H as (x1 & x2 & cm & -> & H1 & H2).
    destruct (IH1 _ _ _ cin' H1) as (cm' & H1').
    destruct (IH2 _ _ _ cm' H2) as (c' & H2').
    exists c', x1, x2, cm'. auto.
  - destruct H as (cm & H & _).
    destruct (IH1 _ _ _ cin' H) as (cm' & H'). eauto.
  - destruct H as (-> & _). eauto.
Qed.

(** If an expression without lookahead can consume a prefix of the input
    and the continuation accepts what follows, the matcher does not fail. *)
Lemma rmatch_complete (r : regex) :
  plain r = true ->
  forall (x s' : string) (cs cout : captures) (k : cont),
    sem r x cs cout ->
    (forall cs', k s' cs' <> None) ->
    rmatch r (x +++ s') cs k <> None.
Proof.
  induction r as [l|c|c|c|r1 IH1 r2 IH2|r1 IH1 r2 IH2|n r1 IH1|r1 IH1];
    intros Hp x s' cs cout k H Hk; simpl in *.
  - destruct H as (-> & _). rewrite matchLit_prefix. apply Hk.
  - destruct H as ((a & -> & Ha) & _). simpl. rewrite Ha. apply Hk.
  - destruct H as (Hall & _). apply star_complete; [assumption | apply Hk].
  - destruct H as (Hne & Hall & _). destruct x as [|a x]; [contradiction|].
    destruct Hall as (Ha & Hall). simpl. rewrite Ha.
    apply star_complete; [assumption | apply Hk].
  - apply andb_prop in Hp. destruct Hp as (Hp1 & Hp2).
    destruct (rmatch r1 (x +++ s') cs k) eqn:E; [discriminate|].
    destruct H as [H|H].
    + exfalso. revert E. eapply IH1; eauto.
    + eapply IH2; eauto.
  - apply andb_prop in Hp. destruct Hp as (Hp1 & Hp2).
    destruct H as (x1 & x2 & cm & -> & H1 & H2). rewrite append_assoc.
    eapply IH1; [assumption | exact H1|].
    intros cs'. destruct (sem_any_captures _ _ _ _ cs' H2) as (c' & H2').
    eapply IH2; eauto.
  - destruct H as (cm & H & _).
    eapply IH1; [assumption | exact H|]. intros cs'. apply Hk.
  - discriminate.
Qed.

Lemma matchHere_complete (r : regex) (x s' : string) (cout : captures) :
  plain r = true -> sem r x [] cout -> matchHere r (x +++ s') 0 <> None.
Proof.
  intros Hp H. unfold matchHere.
  destruct (rmatch r (x +++ s') [] accept) as [[rest cs]|] eqn:E; [discriminate|].
  exfalso. revert E. eapply rmatch_complete; eauto. discriminate.
Qed.

(** A line holds a text the expression can consume exactly when [exec]
    finds a match on it. *)
Lemma exec_finds (r : regex) (l : string) :
  plain r = true ->
  (exec r l 0 <> None <-> exists pre x rest cout, l = pre +++ x +++ rest /\ sem r x [] cout).
Proof.
  intros Hp. split.
  - intros H. destruct (exec r l 0) as [m|] eqn:E; [|contradiction].
    apply exec_sound in E. destruct E as (pre & rest & Hl & _ & Hsem). eauto 6.
  - intros (pre & x & rest & cout & -> & Hsem).
    apply exec_complete. eapply matchHere_complete; eauto.
Qed.

Lemma syntaxLine_code (i : nat) (l c : string) (r : regex) (msg : string)
    (sev : DiagnosticSeverity) :
  In (r, msg, sev, c)
     [ (malformedInclude, malformedMessage, Error, "malformed-include");
       (openTemplate, "Template tag may not be properly closed", Information,
        "unclosed-template");
       (includeWithInvalidChars, "Include path contains invalid characters", Error,
        "invalid-path-chars") ] ->
  ((exists d, In d (syntaxLine i l) /\ code d = c) <-> exec r l 0 <> None).
Proof.
  unfold syntaxLine, syntaxCheck.
  intros [E|[E|[E|[]]]]; inversion E; subst; clear E;
    destruct (exec malformedInclude l 0), (exec openTemplate l 0),
      (exec includeWithInvalidChars l 0); simpl;
    (split; [intros (d & Hin & Hc); intuition (subst; try discriminate)
            | intros H; try contradiction;
              first [ eexists; split; [left; reflexivity | reflexivity]
                    | eexists; split; [right; left; reflexivity | reflexivity]
                    | eexists; split; [right; right; left; reflexivity | reflexivity] ]]).
Qed.

Lemma invalidChars_shape (x : string) (cs : captures) :
  sem includeWithInvalidChars x [] cs <->
  exists ws type p1 bad p2,
    x = "<!--#include" +++ ws +++ type +++ "=" +++ JS.quoted (p1 +++ bad +++ p2)
    /\ cs = [(2, p1 +++ bad +++ p2); (1, type)]
    /\ ws <> "" /\ blank ws /\ (type = "virtual" \/ type = "file")
    /\ quoteFree p1 /\ bad <> "" /\ allIn (COneOf invalidChars) bad /\ quoteFree p2.
Proof.
  unfold includeWithInvalidChars. cbn [sem]. split.
  - intros (x1 & r1 & c1 & -> & (-> & ->) & x2 & r2 & c2 & -> & (Hne & Hws & ->)
            & x3 & r3 & c3 & -> & (c3' & Htype & ->)
            & x4 & r4 & c4 & -> & (-> & ->)
            & x5 & r5 & c5 & -> & (c5' & (y1 & y2 & cy & -> & (Hp1 & ->)
                                           & y3 & y4 & cz & -> & (Hb & Hbad & ->)
                                           & Hp2 & ->) & ->)
            & -> & ->).
    exists x2, x3, y1, y3, y4.
    assert (Hc : c3' = [] /\ (x3 = "virtual" \/ x3 = "file"))
      by (destruct Htype as [(-> & ->)|(-> & ->)]; auto).
    destruct Hc as (-> & Hty).
    unfold JS.quoted. rewrite ?append_assoc. simpl.
    repeat split; auto.
  - intros (ws & type & p1 & bad & p2 & -> & -> & Hne & Hws & Hty & Hp1 & Hb & Hbad & Hp2).
    exists "<!--#include", (ws +++ type +++ "=" +++ JS.quoted (p1 +++ bad +++ p2)), [].
    split; [reflexivity|]. split; [auto|].
    exists ws, (type +++ "=" +++ JS.quoted (p1 +++ bad +++ p2)), [].
    split; [reflexivity|]. split; [auto|].
    exists type, ("=" +++ JS.quoted (p1 +++ bad +++ p2)), [(1, type)].
    split; [reflexivity|]. split; [exists []; split; [destruct Hty as [-> | ->]; auto | reflexivity]|].
    exists ("=" +++ JS.dq), ((p1 +++ bad +++ p2) +++ JS.dq), [(1, type)].
    split; [reflexivity|]. split; [auto|].
    exists (p1 +++ bad +++ p2), JS.dq, [(2, p1 +++ bad +++ p2); (1, type)].
    split; [reflexivity|]. split; [|auto].
    exists [(1, type)]. split; [|reflexivity].
    exists p1, (bad +++ p2), [(1, type)]. split; [reflexivity|]. split; [auto|].
    exists bad, p2, [(1, type)]. auto.
Qed.

(** X9. The syntax stage reports invalid path characters on a line exactly
    when the line holds [<!--#include], white space, [virtual] or [file],
    [=] and a double-quoted text in which at least one of the characters
    [<], [>], [|], [*], [?] occurs. *)
Theorem invalid_path_chars_exactly_when :
  forall (i : nat) (l : string),
    (exists d, In d (syntaxLine i l) /\ code d = "invalid-path-chars") <->
    exists pre ws type p1 bad p2 rest,
      l = pre +++ ("<!--#include" +++ ws +++ type +++ "="
                     +++ JS.quoted (p1 +++ bad +++ p2)) +++ rest
      /\ ws <> "" /\ blank ws /\ (type = "virtual" \/ type = "file")
      /\ quoteFree p1 /\ bad <> "" /\ allIn (COneOf invalidChars) bad /\ quoteFree p2.
Proof.
  intros i l.
  rewrite (@syntaxLine_code i l "invalid-path-chars" includeWithInvalidChars
             "Include path contains invalid characters" Error) by (simpl; auto).
  rewrite exec_finds by reflexivity. split.
  - intros (pre & x & rest & cout & -> & Hsem). apply invalidChars_shape in Hsem.
    destruct Hsem as (ws & type & p1 & bad & p2 & -> & _ & H).
    exists pre, ws, type, p1, bad, p2, rest. auto.
  - intros (pre & ws & type & p1 & bad & p2 & rest & -> & H).
    eexists pre, _, rest, _. split; [reflexivity|].
    apply invalidChars_shape. exists ws, type, p1, bad, p2. auto.
Qed.

Lemma invalid_path_chars_exactly_when_witness :
  exists d,
    In d (syntaxLine 3 ("  " +++ includeDirective "file" "parts/*.html"))
    /\ code d = "invalid-path-chars".
Proof.
  apply invalid_path_chars_exactly_when.
  exists "  ", " ", "file", "parts/", "*", ".html", " -->".
  split; [reflexivity|]. split; [discriminate|].
  split; [unfold blank; simpl; auto|]. split; [auto|].
  split; [unfold quoteFree; simpl; repeat split|].
  split; [discriminate|].
  split; [simpl; auto|].
  unfold quoteFree; simpl; repeat split.
Defined.

(** ** When a template tag is called unclosed *)

Lemma closing_lookahead (rest : string) :
  rmatch (Seq (Star CAny) (Lit "</template>")) rest [] accept <> None <-> closedLater rest.
Proof.
  split.
  - intros H.
    destruct (rmatch (Seq (Star CAny) (Lit "</template>")) rest [] accept)
      as [res|] eqn:E; [|contradiction].
    apply rmatch_sound in E. destruct E as (x & b & cs' & -> & Hsem & _).
    cbn [sem] in Hsem. destruct Hsem as (a & x2 & cm & -> & (Ha & _) & (-> & _)).
    exists a, b. rewrite append_assoc. auto.
  - intros (a & b & -> & Ha).
    replace (a +++ "</template>" +++ b) with ((a +++ "</template>") +++ b)
      by apply append_assoc.
    eapply rmatch_complete with (cout := []); [reflexivity | | discriminate].
    cbn [sem]. exists a, "</template>", []. auto.
Qed.

Lemma openTemplate_here (s : string) :
  matchHere openTemplate s 0 <> None <->
  exists attrs rest,
    s = "<template" +++ attrs +++ ">" +++ rest
    /\ allIn (CNoneOf ">") attrs /\ ~ closedLater rest.
Proof.
  unfold matchHere, openTemplate. cbn [rmatch]. split.
  - destruct (matchLit "<template" s) as [s1|] eqn:E1; [|intros H; contradiction].
    apply matchLit_app in E1. subst s.
    destruct (star (CNoneOf ">") s1 _) as [res|] eqn:Es; [|intros H; contradiction].
    intros _. apply star_sound in Es. destruct Es as (x & s2 & -> & Hall & Hk).
    cbv beta in Hk.
    destruct (matchLit ">" s2) as [s3|] eqn:E2; [|discriminate].
    apply matchLit_app in E2. subst s2.
    exists x, s3. split; [reflexivity|]. split; [assumption|].
    intros Hc. apply closing_lookahead in Hc.
    match type of Hk with
    | match ?t with _ => _ end = _ => destruct t eqn:Et; [discriminate|]
    end.
    apply Hc. exact Et.
  - intros (attrs & rest & -> & Hall & Hnc).
    rewrite matchLit_prefix.
    destruct (star (CNoneOf ">") (attrs +++ ">" +++ rest) _) as [[rest0 cs]|] eqn:Es;
      [discriminate|].
    exfalso. revert Es. apply star_complete; [assumption|].
    rewrite matchLit_prefix.
    match goal with
    | |- match ?t with _ => _ end <> None => destruct t eqn:Et; [|discriminate]
    end.
    exfalso. apply Hnc, closing_lookahead.
    change (rmatch (Seq (Star CAny) (Lit "</template>")) rest [] accept) with
      (star CAny rest
         (fun s' => match matchLit "</template>" s' with
                    | Some s'' => accept s'' []
                    | None => None
                    end)).
    rewrite Et. discriminate.
Qed.

(** X10. The syntax stage reports a possibly unclosed template on a line
    exactly when the line holds an opening tag [<template ...>] after which,
    up to the end of the line or the next carriage return, no [</template>]
    is written; a block whose closing tag stands on a later line is
    therefore reported. *)
Theorem unclosed_template_exactly_when :
  forall (i : nat) (l : string),
    (exists d, In d (syntaxLine i l) /\ code d = "unclosed-template") <->
    exists pre attrs rest,
      l = pre +++ "<template" +++ attrs +++ ">" +++ rest
      /\ allIn (CNoneOf ">") attrs /\ ~ closedLater rest.
Proof.
  intros i l.
  rewrite (@syntaxLine_code i l "unclosed-template" openTemplate
             "Template tag may not be properly closed" Information) by (simpl; auto).
  split.
  - intros H. destruct (exec openTemplate l 0) as [m|] eqn:E; [|contradiction].
    unfold exec in E. simpl in E.
    destruct (search_spec _ _ _ E) as (j & Hj & Hidx & Hm & _).
    assert (Hhere : matchHere openTemplate (JS.drop j l) 0 <> None)
      by (eapply matchHere_index_irrelevant; rewrite Hm; discriminate).
    apply openTemplate_here in Hhere. destruct Hhere as (attrs & rest & Hs & Hrest).
    exists (JS.take j l), attrs, rest. rewrite <- Hs, take_drop. auto.
  - intros (pre & attrs & rest & -> & Hrest).
    apply exec_complete. apply openTemplate_here. exists attrs, rest. auto.
Qed.

Lemma no_closing_without_bracket (rest : string) :
  inString "<"%char rest = false -> ~ closedLater rest.
Proof.
  intros H (a & b & -> & _). induction a as [|c a IH].
  - simpl in H. discriminate.
  - cbn [String.append inString] in H. apply orb_false_elim in H.
    destruct H as (_ & H). auto.
Qed.

Lemma unclosed_template_exactly_when_witness :
  exists d,
    In d (syntaxLine 7 ("<template slot=" +++ JS.quoted "content" +++ ">"))
    /\ code d = "unclosed-template".
Proof.
  apply unclosed_template_exactly_when.
  exists "", (" slot=" +++ JS.quoted "content"), "".
  split; [reflexivity|]. split; [simpl; repeat split|].
  apply no_closing_without_bracket. reflexivity.
Defined.

(** ** The include under the cursor *)

Lemma inString_app (c : ascii) (x y : string) :
  inString c (x +++ y) = inString c x || inString c y.
Proof.
  induction x as [|a x IH]; simpl; [reflexivity|]. now rewrite IH, orb_assoc.
Qed.

Lemma indexOfChar_skip (c : ascii) (x y : string) :
  inString c x = false -> Navigation.indexOfChar c (x +++ String c y) = Some (String.length x).
Proof.
  induction x as [|a x IH]; simpl; intros H.
  - now rewrite Ascii.eqb_refl.
  - apply orb_false_elim in H. destruct H as (Ha & Hx).
    rewrite Ascii.eqb_sym, Ha, (IH Hx). reflexivity.
Qed.

Lemma indexOf_at (c : ascii) (pre s : string) :
  Navigation.indexOf c (String.length pre) (pre +++ s)
  = option_map (Nat.add (String.length pre)) (Navigation.indexOfChar c s).
Proof. unfold Navigation.indexOf. now rewrite drop_app_exact. Qed.

Lemma get_at (x y : string) (c : ascii) :
  String.get (String.length x) (x +++ String c y) = Some c.
Proof. induction x as [|a x IH]; simpl; [reflexivity | exact IH]. Qed.

Lemma space_not_quote (a : ascii) :
  isSpace a = true -> Ascii.eqb Navigation.dqChar a = false.
Proof.
  destruct a as [[] [] [] [] [] [] [] []]; simpl; try discriminate; reflexivity.
Qed.

Lemma blank_no_quote (ws : string) : blank ws -> inString Navigation.dqChar ws = false.
Proof.
  induction ws as [|a ws IH]; [reflexivity|].
  unfold blank. cbn [allIn inString cmatch].
  intros (Ha & Hws). rewrite (@space_not_quote a Ha). apply IH, Hws.
Qed.

Lemma quoteFree_no_quote (p : string) :
  quoteFree p -> inString Navigation.dqChar p = false.
Proof.
  induction p as [|a p IH]; [reflexivity|].
  unfold quoteFree, JS.dq. cbn [allIn inString cmatch].
  intros (Ha & Hp). rewrite orb_false_r in Ha. apply negb_true_iff in Ha.
  rewrite Ascii.eqb_sym. unfold Navigation.dqChar. rewrite Ha. apply IH, Hp.
Qed.

(** Where the quotes of a directive stand in its line. *)
Lemma include_quotes (l : string) (m : Match) :
  In m (matchesOf includeRegex l) ->
  exists pathStart,
    0 < pathStart
    /\ Navigation.indexOf Navigation.dqChar (index m) l = Some (pathStart - 1)
    /\ Navigation.indexOf Navigation.dqChar pathStart l
       = Some (pathStart + String.length (capture 2 (groups m)))
    /\ JS.slice pathStart (pathStart + String.length (capture 2 (groups m))) l
       = capture 2 (groups m)
    /\ String.get (pathStart - 1) l = Some Navigation.dqChar
    /\ String.get (pathStart + String.length (capture 2 (groups m))) l
       = Some Navigation.dqChar
    /\ (capture 1 (groups m) = "virtual" \/ capture 1 (groups m) = "file")
    /\ capture 2 (groups m) <> "" /\ quoteFree (capture 2 (groups m))
    /\ index m < pathStart
    /\ pathStart + String.length (capture 2 (groups m)) < matchEnd m.
Proof.
  intros Hin. apply matchesOf_sound in Hin. destruct Hin as (pre & rest & Hl & Hpre & Hsem).
  apply includeRegex_shape in Hsem.
  destruct Hsem as (ws & type & p & ws' & Hx & Hcs & Hne & Hws & Hty & Hp & Hq & Hws').
  rewrite Hcs. cbn [capture Nat.eqb].
  set (head := "<!--#include" +++ ws +++ type +++ "=").
  assert (Hline : l = (pre +++ head) +++ String Navigation.dqChar
                        (p +++ String Navigation.dqChar (ws' +++ "-->" +++ rest))).
  { rewrite Hl, Hx. unfold head, JS.quoted, JS.dq. rewrite ?append_assoc. simpl.
    rewrite ?append_assoc. reflexivity. }
  assert (Hhead : inString Navigation.dqChar head = false).
  { unfold head. rewrite !inString_app, (@blank_no_quote ws Hws).
    destruct Hty as [-> | ->]; reflexivity. }
  exists (String.length (pre +++ head) + 1).
  replace (String.length (pre +++ head) + 1 - 1) with (String.length (pre +++ head)) by lia.
  split; [lia|]. split; [|split; [|split; [|split; [|split]]]].
  - rewrite Hline at 1. rewrite append_assoc, <- Hpre, indexOf_at.
    rewrite (@indexOfChar_skip Navigation.dqChar head _ Hhead). cbn [option_map].
    now rewrite length_app.
  - replace (String.length (pre +++ head) + 1)
      with (String.length ((pre +++ head) +++ String Navigation.dqChar "")) at 1
      by (rewrite length_app; simpl; lia).
    rewrite Hline at 1.
    replace ((pre +++ head) +++ String Navigation.dqChar
               (p +++ String Navigation.dqChar (ws' +++ "-->" +++ rest)))
      with (((pre +++ head) +++ String Navigation.dqChar "")
              +++ p +++ String Navigation.dqChar (ws' +++ "-->" +++ rest))
      by (rewrite ?append_assoc; reflexivity).
    rewrite indexOf_at, (@indexOfChar_skip Navigation.dqChar p _ (@quoteFree_no_quote p Hq)).
    cbn [option_map]. f_equal. rewrite length_app. cbn [String.length]. lia.
  - unfold JS.slice.
    replace (String.length (pre +++ head) + 1 + String.length p
             - (String.length (pre +++ head) + 1)) with (String.length p) by lia.
    replace (String.length (pre +++ head) + 1)
      with (String.length ((pre +++ head) +++ String Navigation.dqChar ""))
      by (rewrite length_app; simpl; lia).
    rewrite Hline.
    replace ((pre +++ head) +++ String Navigation.dqChar
               (p +++ String Navigation.dqChar (ws' +++ "-->" +++ rest)))
      with (((pre +++ head) +++ String Navigation.dqChar "")
              +++ p +++ String Navigation.dqChar (ws' +++ "-->" +++ rest))
      by (rewrite ?append_assoc; reflexivity).
    rewrite drop_app_exact. apply take_app_exact.
  - rewrite Hline. apply get_at.
  - replace (String.length (pre +++ head) + 1 + String.length p)
      with (String.length (((pre +++ head) +++ String Navigation.dqChar "") +++ p))
      by (rewrite !length_app; simpl; lia).
    rewrite Hline.
    replace ((pre +++ head) +++ String Navigation.dqChar
               (p +++ String Navigation.dqChar (ws' +++ "-->" +++ rest)))
      with ((((pre +++ head) +++ String Navigation.dqChar "") +++ p)
              +++ String Navigation.dqChar (ws' +++ "-->" +++ rest))
      by (rewrite ?append_assoc; reflexivity).
    apply get_at.
  - split; [assumption|]. split; [assumption|]. split; [assumption|].
    unfold matchEnd. rewrite Hx, <- Hpre. unfold JS.quoted, JS.dq.
    fold head. rewrite !length_app. unfold head. rewrite !length_app.
    cbn [String.length]. lia.
Qed.

(** X11. [findIncludeAtPosition] always returns. When it returns a
    directive, the cursor stands between the two double quotes of an include
    directive of the line, ends included; the returned range goes from the
    character after the opening quote to the closing quote, on line 0
    whatever the line of the cursor; and the returned path is the text of
    the line over that range, with type [virtual] or [file]. *)
Theorem include_at_position_is_the_path :
  forall (lineText : string) (character : nat),
    exists result,
      Navigation.findIncludeAtPosition lineText character = Some result
      /\ forall info, result = Some info ->
           exists pathStart pathEnd,
             Navigation.infoRange info
             = mkRange (mkPosition 0 pathStart) (mkPosition 0 pathEnd)
             /\ 0 < pathStart /\ pathStart <= character /\ character <= pathEnd
             /\ String.get (pathStart - 1) lineText = Some Navigation.dqChar
             /\ String.get pathEnd lineText = Some Navigation.dqChar
             /\ JS.slice pathStart pathEnd lineText = Navigation.infoPath info
             /\ Navigation.infoPath info <> ""
             /\ quoteFree (Navigation.infoPath info)
             /\ (Navigation.infoType info = "virtual"
                 \/ Navigation.infoType info = "file").
Proof.
  intros lineText character.
  exists (Navigation.includeAtLoop lineText character (matchesOf includeRegex lineText)).
  split.
  { unfold Navigation.findIncludeAtPosition.
    now rewrite (execAll_matchesOf lineText includeRegex_advancing). }
  assert (Hall : forall m, In m (matchesOf includeRegex lineText) ->
                           In m (matchesOf includeRegex lineText)) by auto.
  revert Hall. generalize (matchesOf includeRegex lineText) at 1 3.
  intros ms; induction ms as [|m rest IH]; intros Hall info Hres; simpl in Hres.
  - discriminate.
  - assert (IH' : Navigation.includeAtLoop lineText character rest = Some info ->
                  exists pathStart pathEnd,
                    Navigation.infoRange info
                    = mkRange (mkPosition 0 pathStart) (mkPosition 0 pathEnd)
                    /\ 0 < pathStart /\ pathStart <= character /\ character <= pathEnd
                    /\ String.get (pathStart - 1) lineText = Some Navigation.dqChar
                    /\ String.get pathEnd lineText = Some Navigation.dqChar
                    /\ JS.slice pathStart pathEnd lineText = Navigation.infoPath info
                    /\ Navigation.infoPath info <> ""
                    /\ quoteFree (Navigation.infoPath info)
                    /\ (Navigation.infoType info = "virtual"
                        \/ Navigation.infoType info = "file"))
      by (intros H; apply IH; [intros m' Hm'; apply Hall; simpl; auto | exact H]).
    destruct ((index m <=? character)%nat
              && (character <=? index m + String.length (matched m))%nat);
      [|auto].
    destruct (@include_quotes lineText m (Hall m (or_introl eq_refl)))
      as (ps & Hpos & Hq1 & Hq2 & Hslice & Hg1 & Hg2 & Hty & Hne & Hqf & _).
    rewrite Hq1 in Hres. replace (ps - 1 + 1) with ps in Hres by lia.
    rewrite Hq2 in Hres.
    destruct (Nat.leb_spec ps character) as [H1|H1]; [|auto].
    destruct (Nat.leb_spec character (ps + String.length (capture 2 (groups m))))
      as [H2|H2]; [|auto].
    simpl in Hres. inversion Hres; subst info; clear Hres. simpl.
    exists ps, (ps + String.length (capture 2 (groups m))).
    repeat split; auto.
Qed.

Lemma include_at_position_is_the_path_witness :
  exists info,
    Navigation.findIncludeAtPosition includeSample 30 = Some (Some info)
    /\ Navigation.infoPath info = "includes/nav.html"
    /\ JS.slice 26 43 includeSample = Navigation.infoPath info.
Proof.
  destruct (include_at_position_is_the_path includeSample 30) as (result & Hrun & Hinfo).
  vm_compute in Hrun. inversion Hrun as [Hres]. clear Hrun.
  match type of Hres with Some ?i = _ => exists i end.
  split; [vm_compute; reflexivity|]. split; [reflexivity|].
  vm_compute. reflexivity.
Defined.

(** Successive matches of a loop do not overlap. *)
Lemma execLoop_disjoint (r : regex) (Hadv : advancing r) (s : string) :
  forall (fuel lastIndex : nat) (ms : list Match),
    execLoop fuel r s lastIndex = Some ms ->
    Forall (fun m => lastIndex <= index m) ms
    /\ StronglySorted (fun m1 m2 => matchEnd m1 <= index m2) ms.
Proof.
  induction fuel as [|fuel IH]; intros lastIndex ms H; simpl in H; [discriminate|].
  destruct (exec r s lastIndex) as [m|] eqn:E.
  - destruct (execLoop fuel r s (matchEnd m)) as [ms'|] eqn:E'; [|discriminate].
    simpl in H. inversion H; subst ms; clear H.
    destruct (exec_bounds _ _ _ E) as (H1 & H2 & H3). specialize (H3 Hadv).
    destruct (IH _ _ E') as (Hall & Hsorted).
    split.
    + constructor; [assumption|].
      eapply Forall_impl; [|exact Hall]. simpl; intros; lia.
    + constructor; assumption.
  - inversion H; subst. split; constructor.
Qed.

Lemma matchesOf_disjoint (r : regex) (s : string) :
  advancing r -> StronglySorted (fun m1 m2 => matchEnd m1 <= index m2) (matchesOf r s).
Proof.
  intros Hadv. unfold matchesOf, execAll.
  destruct (execLoop (S (String.length s)) r s 0) as [ms|] eqn:E; [|constructor].
  now destruct (@execLoop_disjoint r Hadv s _ _ _ E).
Qed.

Lemma includeAtLoop_finds (lineText : string) (character : nat) (m : Match) (ps : nat) :
  index m < ps ->
  ps + String.length (capture 2 (groups m)) < matchEnd m ->
  Navigation.indexOf Navigation.dqChar (index m) lineText = Some (ps - 1) ->
  Navigation.indexOf Navigation.dqChar ps lineText
  = Some (ps + String.length (capture 2 (groups m))) ->
  ps <= character -> character <= ps + String.length (capture 2 (groups m)) ->
  forall ms,
    (forall m', In m' ms -> In m' (matchesOf includeRegex lineText)) ->
    StronglySorted (fun m1 m2 => matchEnd m1 <= index m2) ms ->
    In m ms ->
    Navigation.includeAtLoop lineText character ms
    = Some (Navigation.mkIncludeInfo (capture 1 (groups m)) (capture 2 (groups m))
              (mkRange (mkPosition 0 ps)
                 (mkPosition 0 (ps + String.length (capture 2 (groups m)))))).
Proof.
  intros Hlo Hhi Hq1 Hq2 H1 H2 ms.
  induction ms as [|m0 rest IH]; intros Hall Hsorted Hin; [contradiction|].
  apply StronglySorted_inv in Hsorted. destruct Hsorted as (Hsorted & Hm0).
  cbn [Navigation.includeAtLoop].
  destruct Hin as [->|Hin].
  - fold (matchEnd m).
    destruct (Nat.leb_spec (index m) character); [|lia].
    destruct (Nat.leb_spec character (matchEnd m)); [|lia].
    cbn [andb]. rewrite Hq1. replace (ps - 1 + 1) with ps by lia. rewrite Hq2.
    destruct (Nat.leb_spec ps character); [|lia].
    destruct (Nat.leb_spec character (ps + String.length (capture 2 (groups m)))); [|lia].
    reflexivity.
  - assert (IH' := IH (fun m' H => Hall m' (or_intror H)) Hsorted Hin).
    rewrite Forall_forall in Hm0. specialize (Hm0 _ Hin).
    destruct ((index m0 <=? character)%nat
              && (character <=? index m0 + String.length (matched m0))%nat);
      [|exact IH'].
    destruct (@include_quotes lineText m0 (Hall m0 (or_introl eq_refl)))
      as (ps0 & Hpos & Hq1' & Hq2' & _ & _ & _ & _ & _ & _ & Hlo' & Hhi').
    rewrite Hq1'. replace (ps0 - 1 + 1) with ps0 by lia. rewrite Hq2'.
    destruct (Nat.leb_spec ps0 character); [|exact IH'].
    destruct (Nat.leb_spec character (ps0 + String.length (capture 2 (groups m0))));
      [lia | exact IH'].
Qed.

(** X12. For every include directive the scanner finds on a line there is
    a column, after the start of the directive, from which the line reads the
    path of the directive; with the cursor anywhere from that column to the
    closing quote, ends included, [findIncludeAtPosition] returns that
    directive: its type, its path, and the range of the path. *)
Theorem include_under_cursor_is_found :
  forall (lineText : string) (ms : list Match) (m : Match),
    execAll includeRegex lineText = Some ms -> In m ms ->
    exists pathStart,
      index m < pathStart
      /\ pathStart + String.length (capture 2 (groups m)) < matchEnd m
      /\ JS.slice pathStart (pathStart + String.length (capture 2 (groups m))) lineText
         = capture 2 (groups m)
      /\ forall character,
           pathStart <= character ->
           character <= pathStart + String.length (capture 2 (groups m)) ->
           Navigation.findIncludeAtPosition lineText character
           = Some (Some (Navigation.mkIncludeInfo (capture 1 (groups m))
                           (capture 2 (groups m))
                           (mkRange (mkPosition 0 pathStart)
                              (mkPosition 0
                                 (pathStart + String.length (capture 2 (groups m))))))).
Proof.
  intros lineText ms m Hrun Hin.
  assert (Hms : matchesOf includeRegex lineText = ms)
    by (unfold matchesOf; now rewrite Hrun).
  assert (Hm : In m (matchesOf includeRegex lineText)) by (now rewrite Hms).
  destruct (@include_quotes lineText m Hm)
    as (ps & Hpos & Hq1 & Hq2 & Hslice & _ & _ & _ & _ & _ & Hlo & Hhi).
  exists ps. split; [assumption|]. split; [assumption|]. split; [assumption|].
  intros character H1 H2. unfold Navigation.findIncludeAtPosition. rewrite Hrun.
  cbn [Run.bind]. f_equal.
  apply includeAtLoop_finds; try assumption.
  - intros m' Hm'. now rewrite Hms.
  - rewrite <- Hms. apply matchesOf_disjoint, includeRegex_advancing.
Qed.

Lemma include_under_cursor_is_found_witness :
  exists pathStart,
    4 < pathStart
    /\ JS.slice pathStart (pathStart + 17) includeSample = "includes/nav.html"
    /\ forall character,
         pathStart <= character -> character <= pathStart + 17 ->
         Navigation.findIncludeAtPosition includeSample character
         = Some (Some (Navigation.mkIncludeInfo "virtual" "includes/nav.html"
                         (mkRange (mkPosition 0 pathStart)
                            (mkPosition 0 (pathStart + 17))))).
Proof.
  destruct (@include_under_cursor_is_found includeSample
              [mkMatch 4 (includeDirective "virtual" "includes/nav.html")
                 [(2, "includes/nav.html"); (1, "virtual")]]
              (mkMatch 4 (includeDirective "virtual" "includes/nav.html")
                 [(2, "includes/nav.html"); (1, "virtual")]))
    as (ps & Hlo & Hhi & Hslice & Hfind).
  - vm_compute. reflexivity.
  - simpl. auto.
  - exists ps. split; [exact Hlo|]. split; [exact Hslice | exact Hfind].
Defined.

(** ** Slot name completions *)

Lemma templateItems_labels (prefix extendedTemplate : string) (slots : list string) :
  map Completion.label (Completion.templateItems prefix extendedTemplate slots)
  = filter (fun s => Completion.startsWith s prefix) slots.
Proof.
  induction slots as [|s rest IH]; simpl; [reflexivity|].
  destruct (Completion.startsWith s prefix); simpl; now rewrite IH.
Qed.

Lemma existsb_label (completions : list Completion.CompletionItem) (slot : string) :
  existsb (fun c => Completion.label c =? slot) completions = true
  <-> In slot (map Completion.label completions).
Proof.
  rewrite existsb_exists, in_map_iff. split.
  - intros (c & Hc & E). apply String.eqb_eq in E. eauto.
  - intros (c & E & Hc). exists c. split; [assumption|]. now apply String.eqb_eq.
Qed.

Lemma NoDup_snoc {A : Type} (l : list A) (x : A) :
  NoDup l -> ~ In x l -> NoDup (l ++ [x]).
Proof.
  induction l as [|a l IH]; simpl; intros Hnd Hn.
  - repeat constructor. auto.
  - inversion Hnd; subst. constructor.
    + rewrite in_app_iff. simpl. intuition auto.
    + apply IH; auto.
Qed.

Lemma addCommon_labels (prefix : string) (slots : list string) :
  forall completions,
    NoDup (map Completion.label completions) ->
    (forall c, In c completions -> Completion.startsWith (Completion.label c) prefix = true) ->
    let items := Completion.addCommon prefix completions slots in
    NoDup (map Completion.label items)
    /\ (forall c, In c items -> Completion.startsWith (Completion.label c) prefix = true)
    /\ (forall c, In c completions -> In c items)
    /\ (forall s, In s slots -> Completion.startsWith s prefix = true ->
                  In s (map Completion.label items))
    /\ (forall c, In c items -> In c completions \/ In (Completion.label c) slots).
Proof.
  induction slots as [|s rest IH]; intros completions Hnd Hpre; cbn zeta; simpl.
  - repeat split; auto. intros s [].
  - destruct (Completion.startsWith s prefix) eqn:Es; simpl.
    + destruct (existsb (fun c => Completion.label c =? s) completions) eqn:Ee; simpl.
      * apply existsb_label in Ee.
        destruct (IH completions Hnd Hpre) as (H1 & H2 & H3 & H4 & H5).
        repeat split; auto.
        -- intros s' [<-|Hs'] Hp.
           ++ apply in_map_iff in Ee. destruct Ee as (c & <- & Hc).
              apply in_map, H3, Hc.
           ++ auto.
        -- intros c Hc. destruct (H5 c Hc); auto.
      * assert (Hn : ~ In s (map Completion.label completions)).
        { intros H. apply existsb_label in H. congruence. }
        set (item := Completion.mkItem s Completion.Keyword "Common slot name" None
                       (Some ("1_" +++ s))).
        destruct (IH (completions ++ [item])) as (H1 & H2 & H3 & H4 & H5).
        { rewrite map_app. simpl. apply NoDup_snoc; assumption. }
        { intros c Hc. apply in_app_or in Hc. destruct Hc as [Hc|[<-|[]]]; auto. }
        repeat split; auto.
        -- intros c Hc. apply H3, in_or_app. auto.
        -- intros s' [<-|Hs'] Hp; [|auto].
           apply in_map_iff. exists item. split; [reflexivity|].
           apply H3, in_or_app. simpl. auto.
        -- intros c Hc. destruct (H5 c Hc) as [Hin|Hin]; [|auto].
           apply in_app_or in Hin. destruct Hin as [Hin|[<-|[]]]; simpl; auto.
    + destruct (IH completions Hnd Hpre) as (H1 & H2 & H3 & H4 & H5).
      repeat split; auto.
      * intros s' [<-|Hs'] Hp; [congruence | auto].
      * intros c Hc. destruct (H5 c Hc); auto.
Qed.

(** X13. [provideSlotNameCompletions] never offers the same slot name
    twice, offers only names that start with the typed prefix, and offers
    every common slot name that starts with it; it is rejected exactly when
    the extended template exists but the editor cannot open it. *)
Theorem slot_completions_distinct :
  forall (w : Workspace) (openTextDocument : string -> option string)
         (document : TextDocument) (prefix : string),
    exists outcome,
      Completion.provideSlotNameCompletions w openTextDocument document prefix
      = Some outcome
      /\ (outcome = Completion.Rejected <->
          exists t, truthy (CompletionProvider.findExtendedTemplate w document) = Some t
                    /\ openTextDocument t = None)
      /\ forall items,
           outcome = Completion.Returned items ->
           NoDup (map Completion.label items)
           /\ (forall c, In c items ->
                         Completion.startsWith (Completion.label c) prefix = true)
           /\ (forall s, In s Completion.commonSlots ->
                         Completion.startsWith s prefix = true ->
                         In s (map Completion.label items)).
Proof.
  intros w openTextDocument document prefix.
  unfold Completion.provideSlotNameCompletions.
  destruct (truthy (CompletionProvider.findExtendedTemplate w document)) as [t|].
  - destruct (openTextDocument t) as [text|] eqn:Eo.
    + unfold Completion.extractSlotsFromDocument.
      rewrite (@execAll_matchesOf Completion.slotNameRegex text
                 (@lit_seq_advancing _ _ _)).
      cbn [Run.bind]. eexists. split; [reflexivity|]. split.
      * split; [discriminate|]. intros (t' & Ht & Hn). inversion Ht; subst t'. congruence.
      * intros items Hitems. inversion Hitems; subst items; clear Hitems.
        edestruct (@addCommon_labels prefix Completion.commonSlots) as (H1 & H2 & _ & H4 & _);
          [| |split; [exact H1|]; split; [exact H2 | exact H4]].
        -- rewrite templateItems_labels. apply NoDup_filter, dedupe_NoDup.
        -- intros c Hc. apply (in_map Completion.label) in Hc.
           rewrite templateItems_labels in Hc. apply filter_In in Hc. tauto.
    + exists Completion.Rejected. split; [reflexivity|]. split; [|discriminate].
      split; [eauto | reflexivity].
  - eexists. split; [reflexivity|]. split.
    + split; [discriminate|]. intros (t' & Ht & _). discriminate.
    + intros items Hitems. inversion Hitems; subst items; clear Hitems.
      edestruct (@addCommon_labels prefix Completion.commonSlots []) as (H1 & H2 & _ & H4 & _);
        [constructor | intros c [] | split; [exact H1|]; split; [exact H2 | exact H4]].
Qed.

Lemma slot_completions_distinct_witness :
  exists items,
    Completion.provideSlotNameCompletions completionSite (readFileSync completionSite)
      (openDocument completionSite "/ws/src/index.html") "c"
    = Some (Completion.Returned items)
    /\ map Completion.label items = ["content"; "card"]
    /\ NoDup (map Completion.label items).
Proof.
  destruct (slot_completions_distinct completionSite (readFileSync completionSite)
              (openDocument completionSite "/ws/src/index.html") "c")
    as (outcome & Hrun & _ & Hitems).
  vm_compute in Hrun. inversion Hrun as [Hout]. clear Hrun.
  match type of Hout with Completion.Returned ?l = _ => exists l end.
  split; [vm_compute; reflexivity|]. split; [reflexivity|].
  apply Hitems. symmetry. exact Hout.
Defined.

(** ** Missing includes in the report *)

Lemma includeStage_complete (w : Workspace) (document : TextDocument)
    (lines : list string) (workspaceRoot : string) (i : nat) (l : string) (m : Match)
    (d : Diagnostic) :
  workspaceRootOf w document = Some workspaceRoot ->
  nth_error lines i = Some l -> In m (matchesOf includeRegex l) ->
  In d (includeDiagnostics w document i m (resolvedInclude w document workspaceRoot m)) ->
  In d (includeStage w document lines).
Proof.
  intros Hroot Hl Hm Hd. unfold includeStage. rewrite Hroot.
  apply (@eachLine_intro _ (includeLine w document workspaceRoot) lines 0 i l);
    [assumption|].
  cbn [Nat.add]. unfold includeLine. apply in_flat_map. exists m. auto.
Qed.

(** A finding of the include stage that has the range of a directive is a
    finding of that directive. *)
Lemma includeStage_at (w : Workspace) (document : TextDocument)
    (lines : list string) (workspaceRoot : string) (i : nat) (l : string) (m : Match)
    (d : Diagnostic) :
  workspaceRootOf w document = Some workspaceRoot ->
  nth_error lines i = Some l -> In m (matchesOf includeRegex l) ->
  In d (includeStage w document lines) -> range d = matchRange i m ->
  In d (includeDiagnostics w document i m (resolvedInclude w document workspaceRoot m)).
Proof.
  intros Hroot Hl Hm Hin Hrange. apply includeStage_In in Hin.
  destruct Hin as (root' & i' & l' & m' & Hroot' & Hl' & Hm' & Hd).
  pose proof (includeDiagnostics_code _ _ _ _ _ _ Hd) as (Hr & _).
  rewrite Hrange in Hr.
  destruct (@scanned_once includeRegex lines i i' l l' m m'
              includeRegex_advancing Hl Hm Hl' Hm' Hr) as (<- & <-).
  rewrite Hroot in Hroot'. injection Hroot' as <-. exact Hd.
Qed.

Lemma find_all_false {A : Type} (test : A -> bool) (candidates : list A) :
  (forall c, In c candidates -> test c = false) -> find test candidates = None.
Proof.
  intros Hall. destruct (find test candidates) as [c|] eqn:E; [|reflexivity].
  apply find_some in E. destruct E as (Hin & Ht).
  rewrite (Hall c Hin) in Ht. discriminate.
Qed.

Lemma no_candidate_probe (w : Workspace) (target : string) :
  (forall c, In c (candidatePaths target) -> existsSync w c = false) ->
  probe w target = (false, target).
Proof.
  intros Hall. unfold probe.
  rewrite (Hall target) by (unfold candidatePaths; simpl; auto).
  rewrite tryExtensions_find, find_all_false; [reflexivity|].
  intros c Hc. apply Hall. unfold candidatePaths. simpl. auto.
Qed.

Lemma missing_include_finding (w : Workspace) (document : TextDocument)
    (workspaceRoot : string) (i : nat) (m : Match) :
  (forall c,
      In c (candidatePaths (includeTarget w document (capture 1 (groups m))
                              (capture 2 (groups m)) workspaceRoot)) ->
      existsSync w c = false) ->
  includeDiagnostics w document i m (resolvedInclude w document workspaceRoot m)
  = [ missingIncludeAt w document i m
        (includeTarget w document (capture 1 (groups m)) (capture 2 (groups m))
           workspaceRoot) ].
Proof.
  intros Hall. unfold resolvedInclude. cbv zeta.
  rewrite (no_candidate_probe _ Hall). cbn [fst snd].
  unfold includeDiagnostics, missingIncludeAt. cbn [exists_ expectedPath negb].
  destruct (String.eqb_spec
              (includeTarget w document (capture 1 (groups m)) (capture 2 (groups m))
                 workspaceRoot) "") as [E|_];
    [exfalso; exact (includeTarget_nonempty _ _ _ _ _ E)|].
  reflexivity.
Qed.

Lemma sorted_split {A : Type} (R : A -> A -> Prop) (x : A) (later : list A) :
  forall earlier : list A,
    StronglySorted R (earlier ++ x :: later) ->
    Forall (fun d => R d x) earlier /\ Forall (R x) later.
Proof.
  induction earlier as [|a earlier IH]; cbn [app]; intros Hs;
    inversion Hs as [|? ? Hrest Hall]; subst.
  - split; [constructor | assumption].
  - destruct (IH Hrest) as (H1 & H2). split; [|assumption].
    constructor; [|assumption].
    rewrite Forall_forall in Hall. apply Hall. apply in_or_app. simpl. auto.
Qed.

Lemma before_range (d1 d2 : Diagnostic) : before d1 d2 -> range d1 <> range d2.
Proof.
  unfold before, startLine, startColumn. intros H E. rewrite E in H. lia.
Qed.

Lemma includeStage_sorted (w : Workspace) (document : TextDocument)
    (lines : list string) :
  StronglySorted before (includeStage w document lines).
Proof.
  unfold includeStage. destruct (workspaceRootOf w document); [|constructor].
  apply eachLine_sorted; try (intros; apply includeLine_sorted).
  apply before_of_line.
Qed.

(** The include findings of a report are those of the include stage. *)
Lemma report_include_findings (w : Workspace) (document : TextDocument) (d : Diagnostic) :
  In d (report w document) ->
  code d = "include-not-found" \/ code d = "circular-include" ->
  In d (includeStage w document (documentLines document)).
Proof.
  unfold report. cbv zeta. intros Hin Hcode.
  apply in_app_or in Hin. destruct Hin as [Hin|Hin]; [assumption|]. exfalso.
  apply in_app_or in Hin. destruct Hin as [Hin|Hin].
  - apply templateStage_In in Hin.
    destruct Hin as (workspaceRoot & i & l & m & _ & _ & _ & -> & _).
    destruct Hcode; discriminate.
  - apply in_app_or in Hin. destruct Hin as [Hin|Hin].
    + pose proof (slotStage_codes w document (documentLines document)) as Hall.
      rewrite Forall_forall in Hall. apply Hall in Hin.
      rewrite Hin in Hcode. destruct Hcode; discriminate.
    + pose proof (analyzeSyntax_codes document (documentLines document)) as Hall.
      rewrite Forall_forall in Hall. apply Hall in Hin.
      destruct Hcode as [E|E]; rewrite E in Hin; simpl in Hin;
        repeat destruct Hin as [Hin|Hin]; try discriminate; contradiction.
Qed.

(** C4 (as the code has it). For a document of a workspace folder, an
    include directive the line scanner finds and none of whose candidate
    paths exists is reported: the report holds an [include-not-found] finding
    on the directive and no [circular-include] finding on it, and its cycle
    flag is off. Every [circular-include] finding of a report belongs to a
    directive whose resolved file exists. For a document outside every
    workspace folder the include stage reports nothing, so that a missing
    include is then not reported at all. The cycle check is run only on a
    candidate that exists and, started on an existing file, is only ever
    invoked on existing files. *)
Theorem missing_include_never_circular :
  forall (n : nat) (w : Workspace) (document : TextDocument),
    exists includeIssues ds,
      analyzeIncludes (S (S n)) w document (documentLines document) = Some includeIssues
      /\ analyzeDocument (S (S n)) w document = Some ds
      /\ (forall workspaceRoot i l m,
            workspaceRootOf w document = Some workspaceRoot ->
            nth_error (documentLines document) i = Some l ->
            In m (matchesOf includeRegex l) ->
            (forall c,
                In c (candidatePaths
                        (includeTarget w document (capture 1 (groups m))
                           (capture 2 (groups m)) workspaceRoot)) ->
                existsSync w c = false) ->
            (exists r,
                resolveIncludePath (S (S n)) w document (capture 1 (groups m))
                  (capture 2 (groups m)) workspaceRoot = Some r
                /\ exists_ r = false /\ circular r = false)
            /\ (exists d,
                  In d includeIssues /\ In d ds
                  /\ range d = matchRange i m /\ code d = "include-not-found")
            /\ (forall d, In d ds -> range d = matchRange i m ->
                          code d <> "circular-include"))
      /\ (forall d, In d ds -> code d = "circular-include" ->
            exists workspaceRoot i l m,
              workspaceRootOf w document = Some workspaceRoot
              /\ nth_error (documentLines document) i = Some l
              /\ In m (matchesOf includeRegex l)
              /\ range d = matchRange i m
              /\ existsSync w (expectedPath (resolvedInclude w document workspaceRoot m))
                 = true)
      /\ (workspaceRootOf w document = None ->
            includeIssues = []
            /\ forall d, In d ds ->
                 code d <> "include-not-found" /\ code d <> "circular-include")
      /\ (forall type includePath workspaceRoot,
            exists r,
              resolveIncludePath (S (S n)) w document type includePath workspaceRoot
              = Some r
              /\ (exists_ r = true -> existsSync w (expectedPath r) = true)
              /\ (exists_ r = false -> circular r = false))
      /\ (forall currentFile targetFile visited,
            existsSync w targetFile = true ->
            exists res tr,
              checkCircularIncludes (S (S n)) w currentFile targetFile visited
              = Some (res, tr)
              /\ Forall (fun f => existsSync w f = true) tr).
Proof.
  intros n w document.
  exists (includeStage w document (documentLines document)), (report w document).
  split; [apply analyzeIncludes_closed|].
  split; [apply analyzeDocument_closed|].
  split; [|split; [|split; [|split]]].
  - intros workspaceRoot i l m Hroot Hl Hm Hall.
    pose proof (@missing_include_finding w document workspaceRoot i m Hall) as Hfinding.
    split; [|split].
    + eexists. split; [apply resolveIncludePath_closed|].
      cbv zeta. rewrite (no_candidate_probe _ Hall). split; reflexivity.
    + eexists. split; [|split; [|split]].
      * eapply includeStage_complete; eauto. rewrite Hfinding. simpl. auto.
      * unfold report. cbv zeta. apply in_or_app. left.
        eapply includeStage_complete; eauto. rewrite Hfinding. simpl. auto.
      * reflexivity.
      * reflexivity.
    + intros d Hin Hrange Hcode.
      apply report_include_findings in Hin; [|auto].
      eapply includeStage_at in Hin; eauto.
      rewrite Hfinding in Hin. destruct Hin as [<-|[]]. discriminate.
  - intros d Hin Hcode. apply report_include_findings in Hin; [|auto].
    apply includeStage_In in Hin.
    destruct Hin as (workspaceRoot & i & l & m & Hroot & Hl & Hm & Hd).
    apply includeDiagnostics_code in Hd. destruct Hd as (Hr & [[Hc _]|(_ & Hex & _)]).
    + rewrite Hcode in Hc. discriminate.
    + exists workspaceRoot, i, l, m. repeat split; try assumption.
      unfold resolvedInclude in *. cbn [exists_ expectedPath] in *.
      now apply probe_exists.
  - intros Hroot. split; [unfold includeStage; now rewrite Hroot|].
    intros d Hin.
    assert (Hnone : ~ In d (includeStage w document (documentLines document)))
      by (unfold includeStage; rewrite Hroot; simpl; auto).
    split; intros Hcode; apply Hnone; apply report_include_findings; auto.
  - intros type includePath workspaceRoot.
    eexists. split; [apply resolveIncludePath_closed|].
    cbn [exists_ expectedPath circular]. split; [apply probe_exists|].
    intros Hex. rewrite Hex. reflexivity.
  - intros currentFile targetFile visited Ht.
    exists (fst (circularOutcome w currentFile targetFile visited)),
           (snd (circularOutcome w currentFile targetFile visited)).
    split.
    + rewrite checkCircularIncludes_closed. now destruct (circularOutcome _ _ _ _).
    + now apply circularOutcome_descends_existing.
Qed.

Lemma missing_include_never_circular_witness :
  exists ds d,
    analyzeDocument 2 missingTarget (openDocument missingTarget "/ws/src/page.html")
    = Some ds
    /\ In d ds
    /\ range d = matchRange 0 (mkMatch 0 (includeDirective "file" "gone.html")
                                 [(2, "gone.html"); (1, "file")])
    /\ code d = "include-not-found".
Proof.
  destruct (missing_include_never_circular 0 missingTarget
              (openDocument missingTarget "/ws/src/page.html"))
    as (includeIssues & ds & _ & Hrun & Hmissing & _).
  destruct (Hmissing "/ws" 0 (includeDirective "file" "gone.html")
              (mkMatch 0 (includeDirective "file" "gone.html")
                 [(2, "gone.html"); (1, "file")]))
    as (_ & (d & _ & Hin & Hrange & Hcode) & _).
  - vm_compute. reflexivity.
  - vm_compute. reflexivity.
  - vm_compute. left. reflexivity.
  - intros c Hc. vm_compute in Hc.
    destruct Hc as [<-|[<-|[<-|[<-|[]]]]]; vm_compute; reflexivity.
  - exists ds, d. auto.
Defined.

(** C4, refuted as stated: the include of a document that belongs to no
    workspace folder names a file that does not exist, under any of the
    candidate names, and the report is empty. *)
Lemma loose_missing_include_not_reported :
  matchesOf includeRegex (getText (openDocument looseFiles "/tmp/note.html"))
  = [ mkMatch 0 (includeDirective "file" "gone.html") [(2, "gone.html"); (1, "file")] ]
  /\ (forall workspaceRoot,
        map (existsSync looseFiles)
          (candidatePaths
             (includeTarget looseFiles (openDocument looseFiles "/tmp/note.html")
                "file" "gone.html" workspaceRoot))
        = [false; false; false; false])
  /\ analyzeDocument 2 looseFiles (openDocument looseFiles "/tmp/note.html") = Some [].
Proof.
  split; [vm_compute; reflexivity|]. split; [|vm_compute; reflexivity].
  intros workspaceRoot. vm_compute. reflexivity.
Qed.

(** X7. For a document of a workspace folder, an include directive the
    line scanner finds and none of whose candidate paths exists gets exactly
    one finding of the include stage: an [include-not-found] error on the
    directive that carries one suggestion, made from the path as written (no
    extension added): to create the file when its directory exists, to
    create directory and file otherwise. No other finding of the stage has
    the range of the directive. *)
Theorem missing_include_suggestion :
  forall (n : nat) (w : Workspace) (document : TextDocument) (lines : list string)
         (workspaceRoot : string) (i : nat) (l : string) (m : Match),
    workspaceRootOf w document = Some workspaceRoot ->
    nth_error lines i = Some l ->
    In m (matchesOf includeRegex l) ->
    (forall c,
        In c (candidatePaths
                (includeTarget w document (capture 1 (groups m))
                   (capture 2 (groups m)) workspaceRoot)) ->
        existsSync w c = false) ->
    exists includeIssues earlier later,
      analyzeIncludes (S (S n)) w document lines = Some includeIssues
      /\ includeIssues
         = earlier
             ++ missingIncludeAt w document i m
                  (includeTarget w document (capture 1 (groups m))
                     (capture 2 (groups m)) workspaceRoot)
             :: later
      /\ (forall d, In d earlier \/ In d later -> range d <> matchRange i m).
Proof.
  intros n w document lines workspaceRoot i l m Hroot Hl Hm Hall.
  pose proof (@missing_include_finding w document workspaceRoot i m Hall) as Hfinding.
  set (finding := missingIncludeAt w document i m
                    (includeTarget w document (capture 1 (groups m))
                       (capture 2 (groups m)) workspaceRoot)) in *.
  assert (Hin : In finding (includeStage w document lines)).
  { eapply includeStage_complete; eauto. rewrite Hfinding. simpl. auto. }
  apply in_split in Hin. destruct Hin as (earlier & later & Hsplit).
  exists (includeStage w document lines), earlier, later.
  split; [apply analyzeIncludes_closed|]. split; [exact Hsplit|].
  pose proof (includeStage_sorted w document lines) as Hsorted.
  rewrite Hsplit in Hsorted. apply sorted_split in Hsorted.
  destruct Hsorted as (H1 & H2). rewrite Forall_forall in H1, H2.
  change (matchRange i m) with (range finding).
  intros d [Hd|Hd].
  - apply before_range. now apply H1.
  - intros E. symmetry in E. revert E. apply before_range. now apply H2.
Qed.

Lemma missing_include_suggestion_witness :
  exists includeIssues,
    analyzeIncludes 2 mixedPage (openDocument mixedPage "/ws/src/page.html")
      (documentLines (openDocument mixedPage "/ws/src/page.html"))
    = Some includeIssues
    /\ map (fun d => (startLine d, startColumn d, code d,
                      map relatedMessage (relatedInformation d)))
         includeIssues
       = [ (1, 2, "include-not-found", ["Create missing include file: gone.html"]) ].
Proof.
  destruct (@missing_include_suggestion 0 mixedPage
              (openDocument mixedPage "/ws/src/page.html")
              (documentLines (openDocument mixedPage "/ws/src/page.html"))
              "/ws" 1 ("  " +++ includeDirective "file" "gone.html")
              (mkMatch 2 (includeDirective "file" "gone.html")
                 [(2, "gone.html"); (1, "file")]))
    as (includeIssues & earlier & later & Hrun & _ & _).
  - vm_compute. reflexivity.
  - vm_compute. reflexivity.
  - vm_compute. left. reflexivity.
  - intros c Hc. vm_compute in Hc.
    destruct Hc as [<-|[<-|[<-|[<-|[]]]]]; vm_compute; reflexivity.
  - exists includeIssues. split; [exact Hrun|].
    vm_compute in Hrun. injection Hrun as <-. vm_compute. reflexivity.
Defined.

(** ** Debouncing *)

Import Debounce.

Lemma mapGet_In (m : list (string * nat)) (k : string) (v : nat) :
  NoDup (map fst m) -> (mapGet m k = Some v <-> In (k, v) m).
Proof.
  induction m as [|[k' v'] rest IH]; simpl; intros Hnd.
  - split; [discriminate | contradiction].
  - inversion Hnd as [|? ? Hk Hrest]; subst.
    destruct (String.eqb_spec k' k) as [->|Hneq].
    + split.
      * intros H; inversion H; auto.
      * intros [H|H]; [inversion H; reflexivity|].
        exfalso. apply Hk. apply in_map_iff. exists (k, v). auto.
    + rewrite (IH Hrest). split; [auto|].
      intros [H|H]; [inversion H; contradiction | assumption].
Qed.

Lemma mapGet_None (m : list (string * nat)) (k : string) :
  mapGet m k = None -> forall v, ~ In (k, v) m.
Proof.
  induction m as [|[k' v'] rest IH]; simpl; intros H v; [auto|].
  destruct (String.eqb_spec k' k) as [->|Hneq]; [discriminate|].
  intros [E|Hin]; [inversion E; contradiction | exact (IH H v Hin)].
Qed.

Lemma mapDelete_In (m : list (string * nat)) (k k' : string) (v : nat) :
  In (k', v) (mapDelete m k) <-> In (k', v) m /\ k' <> k.
Proof.
  unfold mapDelete. rewrite filter_In. simpl.
  destruct (String.eqb_spec k' k); simpl; intuition congruence.
Qed.

Lemma clearTimeout_In (timers : list (nat * string)) (h h' : nat) (u : string) :
  In (h', u) (clearTimeout timers h) <-> In (h', u) timers /\ h' <> h.
Proof.
  unfold clearTimeout. rewrite filter_In. simpl.
  destruct (Nat.eqb_spec h' h); simpl; intuition congruence.
Qed.

Lemma NoDup_map_filter {E K : Type} (key : E -> K) (keep : E -> bool) :
  forall entries : list E,
    NoDup (map key entries) -> NoDup (map key (filter keep entries)).
Proof.
  intros entries. induction entries as [|e rest IH]; simpl; intros Hnd.
  - constructor.
  - inversion Hnd as [|? ? Hfresh Hrest]; subst.
    destruct (keep e); simpl; [|now apply IH].
    constructor; [|now apply IH].
    intros Hin. apply Hfresh. apply in_map_iff in Hin.
    destruct Hin as (x & Hx & Hkept).
    apply filter_In in Hkept. apply in_map_iff. exists x. tauto.
Qed.

Lemma NoDup_fst_unique {A B : Type} (l : list (A * B)) (a : A) (b b' : B) :
  NoDup (map fst l) -> In (a, b) l -> In (a, b') l -> b = b'.
Proof.
  induction l as [|[x y] l IH]; simpl; intros Hnd H1 H2; [contradiction|].
  inversion Hnd as [|? ? Hn Hrest]; subst.
  destruct H1 as [E1|H1], H2 as [E2|H2].
  - congruence.
  - inversion E1; subst. exfalso. apply Hn, in_map_iff. exists (a, b'). auto.
  - inversion E2; subst. exfalso. apply Hn, in_map_iff. exists (a, b). auto.
  - eauto.
Qed.

Lemma scheduleUpdate_consistent (st : State) (u : string) :
  consistent st -> consistent (scheduleUpdate st u).
Proof.
  intros (Hkeys & Hhandles & Hbound & Hsame).
  set (timers := match mapGet (updateTimeout st) u with
                 | Some existingTimeout => clearTimeout (pending st) existingTimeout
                 | None => pending st
                 end).
  assert (Htimers : forall h x, In (h, x) timers <-> In (h, x) (pending st) /\ x <> u).
  { intros h x. unfold timers.
    destruct (mapGet (updateTimeout st) u) as [h0|] eqn:E.
    - apply mapGet_In in E; [|exact Hkeys]. rewrite clearTimeout_In. split.
      + intros (Hin & Hne). split; [assumption|]. intros ->.
        apply Hsame in Hin. apply Hne. eapply NoDup_fst_unique; eauto.
      + intros (Hin & Hne). split; [assumption|]. intros ->.
        apply Hsame in E. apply Hne. eapply NoDup_fst_unique; eauto.
    - split; [|tauto]. intros Hin. split; [assumption|]. intros ->.
      apply Hsame in Hin. exact (@mapGet_None _ _ E _ Hin). }
  assert (Hsub : NoDup (map fst timers)
                 /\ forall h x, In (h, x) timers -> h < nextHandle st).
  { split.
    - unfold timers. destruct (mapGet (updateTimeout st) u);
        [apply NoDup_map_filter|]; assumption.
    - intros h x Hin. apply Htimers in Hin. eapply Hbound, Hin. }
  destruct Hsub as (Hnd & Hlt).
  unfold consistent, scheduleUpdate. fold timers. cbn [updateTimeout pending nextHandle].
  split; [|split; [|split]].
  - unfold mapSet. simpl. constructor; [|apply NoDup_map_filter, Hkeys].
    intros Hin. apply in_map_iff in Hin. destruct Hin as ([k v] & E & Hin).
    simpl in E. subst k. apply mapDelete_In in Hin. tauto.
  - rewrite map_app. simpl. apply NoDup_snoc; [assumption|].
    intros Hin. apply in_map_iff in Hin. destruct Hin as ([h x] & E & Hin).
    simpl in E. subst h. apply Hlt in Hin. lia.
  - intros h x Hin. apply in_app_or in Hin. destruct Hin as [Hin|[E|[]]].
    + apply Hlt in Hin. lia.
    + inversion E; subst. lia.
  - intros h x. rewrite in_app_iff. unfold mapSet. simpl.
    rewrite Htimers, mapDelete_In, Hsame. split.
    + intros [(Hin & Hne)|[E|[]]]; [auto | inversion E; auto].
    + intros [E|(Hin & Hne)]; [inversion E; auto | auto].
Qed.

Lemma fire_consistent (st : State) (h : nat) : consistent st -> consistent (fire st h).
Proof.
  intros Hc. unfold fire.
  destruct (find (fun t => (fst t =? h)%nat) (pending st)) as [[h0 u]|] eqn:E; [|assumption].
  apply find_some in E. destruct E as (Hin & Heq). simpl in Heq.
  apply Nat.eqb_eq in Heq. subst h0.
  destruct Hc as (Hkeys & Hhandles & Hbound & Hsame).
  unfold consistent. cbn [updateTimeout pending nextHandle].
  split; [apply NoDup_map_filter, Hkeys|].
  split; [apply NoDup_map_filter, Hhandles|].
  split.
  - intros h' x Hx. apply clearTimeout_In in Hx. eapply Hbound, Hx.
  - intros h' x. rewrite clearTimeout_In, mapDelete_In, Hsame. split.
    + intros (Hx & Hne). split; [assumption|]. intros ->. apply Hne.
      apply Hsame in Hin. eapply NoDup_fst_unique; eauto.
    + intros (Hx & Hne). split; [assumption|]. intros ->. apply Hne.
      apply Hsame in Hx. eapply NoDup_fst_unique; eauto.
Qed.

Lemma fold_clearTimeout_In (hs : list nat) :
  forall (timers : list (nat * string)) (h : nat) (u : string),
    In (h, u) (fold_left clearTimeout hs timers) <-> In (h, u) timers /\ ~ In h hs.
Proof.
  induction hs as [|h0 hs IH]; intros timers h u; simpl.
  - tauto.
  - rewrite IH, clearTimeout_In. intuition auto.
Qed.

Lemma fold_clearTimeout_NoDup (hs : list nat) :
  forall timers : list (nat * string),
    NoDup (map fst timers) -> NoDup (map fst (fold_left clearTimeout hs timers)).
Proof.
  induction hs as [|h0 hs IH]; intros timers H; simpl; [assumption|].
  apply IH, NoDup_map_filter, H.
Qed.

Lemma dispose_consistent (st : State) : consistent st -> consistent (dispose st).
Proof.
  intros (Hkeys & Hhandles & Hbound & Hsame).
  unfold consistent, dispose. cbn [updateTimeout pending nextHandle].
  split; [constructor|]. split; [apply fold_clearTimeout_NoDup, Hhandles|]. split.
  - intros h u Hin. apply fold_clearTimeout_In in Hin. eapply Hbound, Hin.
  - intros h u. rewrite fold_clearTimeout_In. simpl. split; [|contradiction].
    intros (Hin & Hn). apply Hn. apply Hsame in Hin.
    apply in_map_iff. exists (u, h). auto.
Qed.

Lemma updateDiagnostics_consistent (st : State) (u : string) :
  consistent st -> consistent (updateDiagnostics st u).
Proof. intros H. exact H. Qed.

Lemma step_consistent (st : State) (e : Event) : consistent st -> consistent (step st e).
Proof.
  intros H. destruct e as [u|u|u|h|]; cbn [step].
  - now apply updateDiagnostics_consistent, scheduleUpdate_consistent.
  - now apply updateDiagnostics_consistent, updateDiagnostics_consistent.
  - now apply updateDiagnostics_consistent.
  - now apply fire_consistent.
  - now apply dispose_consistent.
Qed.

Lemma run_consistent (events : list Event) : consistent (run events).
Proof.
  unfold run.
  assert (H0 : consistent initial).
  { unfold consistent, initial. simpl. repeat split; try constructor; contradiction. }
  revert H0. generalize initial. induction events as [|e rest IH]; intros st H; simpl.
  - assumption.
  - apply IH. now apply step_consistent.
Qed.

Lemma pendingFor_In (st : State) (u : string) (h : nat) (x : string) :
  In (h, x) (pendingFor st u) <-> In (h, x) (pending st) /\ x = u.
Proof.
  unfold pendingFor. rewrite filter_In. simpl.
  destruct (String.eqb_spec x u); intuition congruence.
Qed.

Lemma at_most_one {A : Type} (l : list A) :
  NoDup l -> (forall x y, In x l -> In y l -> x = y) -> List.length l <= 1.
Proof.
  destruct l as [|a [|b l]]; simpl; intros Hnd H; try lia.
  exfalso. inversion Hnd as [|? ? Hn _]; subst. apply Hn.
  rewrite (H a b); simpl; auto.
Qed.

(** X14. Whatever changes, saves, file changes, timer callbacks and
    disposals have happened, at most one update is pending for each
    document, the map [updateTimeout] names exactly the pending timers, and
    after [dispose] none is pending. *)
Theorem one_pending_update_per_document :
  forall (events : list Event) (u : string),
    let st := run events in
    List.length (pendingFor st u) <= 1
    /\ (forall h, mapGet (updateTimeout st) u = Some h <-> In (h, u) (pending st))
    /\ pending (dispose st) = [] /\ updateTimeout (dispose st) = [].
Proof.
  intros events u. cbv zeta.
  destruct (run_consistent events) as (Hkeys & Hhandles & Hbound & Hsame).
  generalize dependent (run events). intros st Hkeys Hhandles Hbound Hsame.
  split; [|split; [|split]].
  - apply at_most_one.
    + unfold pendingFor. apply NoDup_filter.
      eapply NoDup_map_inv. exact Hhandles.
    + intros [h x] [h' x'] H1 H2. apply pendingFor_In in H1, H2.
      destruct H1 as (H1 & ->), H2 as (H2 & ->). f_equal.
      apply Hsame in H1, H2. eapply NoDup_fst_unique; eauto.
  - intros h. rewrite (@mapGet_In _ u h Hkeys). symmetry. apply Hsame.
  - destruct (pending (dispose st)) as [|[h x] rest] eqn:E; [reflexivity|].
    exfalso. assert (Hin : In (h, x) (pending (dispose st))) by (rewrite E; simpl; auto).
    unfold dispose in Hin. cbn [pending] in Hin.
    apply fold_clearTimeout_In in Hin. destruct Hin as (Hin & Hn).
    apply Hn. apply Hsame in Hin. apply in_map_iff. exists (x, h). auto.
  - reflexivity.
Qed.

Lemma filter_filter_weaker {A : Type} (p q : A -> bool) (l : list A) :
  (forall x, In x l -> p x = true -> q x = true) ->
  filter p (filter q l) = filter p l.
Proof.
  induction l as [|a l IH]; simpl; intros H; [reflexivity|].
  destruct (q a) eqn:Eq; simpl.
  - rewrite IH by (intros; apply H; auto). reflexivity.
  - destruct (p a) eqn:Ep.
    + rewrite (H a) in Eq; [discriminate | auto | assumption].
    + apply IH. intros; apply H; auto.
Qed.

Lemma scheduleUpdate_pending (st : State) (u : string) :
  consistent st ->
  pendingFor (scheduleUpdate st u) u = [(nextHandle st, u)]
  /\ (forall u', u' <> u -> pendingFor (scheduleUpdate st u) u' = pendingFor st u').
Proof.
  intros (Hkeys & Hhandles & Hbound & Hsame).
  unfold pendingFor, scheduleUpdate. cbn [pending].
  assert (Hcleared : forall h0, In (u, h0) (updateTimeout st) ->
            forall t, In t (pending st) -> fst t = h0 -> snd t = u).
  { intros h0 Hmap [h x] Hin E. simpl in *. subst h.
    apply Hsame in Hmap. eapply NoDup_fst_unique; eauto. }
  split.
  - rewrite filter_app. simpl. rewrite String.eqb_refl.
    rewrite filter_none; [reflexivity|].
    apply Forall_forall. intros [h x] Hin. simpl.
    destruct (String.eqb_spec x u) as [->|]; [|reflexivity]. exfalso.
    destruct (mapGet (updateTimeout st) u) as [h0|] eqn:E.
    + apply mapGet_In in E; [|exact Hkeys].
      apply clearTimeout_In in Hin. destruct Hin as (Hin & Hne). apply Hne.
      apply Hsame in Hin. eapply NoDup_fst_unique; eauto.
    + apply Hsame in Hin. exact (@mapGet_None _ _ E _ Hin).
  - intros u' Hne. rewrite filter_app. simpl.
    destruct (String.eqb_spec u u') as [E|_]; [congruence|]. rewrite app_nil_r.
    destruct (mapGet (updateTimeout st) u) as [h0|] eqn:E; [|reflexivity].
    apply mapGet_In in E; [|exact Hkeys].
    unfold clearTimeout. apply filter_filter_weaker.
    intros t Hin Hp. apply String.eqb_eq in Hp.
    destruct (Nat.eqb_spec (fst t) h0) as [Eh|]; [|reflexivity].
    exfalso. apply Hne. rewrite <- Hp. eapply Hcleared; eauto.
Qed.

Lemma changes_pending (u : string) :
  forall (k : nat) (st : State),
    consistent st ->
    let st' := changes (S k) st u in
    consistent st'
    /\ (exists h, pendingFor st' u = [(h, u)])
    /\ updates st' = updates st ++ repeat u (S k)
    /\ (forall u', u' <> u -> pendingFor st' u' = pendingFor st u').
Proof.
  induction k as [|k IH]; intros st Hc; cbn zeta.
  - cbn [changes step]. destruct (scheduleUpdate_pending u Hc) as (H1 & H2).
    split; [now apply updateDiagnostics_consistent, scheduleUpdate_consistent|].
    split; [exists (nextHandle st); exact H1|].
    split; [reflexivity | exact H2].
  - change (changes (S (S k)) st u) with (changes (S k) (step st (Change u)) u).
    assert (Hc1 : consistent (step st (Change u)))
      by (now apply updateDiagnostics_consistent, scheduleUpdate_consistent).
    destruct (IH (step st (Change u)) Hc1) as (H1 & H2 & H3 & H4).
    destruct (scheduleUpdate_pending u Hc) as (_ & H5).
    split; [assumption|]. split; [assumption|]. split.
    + rewrite H3. cbn [step updateDiagnostics updates scheduleUpdate].
      rewrite <- app_assoc. reflexivity.
    + intros u' Hne. rewrite H4 by assumption. exact (H5 u' Hne).
Qed.

Lemma mapGet_delete (m : list (string * nat)) (k : string) :
  mapGet (mapDelete m k) k = None.
Proof.
  induction m as [|[k' v] rest IH]; simpl; [reflexivity|].
  destruct (String.eqb_spec k' k) as [->|Hne]; simpl; [assumption|].
  destruct (String.eqb_spec k' k); [contradiction | assumption].
Qed.

(** X15. After any history, a burst of [k + 1] changes to a document runs
    [k + 1] updates of it at once, one for each change (the listener of
    [extension.ts]), and leaves exactly one debounced update pending for it
    (the listener of the class); the pending updates of the other documents
    are left as they were. When the pending timer fires, the document is
    updated once more, and neither a timer nor a map entry is left for it:
    the burst costs [k + 2] updates. The order in which the two listeners of
    a change run makes no difference. *)
Theorem burst_of_changes_one_pending_update :
  forall (events : list Event) (u : string) (k : nat),
    let st := run events in
    let st' := changes (S k) st u in
    (exists h,
        pendingFor st' u = [(h, u)]
        /\ updates st' = updates st ++ repeat u (S k)
        /\ (forall u', u' <> u -> pendingFor st' u' = pendingFor st u')
        /\ updates (fire st' h) = updates st ++ repeat u (S k) ++ [u]
        /\ pendingFor (fire st' h) u = []
        /\ mapGet (updateTimeout (fire st' h)) u = None)
    /\ (forall s, step s (Change u) = scheduleUpdate (updateDiagnostics s u) u).
Proof.
  intros events u k. cbv zeta. split; [|reflexivity].
  destruct (@changes_pending u k (run events) (run_consistent events))
    as (Hc & (h & Hp) & Hu & Hothers).
  generalize dependent (changes (S k) (run events) u). intros st' Hc Hp Hu Hothers.
  exists h. split; [assumption|]. split; [assumption|]. split; [assumption|].
  assert (Hin : In (h, u) (pending st')).
  { assert (H : In (h, u) (pendingFor st' u)) by (rewrite Hp; simpl; auto).
    apply pendingFor_In in H. tauto. }
  destruct Hc as (Hkeys & Hhandles & Hbound & Hsame).
  unfold fire.
  destruct (find (fun t => (fst t =? h)%nat) (pending st')) as [[h0 x]|] eqn:E.
  - apply find_some in E. destruct E as (Hx & Heq). simpl in Heq.
    apply Nat.eqb_eq in Heq. subst h0.
    assert (x = u) by (eapply NoDup_fst_unique; eauto). subst x.
    cbn [updates pending updateTimeout]. split.
    { rewrite Hu. rewrite <- app_assoc. reflexivity. }
    split.
    + unfold pendingFor. cbn [pending].
      destruct (filter (fun t => snd t =? u) (clearTimeout (pending st') h))
        as [|[h1 x1] rest] eqn:Ef; [reflexivity|]. exfalso.
      assert (H1 : In (h1, x1) (filter (fun t => snd t =? u) (clearTimeout (pending st') h)))
        by (rewrite Ef; simpl; auto).
      apply filter_In in H1. destruct H1 as (H1 & Hs). simpl in Hs.
      apply String.eqb_eq in Hs. subst x1.
      apply clearTimeout_In in H1. destruct H1 as (H1 & Hne). apply Hne.
      assert (H2 : In (h1, u) (pendingFor st' u)) by (apply pendingFor_In; auto).
      rewrite Hp in H2. destruct H2 as [H2|[]]. now inversion H2.
    + apply mapGet_delete.
  - exfalso. apply (find_none _ _ E) in Hin. simpl in Hin.
    rewrite Nat.eqb_refl in Hin. discriminate.
Qed.

(** ** Diagnostics and navigation on the same template *)

Lemma find_app_some {A : Type} (f : A -> bool) (l1 l2 : list A) (x : A) :
  find f l1 = Some x -> find f (l1 ++ l2) = Some x.
Proof.
  induction l1 as [|a l1 IH]; simpl; [discriminate|].
  destruct (f a); auto.
Qed.

(** X16. Whenever the diagnostics resolve the parent template of a
    document, the definition provider resolves it to the same file; a parent
    the diagnostics do not find is found by the definition provider exactly
    when it lies beside the document. *)
Theorem navigation_agrees_with_diagnostics :
  forall (w : Workspace) (document : TextDocument),
    (forall parent,
        Diagnostics.findExtendedTemplate w document = Some parent ->
        Navigation.findExtendedTemplate w document = Some parent)
    /\ (forall templateMatch workspaceRoot,
          matchFirst templateRegex (getText document) = Some templateMatch ->
          truthy (getWorkspaceFolder w (uri document)) = Some workspaceRoot ->
          Diagnostics.findExtendedTemplate w document = None ->
          let beside :=
            withHtml (path.resolve (cwd w)
                        [path.dirname (fileName document);
                         capture 1 (groups templateMatch)]) in
          Navigation.findExtendedTemplate w document
          = if existsSync w beside then Some beside else None).
Proof.
  intros w document. unfold Diagnostics.findExtendedTemplate,
    Navigation.findExtendedTemplate, DefinitionProvider.resolveTemplateDefinition,
    workspaceRootOf.
  destruct (matchFirst templateRegex (getText document)) as [m|]; [|split; discriminate].
  destruct (truthy (getWorkspaceFolder w (uri document))) as [root|];
    [|split; discriminate].
  unfold resolveTemplatePath. rewrite !firstTemplate_find.
  change (DefinitionProvider.possiblePaths w document (capture 1 (groups m)) root)
    with (Diagnostics.possiblePaths w (capture 1 (groups m)) root
            ++ [path.resolve (cwd w) [path.dirname (fileName document);
                                      capture 1 (groups m)]]).
  rewrite map_app. split.
  - intros parent H. now apply find_app_some.
  - intros templateMatch workspaceRoot Hm Hr Hnone.
    inversion Hm; subst templateMatch. clear Hm Hr.
    set (cands := map withHtml (Diagnostics.possiblePaths w (capture 1 (groups m)) root))
      in *.
    clearbody cands. induction cands as [|c cands IH]; simpl in *.
    + reflexivity.
    + destruct (existsSync w c); [discriminate | auto].
Qed.

Lemma navigation_agrees_with_diagnostics_witness :
  Navigation.findExtendedTemplate twoParents (openDocument twoParents "/ws/src/index.html")
  = Some "/ws/src/layouts/base.html"
  /\ Navigation.findExtendedTemplate besideDocument
       (openDocument besideDocument "/ws/src/pages/index.html")
     = Some "/ws/src/pages/base.html".
Proof.
  split.
  - apply navigation_agrees_with_diagnostics. vm_compute. reflexivity.
  - destruct (navigation_agrees_with_diagnostics besideDocument
                (openDocument besideDocument "/ws/src/pages/index.html")) as (_ & H).
    cbv zeta in H.
    etransitivity; [eapply H; vm_compute; reflexivity | vm_compute; reflexivity].
Defined.

(** ** The slot under the cursor *)

Lemma slotAtLoop_spec (character : nat) (ms : list Match) :
  match Navigation.slotAtLoop character ms with
  | Some name =>
      exists before m after,
        ms = before ++ m :: after
        /\ name = capture 1 (groups m)
        /\ index m <= character /\ character <= matchEnd m
        /\ forall m', In m' before ->
                      ~ (index m' <= character /\ character <= matchEnd m')
  | None =>
      forall m, In m ms -> ~ (index m <= character /\ character <= matchEnd m)
  end.
Proof.
  induction ms as [|m rest IH]; simpl.
  - intros m [].
  - fold (matchEnd m).
    assert (Hrest :
      ~ (index m <= character /\ character <= matchEnd m) ->
      match Navigation.slotAtLoop character rest with
      | Some name =>
          exists before m0 after,
            m :: rest = before ++ m0 :: after
            /\ name = capture 1 (groups m0)
            /\ index m0 <= character /\ character <= matchEnd m0
            /\ forall m', In m' before ->
                          ~ (index m' <= character /\ character <= matchEnd m')
      | None =>
          forall m0, m = m0 \/ In m0 rest ->
                     ~ (index m0 <= character /\ character <= matchEnd m0)
      end).
    { intros Hout. destruct (Navigation.slotAtLoop character rest) as [name|].
      - destruct IH as (before & m0 & after & -> & Hn & Hlo & Hhi & Hb).
        exists (m :: before), m0, after.
        split; [reflexivity|]. split; [assumption|].
        split; [assumption|]. split; [assumption|].
        intros m' [<-|Hm']; [assumption | now apply Hb].
      - intros m0 [<-|Hm0]; [assumption | now apply IH]. }
    destruct (Nat.leb_spec (index m) character) as [H1|H1];
      [destruct (Nat.leb_spec character (matchEnd m)) as [H2|H2]|];
      cbn [andb].
    + exists [], m, rest.
      split; [reflexivity|]. split; [reflexivity|].
      split; [assumption|]. split; [assumption|]. intros m' [].
    + apply Hrest. lia.
    + apply Hrest. lia.
Qed.

(** X17. [findSlotAtPosition] always returns. It returns a name exactly
    when the cursor stands on a slot tag of the line, from its [<] to the
    column after its [>]; the name is then that of the first such tag, it is
    not empty and holds no quote character. *)
Theorem slot_at_position :
  forall (lineText : string) (character : nat),
    exists result,
      Navigation.findSlotAtPosition lineText character = Some result
      /\ (forall name, result = Some name ->
            name <> "" /\ quotesFree name
            /\ exists ms before m after,
                 execAll slotDeclRegex lineText = Some ms
                 /\ ms = before ++ m :: after
                 /\ name = capture 1 (groups m)
                 /\ index m <= character /\ character <= matchEnd m
                 /\ forall m', In m' before ->
                               ~ (index m' <= character /\ character <= matchEnd m'))
      /\ (result = None ->
          forall ms m, execAll slotDeclRegex lineText = Some ms -> In m ms ->
                       ~ (index m <= character /\ character <= matchEnd m)).
Proof.
  intros lineText character.
  exists (Navigation.slotAtLoop character (matchesOf slotDeclRegex lineText)).
  pose proof (execAll_matchesOf lineText slotDeclRegex_advancing) as Hrun.
  split; [unfold Navigation.findSlotAtPosition; now rewrite Hrun|].
  pose proof (slotAtLoop_spec character (matchesOf slotDeclRegex lineText)) as Hspec.
  split.
  - intros name Hres. rewrite Hres in Hspec.
    destruct Hspec as (before & m & after & Hms & Hn & Hlo & Hhi & Hb).
    assert (Hin : In m (matchesOf slotDeclRegex lineText))
      by (rewrite Hms; apply in_or_app; simpl; auto).
    apply matchesOf_sound in Hin. destruct Hin as (pre & rest & _ & _ & Hsem).
    rewrite slotDeclRegex_tag in Hsem. apply tagRegex_shape in Hsem.
    destruct Hsem as (b & q1 & nm & q2 & a & _ & Hcs & _ & _ & _ & _ & Hne & Hq & _).
    rewrite Hcs in Hn. cbn [capture Nat.eqb] in Hn. subst nm.
    split; [assumption|]. split; [assumption|].
    exists (matchesOf slotDeclRegex lineText), before, m, after.
    rewrite Hcs. cbn [capture Nat.eqb].
    split; [assumption|]. split; [assumption|]. split; [reflexivity|].
    split; [assumption|]. split; assumption.
  - intros Hres ms m Hms Hin. rewrite Hres in Hspec.
    rewrite Hrun in Hms. inversion Hms; subst ms. auto.
Qed.

Lemma slot_at_position_witness :
  Navigation.findSlotAtPosition layoutSample 40 = Some (Some "content")
  /\ quotesFree "content".
Proof.
  destruct (slot_at_position layoutSample 40) as (result & Hrun & Hsome & _).
  assert (Hres : result = Some "content")
    by (vm_compute in Hrun; inversion Hrun; reflexivity).
  split; [rewrite Hrun, Hres; reflexivity|].
  apply (Hsome "content" Hres).
Defined.
